(** * Classical post-processing of the Simon family of circuits

    A shallow embedding of the secret-recovery code of the repository:
    - [Cycles]: [find_ternary_cycles] of the ternary oracle builder
      (ternary_simon_generation.py, simon_ternary_dataset.py);
    - [Ternary]: [rref_mod3] and [recover_secret_string_3d]
      (simon_ternary_post_processing.py);
    - [Simon]: [solve_equation] and [run_and_analyze]
      (simon_post_processing.py);
    - [MultiSimon]: [recover_secret_string], [post_processing] and
      [run_and_analyze] (multi_simon_post_processing.py).

    Python strings are [string]s, Python ints are [Z], lists are lists, a
    [set] of strings is a [gset string], a [dict] is an association list in
    insertion order.  An exception raised by the Python code is [None]. *)

From Stdlib Require Import Ascii ZArith QArith Lia.
From stdpp Require Import base option list gmap strings numbers.

Local Open Scope Z_scope.

(** ** Python primitives shared by all modules *)

(** [int(c)] for a one-character string [c]: the decimal digits are
    accepted, everything else raises [ValueError]. *)
Definition int_of_char (c : ascii) : option Z :=
  Z.of_nat <$> Ascii.is_nat c.

(** [str(d)] for an integer [0 <= d <= 9] is one character. *)
Definition str_of_digit (d : Z) : ascii :=
  ascii_of_nat (48 + Z.to_nat d).

(** ["0" * n] *)
Fixpoint zeros (n : nat) : string :=
  match n with
  | O => ""
  | S k => String "0" (zeros k)
  end.

(** ["".join(str(c) for c in row)] for a row of one-digit integers. *)
Fixpoint join_digits (row : list Z) : string :=
  match row with
  | [] => ""
  | d :: r => String (str_of_digit d) (join_digits r)
  end.

(** [[int(bit) for bit in result]] *)
Fixpoint ints_of_string (result : string) : option (list Z) :=
  match result with
  | "" => Some []
  | String c r =>
      d ← int_of_char c; ds ← ints_of_string r; Some (d :: ds)
  end.

(** A [dict] with string keys, in insertion order; the keys are distinct.
    [counts] of a simulator run maps each measured outcome to its number of
    occurrences. *)
Definition dict := list (string * Z).

(** [d[k] = v] *)
Fixpoint dict_set (d : dict) (k : string) (v : Z) : dict :=
  match d with
  | [] => [(k, v)]
  | (k', v') :: d' =>
      if decide (k' = k) then (k', v) :: d' else (k', v') :: dict_set d' k v
  end.

(** ** Matrices

    A SymPy [Matrix]: its shape and its rows.  Every matrix built by the code
    is rectangular, [well_formed] below. *)
Record Matrix (A : Type) := mk_Matrix {
  rows : nat;
  cols : nat;
  mat : list (list A)
}.
Arguments mk_Matrix {A} _ _ _.
Arguments rows {A} _.
Arguments cols {A} _.
Arguments mat {A} _.

Definition well_formed {A} (M : Matrix A) : Prop :=
  length (mat M) = rows M ∧ Forall (λ row, length row = cols M) (mat M).

(** [M[i, j]]; the indices used by the code are always in range, where the
    default is not reached. *)
Definition entry {A} (d : A) (M : Matrix A) (i j : nat) : A :=
  default d (row ← mat M !! i; row !! j).

(** [M[i, j] = v] *)
Definition set_entry {A} (M : Matrix A) (i j : nat) (v : A) : Matrix A :=
  mk_Matrix (rows M) (cols M) (alter (λ row, <[j := v]> row) i (mat M)).

(** [M.row_swap(i, j)] *)
Definition row_swap {A} (M : Matrix A) (i j : nat) : Matrix A :=
  match mat M !! i, mat M !! j with
  | Some ri, Some rj =>
      mk_Matrix (rows M) (cols M) (<[j := ri]> (<[i := rj]> (mat M)))
  | _, _ => M
  end.

(** [M.applyfunc(f)] *)
Definition applyfunc {A B} (f : A → B) (M : Matrix A) : Matrix B :=
  mk_Matrix (rows M) (cols M) (map (map f) (mat M)).

(** [Matrix(list_of_rows)]: the rows must have one length ([ValueError]
    otherwise); the empty list gives the 0 x 0 matrix. *)
Definition Matrix_of_rows (l : list (list Z)) : option (Matrix Z) :=
  match l with
  | [] => Some (mk_Matrix 0 0 [])
  | r0 :: _ =>
      if decide (Forall (λ row, length row = length r0) l)
      then Some (mk_Matrix (length l) (length r0) l)
      else None
  end.

(** [M.T] *)
Definition transpose (M : Matrix Z) : Matrix Z :=
  mk_Matrix (cols M) (rows M)
    (map (λ j, map (λ i, entry 0 M i j) (seq 0 (rows M))) (seq 0 (cols M))).

(** Row [i] of [np.eye(n, dtype=int)]. *)
Definition eye_row (n i : nat) : list Z :=
  map (λ j, if decide (j = i) then 1 else 0) (seq 0 n).

(** [Matrix(np.hstack([M, np.eye(M.shape[0], dtype=int)]))] *)
Definition hstack_eye (M : Matrix Z) : Matrix Z :=
  mk_Matrix (rows M) (cols M + rows M)
    (imap (λ i row, row ++ eye_row (rows M) i) (mat M)).

(** A [for] loop over [range(lo, lo + len)] that updates a state. *)
Definition for_range {S} (lo len : nat) (body : nat → S → S) (s : S) : S :=
  foldl (λ s i, body i s) s (seq lo len).

(** ** Vocabulary of the properties

    The scalar product, the independence of a list of vectors modulo [p],
    and the multiple of a ternary vector whose first non-zero digit is 1. *)
Definition dot (u v : list Z) : Z := foldr Z.add 0 (zip_with Z.mul u v).

Definition column (t : nat) (vs : list (list Z)) : list Z :=
  map (λ v, nth t v 0) vs.

(** No combination of the vectors vanishes modulo [p], except those whose
    coefficients all vanish modulo [p]. *)
Definition independent (p : Z) (vs : list (list Z)) : Prop :=
  ∀ x : list Z,
    length x = length vs →
    (∀ t, dot x (column t vs) mod p = 0) →
    Forall (λ c, c mod p = 0) x.

Definition first_nonzero (s : list Z) : Z :=
  default 1 (head (filter (λ d, d ≠ 0) s)).

Definition scale3 (l : Z) (s : list Z) : list Z :=
  map (λ d, (l * d) mod 3) s.

(** ** Cycle decomposition of the ternary oracle builder *)
Module Cycles.

(** [generate_ternary_numbers]: all strings over "012" of the given length,
    in counting order. *)
Fixpoint generate_ternary_numbers (qudits_num : nat) : list string :=
  match qudits_num with
  | O => [""]
  | S k =>
      let smaller := generate_ternary_numbers k in
      x ← smaller; y ← ["0"; "1"; "2"]%char; [x +:+ String y ""]
  end.

(** [add_ternary]: digit-wise sum mod 3, one output character per character
    of [t1]; [t2[i]] raises [IndexError] when [t2] is shorter than [t1]. *)
Fixpoint add_ternary (t1 t2 : string) : option string :=
  match t1 with
  | "" => Some ""
  | String a r1 =>
      match t2 with
      | "" => None
      | String b r2 =>
          x ← int_of_char a;
          y ← int_of_char b;
          r ← add_ternary r1 r2;
          Some (String (str_of_digit ((x + y) mod 3)) r)
      end
  end.

(** The [while current not in seen_cycles] loop of [find_cycle]; each
    iteration consumes one unit of [fuel]. *)
Fixpoint find_cycle_loop (fuel : nat) (secret_string current : string)
    (ternary_cycle : list string) (seen_cycles : gset string)
    : option (list string) :=
  match fuel with
  | O => None
  | S fuel' =>
      if decide (current ∈ seen_cycles) then Some ternary_cycle
      else
        next ← add_ternary current secret_string;
        find_cycle_loop fuel' secret_string next
          (ternary_cycle ++ [current]) ({[current]} ∪ seen_cycles)
  end.

Definition find_cycle (fuel : nat) (start secret_string : string)
    : option (list string) :=
  find_cycle_loop fuel secret_string start [] ∅.

(** The [for number in ternary_numbers] loop of [find_ternary_cycles]. *)
Fixpoint cycles_loop (fuel : nat) (secret_string : string)
    (numbers : list string) (cycles : list (list string))
    (seen : gset string) : option (list (list string)) :=
  match numbers with
  | [] => Some cycles
  | number :: rest =>
      if decide (number ∈ seen) then
        cycles_loop fuel secret_string rest cycles seen
      else
        cycle ← find_cycle fuel number secret_string;
        cycles_loop fuel secret_string rest (cycles ++ [cycle])
          (seen ∪ list_to_set cycle)
  end.

Definition find_ternary_cycles (fuel n : nat) (secret_string : string)
    : option (list (list string)) :=
  cycles_loop fuel secret_string (generate_ternary_numbers n) [] ∅.

(** A string of [n] characters, each of them 0, 1 or 2. *)
Definition ternary_char (c : ascii) : bool :=
  bool_decide (c = "0"%char) || bool_decide (c = "1"%char)
  || bool_decide (c = "2"%char).

Fixpoint is_ternary (x : string) : bool :=
  match x with
  | "" => true
  | String c r => ternary_char c && is_ternary r
  end.

Definition ternary_string (n : nat) (x : string) : Prop :=
  String.length x = n ∧ is_ternary x = true.

End Cycles.

(** ** Ternary post-processing *)
Module Ternary.

(** [mod3]: [S(x % 3)] *)
Definition mod3 (x : Z) : Z := x mod 3.

(** [pow(pivot_val, -1, 3)]: the inverse modulo 3, [ValueError] when the base
    is not invertible. *)
Definition pow_inv3 (x : Z) : option Z :=
  if decide (x mod 3 = 0) then None else Some (x mod 3).

(** The pivot search: the first [ri] in [range(r, rows)] with
    [M[ri, c] != 0]. *)
Definition find_pivot_row (M : Matrix Z) (c r : nat) : option nat :=
  head (filter (λ ri, entry 0 M ri c ≠ 0) (seq r (rows M - r))).

(** [for j in range(cols): M[r, j] = mod3(inv_pivot_val * M[r, j])] *)
Definition normalize_row (M : Matrix Z) (r : nat) (inv_pivot_val : Z)
    : Matrix Z :=
  for_range 0 (cols M)
    (λ j M, set_entry M r j (mod3 (inv_pivot_val * entry 0 M r j))) M.

(** [for j in range(cols):
       M[ri, j] = mod3(M[ri, j] - multiplier * M[r, j])] *)
Definition eliminate_row (M : Matrix Z) (r ri : nat) (multiplier : Z)
    : Matrix Z :=
  for_range 0 (cols M)
    (λ j M,
       set_entry M ri j (mod3 (entry 0 M ri j - multiplier * entry 0 M r j)))
    M.

(** [for ri in range(rows): if ri != r and M[ri, c] != 0: ...] *)
Definition eliminate_column (M : Matrix Z) (r c : nat) : Matrix Z :=
  for_range 0 (rows M)
    (λ ri M,
       if decide (ri ≠ r ∧ entry 0 M ri c ≠ 0)
       then eliminate_row M r ri (entry 0 M ri c)
       else M)
    M.

(** One pass of the body of [for c in range(cols)] once a pivot row has been
    found: swap, normalise, eliminate. *)
Definition pivot_step (M : Matrix Z) (r c pivot_row : nat)
    : option (Matrix Z) :=
  let M := if decide (pivot_row ≠ r) then row_swap M pivot_row r else M in
  let pivot_val := entry 0 M r c in
  M ← (if decide (pivot_val ≠ 1)
       then inv ← pow_inv3 pivot_val; Some (normalize_row M r (mod3 inv))
       else Some M);
  Some (eliminate_column M r c).

(** The loop [for c in range(cols)] with its [continue] and [break]. *)
Fixpoint rref_loop (cs : list nat) (M : Matrix Z) (r : nat)
    (pivot_cols : list nat) : option (Matrix Z * list nat) :=
  match cs with
  | [] => Some (M, pivot_cols)
  | c :: cs' =>
      match find_pivot_row M c r with
      | None => rref_loop cs' M r pivot_cols
      | Some pivot_row =>
          M ← pivot_step M r c pivot_row;
          let pivot_cols := pivot_cols ++ [c] in
          let r := S r in
          if decide (r = rows M) then Some (M, pivot_cols)
          else rref_loop cs' M r pivot_cols
      end
  end.

Definition rref_mod3 (M : Matrix Z) : option (Matrix Z * list nat) :=
  let M := applyfunc mod3 M in
  rref_loop (seq 0 (cols M)) M 0%nat [].

(** [int(chunk, 2)] for a chunk of one or two characters 0 and 1. *)
Definition int_base2 (chunk : list ascii) : option Z :=
  match chunk with
  | [a] => b ← int_of_char a; if decide (b ≤ 1) then Some b else None
  | [a; a'] =>
      b ← int_of_char a; b' ← int_of_char a';
      if decide (b ≤ 1 ∧ b' ≤ 1) then Some (2 * b + b') else None
  | _ => None
  end.

(** [binary_to_ternary]: one digit per chunk [binary_str[i:i+2]]. *)
Fixpoint binary_to_ternary (binary_str : string) : option string :=
  match binary_str with
  | "" => Some ""
  | String a "" =>
      d ← int_base2 [a]; Some (String (str_of_digit d) "")
  | String a (String a' rest) =>
      d ← int_base2 [a; a'];
      r ← binary_to_ternary rest;
      Some (String (str_of_digit d) r)
  end.

(** What [recover_secret_string_3d] returns: a string, or the pair of a
    string and an integer. *)
Inductive value :=
  | Str (s : string)
  | Pair (s : string) (found : Z).

(** The loop that collects [equations] from [results.items()]. *)
Fixpoint collect_equations (n : nat) (results : dict)
    : option (list (list Z)) :=
  match results with
  | [] => Some []
  | (result, count) :: rest =>
      if decide (result ≠ zeros (2 * n)) then
        ternary_result ← binary_to_ternary result;
        y ← ints_of_string ternary_result;
        eqs ← collect_equations n rest;
        Some (y :: eqs)
      else collect_equations n rest
  end.

(** [is_zero_mod3] *)
Definition is_zero_mod3 (x : Z) : bool := bool_decide (mod3 x = 0).

(** The loop [for i in range(M_I_final.rows)]: [k] is [M.cols]; the state is
    [(null_space_found, first_solution)]. *)
Definition scan_rows (M_I_final : Matrix Z) (k : nat)
    (first_solution : string) : bool * string :=
  for_range 0 (rows M_I_final)
    (λ i '(null_space_found, first_solution),
       let row := default [] (mat M_I_final !! i) in
       if forallb is_zero_mod3 (take k row) then
         let solution_vector := drop k row in
         let result_s := join_digits solution_vector in
         if negb null_space_found then (true, result_s)
         else (null_space_found, first_solution)
       else (null_space_found, first_solution))
    (false, first_solution).

(** The part of [recover_secret_string_3d] after the equations are
    collected (lines 107 to 138). *)
Definition solve_3d (n : nat) (equations : list (list Z)) : option value :=
  match equations with
  | [] => Some (Pair (zeros n) 0)
  | _ =>
      A ← Matrix_of_rows equations;
      let M := transpose (applyfunc mod3 A) in
      let M_I := hstack_eye M in
      M_I_rref ← rref_mod3 M_I;
      let M_I_final := applyfunc (λ x, x mod 3) (fst M_I_rref) in
      Some (Str (snd (scan_rows M_I_final (cols M) (zeros n))))
  end.

Definition recover_secret_string_3d (n : nat) (results : dict)
    : option value :=
  equations ← collect_equations n results;
  solve_3d n equations.

(** [run_and_analyze]: [n] is [circuit.num_qubits // 2] and [counts] the
    outcome of the simulator run. *)
Definition run_and_analyze (n : nat) (counts : dict) : option value :=
  recover_secret_string_3d n counts.

(** [format(d, '02b')]: the binary digits of [d], with zeros in front up to
    two characters; a negative [d] has its sign first. *)
Fixpoint bin_of_pos (p : positive) : string :=
  match p with
  | xH => "1"
  | xO q => bin_of_pos q +:+ "0"
  | xI q => bin_of_pos q +:+ "1"
  end.

Definition format_02b (d : Z) : string :=
  match d with
  | Z0 => "00"
  | Zpos p =>
      let b := bin_of_pos p in
      if decide (String.length b < 2)%nat then "0" +:+ b else b
  | Zneg p => "-" +:+ bin_of_pos p
  end.

(** [ternary_to_binary]: two bits per digit. *)
Fixpoint ternary_to_binary (ternary_str : string) : option string :=
  match ternary_str with
  | "" => Some ""
  | String digit rest =>
      d ← int_of_char digit;
      r ← ternary_to_binary rest;
      Some (format_02b d +:+ r)
  end.

End Ternary.

(** ** SymPy's row reduction

    [Matrix.rref(iszerofunc=...)] is a routine of the SymPy library, which
    the repository calls and does not contain, and the repository names no
    version of the library.  Two routines are modelled.  [rref] is the
    routine of SymPy up to 1.12, the library's generic routine for a matrix
    of integers: a fraction-free elimination that takes as pivot the first
    entry of the column, at or below the current pivot row, that
    [iszerofunc] does not call zero, then a normalisation that divides every
    pivot row by its pivot.  [rref_exact], at the end of the module, is the
    routine of SymPy 1.13 and later, which does not consult [iszerofunc]. *)
Module Sympy.

(** The first entry of column [piv_col], from row [piv_row] on, that is not
    zero for [iszerofunc]: its offset from [piv_row]. *)
Definition find_reasonable_pivot (iszerofunc : Z → bool) (M : Matrix Z)
    (piv_row piv_col : nat) : option nat :=
  head (filter (λ off, iszerofunc (entry 0 M (piv_row + off) piv_col) = false)
          (seq 0 (rows M - piv_row))).

(** [cross_cancel(a, i, b, j)]: [row[i] = a * row[i] - b * row[j]]. *)
Definition cross_cancel (M : Matrix Z) (a : Z) (i : nat) (b : Z) (j : nat)
    : Matrix Z :=
  for_range 0 (cols M)
    (λ p M, set_entry M i p (a * entry 0 M i p - b * entry 0 M j p)) M.

(** Zero the column above and below the pivot. *)
Definition zero_column (iszerofunc : Z → bool) (M : Matrix Z)
    (piv_row piv_col : nat) (pivot_val : Z) : Matrix Z :=
  for_range 0 (rows M)
    (λ row M,
       if decide (row = piv_row) then M
       else
         let val := entry 0 M row piv_col in
         if iszerofunc val then M
         else cross_cancel M pivot_val row val piv_row)
    M.

(** The elimination loop, one column after the other while
    [piv_row < rows].  (The library's loop looks at a pivot column once more
    after the elimination, finds it zero below the pivot and moves on.) *)
Fixpoint row_reduce (iszerofunc : Z → bool) (cs : list nat) (M : Matrix Z)
    (piv_row : nat) (pivot_cols : list nat) : Matrix Z * list nat :=
  match cs with
  | [] => (M, pivot_cols)
  | piv_col :: cs' =>
      if decide (piv_row < rows M)%nat then
        match find_reasonable_pivot iszerofunc M piv_row piv_col with
        | None => row_reduce iszerofunc cs' M piv_row pivot_cols
        | Some pivot_offset =>
            let pivot_val := entry 0 M (piv_row + pivot_offset) piv_col in
            let M :=
              if decide (pivot_offset ≠ 0%nat)
              then row_swap M piv_row (piv_row + pivot_offset) else M in
            let M := zero_column iszerofunc M piv_row piv_col pivot_val in
            row_reduce iszerofunc cs' M (S piv_row) (pivot_cols ++ [piv_col])
        end
      else (M, pivot_cols)
  end.

(** A SymPy rational is kept in lowest terms. *)
Definition rational (x : Q) : Q := Qred x.

(** The normalisation of pivot row [piv_i] with pivot column [piv_j]. *)
Definition normalize_pivot_row (M : Matrix Q) (piv_i piv_j : nat)
    : Matrix Q :=
  let pivot_val := entry 0%Q M piv_i piv_j in
  let M := set_entry M piv_i piv_j 1%Q in
  for_range (S piv_j) (cols M - S piv_j)
    (λ p M, set_entry M piv_i p (rational (entry 0%Q M piv_i p / pivot_val)))
    M.

(** [for piv_i, piv_j in enumerate(pivot_cols)] *)
Definition normalize (M : Matrix Q) (pivot_cols : list nat) : Matrix Q :=
  foldl (λ M '(piv_i, piv_j), normalize_pivot_row M piv_i piv_j) M
    (imap (λ piv_i piv_j, (piv_i, piv_j)) pivot_cols).

(** [M.rref(iszerofunc=iszerofunc)]: the reduced matrix and the pivot
    columns. *)
Definition rref (iszerofunc : Z → bool) (M : Matrix Z)
    : Matrix Q * list nat :=
  let '(R, pivot_cols) :=
    row_reduce iszerofunc (seq 0 (cols M)) M 0%nat [] in
  (normalize (applyfunc inject_Z R) pivot_cols, pivot_cols).

(** *** SymPy 1.13 and later

    From SymPy 1.13 on, [Matrix.rref] hands a matrix of integers to the
    library's exact-domain routine: [iszerofunc] is not consulted, and the
    result is the reduced row echelon form over the rationals, which does
    not depend on the order of the eliminations.  It is modelled by
    Gauss-Jordan elimination on rationals in lowest terms: the pivot of a
    column is its first entry, at or below the current pivot row, that is
    not zero. *)
Definition find_nonzero (M : Matrix Q) (piv_row piv_col : nat)
    : option nat :=
  head (filter (λ i, Qeq_bool (entry 0%Q M i piv_col) 0 = false)
          (seq piv_row (rows M - piv_row))).

(** [row[i] = row[i] / a] *)
Definition divide_row (M : Matrix Q) (i : nat) (a : Q) : Matrix Q :=
  for_range 0 (cols M)
    (λ p M, set_entry M i p (rational (entry 0%Q M i p / a))) M.

(** [row[i] = row[i] - b * row[j]] *)
Definition subtract_row (M : Matrix Q) (i : nat) (b : Q) (j : nat)
    : Matrix Q :=
  for_range 0 (cols M)
    (λ p M,
       set_entry M i p (rational (entry 0%Q M i p - b * entry 0%Q M j p)))
    M.

Definition clear_column (M : Matrix Q) (piv_row piv_col : nat) : Matrix Q :=
  for_range 0 (rows M)
    (λ row M,
       if decide (row = piv_row) then M
       else subtract_row M row (entry 0%Q M row piv_col) piv_row)
    M.

Fixpoint gauss_jordan (cs : list nat) (M : Matrix Q) (piv_row : nat)
    (pivot_cols : list nat) : Matrix Q * list nat :=
  match cs with
  | [] => (M, pivot_cols)
  | piv_col :: cs' =>
      if decide (piv_row < rows M)%nat then
        match find_nonzero M piv_row piv_col with
        | None => gauss_jordan cs' M piv_row pivot_cols
        | Some i =>
            let M := if decide (i ≠ piv_row) then row_swap M piv_row i
                     else M in
            let M := divide_row M piv_row (entry 0%Q M piv_row piv_col) in
            let M := clear_column M piv_row piv_col in
            gauss_jordan cs' M (S piv_row) (pivot_cols ++ [piv_col])
        end
      else (M, pivot_cols)
  end.

(** [M.rref(iszerofunc=...)] for a matrix of integers, SymPy 1.13 and
    later. *)
Definition rref_exact (M : Matrix Z) : Matrix Q * list nat :=
  gauss_jordan (seq 0 (cols M)) (applyfunc inject_Z M) 0%nat [].

End Sympy.

(** ** Binary post-processing (Simon) *)
Module Simon.

(** [mod2]: [x.as_numer_denom()[0] % 2] *)
Definition mod2 (x : Q) : Z := Qnum (Qred x) mod 2.

(** [lambda x: x % 2 == 0], on the integers of the elimination. *)
Definition iszero_mod2 (x : Z) : bool := bool_decide (x mod 2 = 0).

(** Lines 30 to 38 of [solve_equation]: the answer read off the last row
    of the reduced matrix; [M_I_final[-1, ...]] raises [IndexError] when the
    matrix has no row. *)
Definition last_row_solution (M_I_final M : Matrix Z) : option string :=
  last_row ← list.last (mat M_I_final);
  if forallb (λ value, bool_decide (value = 0)) (take (cols M) last_row)
  then Some (join_digits (drop (cols M) last_row))
  else Some (zeros (rows M)).

Definition solve_equation (string_list : list (list Z)) : option string :=
  A ← Matrix_of_rows string_list;
  let M := transpose A in
  let M_I := hstack_eye M in
  let M_I_rref := Sympy.rref iszero_mod2 M_I in
  let M_I_final := applyfunc mod2 (fst M_I_rref) in
  last_row_solution M_I_final M.

(** The loop that collects [equations] from [counts.items()]. *)
Fixpoint collect_equations (n : nat) (counts : dict)
    : option (list (list Z)) :=
  match counts with
  | [] => Some []
  | (result, count) :: rest =>
      if decide (result ≠ zeros n) then
        y ← ints_of_string result;
        eqs ← collect_equations n rest;
        Some (y :: eqs)
      else collect_equations n rest
  end.

(** [run_and_analyze]: [n] is [circuit.num_qubits // 2] and [counts] the
    outcome of the simulator run. *)
Definition run_and_analyze (n : nat) (counts : dict) : option string :=
  equations ← collect_equations n counts;
  if decide (length equations = 0%nat) then Some (zeros n)
  else solve_equation equations.

(** [solve_equation] as it runs with SymPy 1.13 or later: the same lines,
    where the call [M_I.rref(iszerofunc=...)] of line 25 is
    [Sympy.rref_exact]. *)
Definition solve_equation_exact (string_list : list (list Z))
    : option string :=
  A ← Matrix_of_rows string_list;
  let M := transpose A in
  let M_I := hstack_eye M in
  let M_I_rref := Sympy.rref_exact M_I in
  let M_I_final := applyfunc mod2 (fst M_I_rref) in
  last_row_solution M_I_final M.

End Simon.

(** ** Binary post-processing with two secrets *)
Module MultiSimon.

(** [post_processing]: the same text as [solve_equation] of [Simon]. *)
Definition post_processing (string_list : list (list Z)) : option string :=
  A ← Matrix_of_rows string_list;
  let M := transpose A in
  let M_I := hstack_eye M in
  let M_I_rref := Sympy.rref Simon.iszero_mod2 M_I in
  let M_I_final := applyfunc Simon.mod2 (fst M_I_rref) in
  last_row ← list.last (mat M_I_final);
  if forallb (λ value, bool_decide (value = 0)) (take (cols M) last_row)
  then Some (join_digits (drop (cols M) last_row))
  else Some (zeros (rows M)).

Fixpoint collect_equations (n : nat) (results : dict)
    : option (list (list Z)) :=
  match results with
  | [] => Some []
  | (result, count) :: rest =>
      if decide (result ≠ zeros n) then
        y ← ints_of_string result;
        eqs ← collect_equations n rest;
        Some (y :: eqs)
      else collect_equations n rest
  end.

Definition recover_secret_string (n : nat) (results : dict)
    : option string :=
  equations ← collect_equations n results;
  if decide (length equations = 0%nat) then Some (zeros n)
  else post_processing equations.

(** The loop [for item in counts.keys()] that fills [dic1] and [dic2];
    [item[0]] raises [IndexError] on the empty string. *)
Fixpoint split_counts (keys : list string) (dic1 dic2 : dict)
    : option (dict * dict) :=
  match keys with
  | [] => Some (dic1, dic2)
  | item :: rest =>
      match item with
      | "" => None
      | String c tail =>
          if decide (c = "1"%char)
          then split_counts rest (dict_set dic1 tail 1) dic2
          else split_counts rest dic1 (dict_set dic2 tail 1)
      end
  end.

(** [run_and_analyze]: [n] is [circuit.num_qubits] and [counts] the outcome
    of the simulator run. *)
Definition run_and_analyze (n : nat) (counts : dict)
    : option (string * string) :=
  '(dic1, dic2) ← split_counts (map fst counts) [] [];
  prediction1 ← recover_secret_string n dic2;
  prediction2 ← recover_secret_string n dic1;
  Some (prediction1, prediction2).

End MultiSimon.

(** ** The two buckets of the two-secret variant, as two filters *)

(** The outcomes whose first character is ['1'] ([tagged = true]) or is not
    ([tagged = false]), without that character, in the order of their first
    occurrence. *)
Definition bucket_step (tagged : bool) (d : dict) (item : string) : dict :=
  match item with
  | "" => d
  | String c tail =>
      if decide (bool_decide (c = "1"%char) = tagged)
      then dict_set d tail 1 else d
  end.

Definition bucket (tagged : bool) (keys : list string) (d : dict) : dict :=
  foldl (bucket_step tagged) d keys.

(** ** The shot loop of the ternary checks

    [check_dataset] of simon_ternary_dataset.py and [check_model] of
    simon_ternary_verification.py compare each prediction with the secret
    and with its double. *)
Module TernaryCheck.

(** [rotated_string]: the digits [(int(c) + int(c)) % 3] for the characters
    [c] of the secret. *)
Fixpoint rotated_string (secret_string : string) : option string :=
  match secret_string with
  | "" => Some ""
  | String c rest =>
      d ← int_of_char c;
      r ← rotated_string rest;
      Some (String (str_of_digit ((d + d) mod 3)) r)
  end.

(** The body of [for shot in range(shots)] once the prediction is known:
    [Some true] when the shot counts as a success, [Some false] when it
    counts as a failure, [None] when an exception is raised ([TypeError] for
    a prediction that is not a string). *)
Definition check_prediction (prediction : Ternary.value)
    (secret_string : string) : option bool :=
  let equivalents : gset string := ∅ in
  let equivalents := {[secret_string]} ∪ equivalents in
  rotated_string ← rotated_string secret_string;
  let equivalents := {[rotated_string]} ∪ equivalents in
  match prediction with
  | Ternary.Pair _ _ => None
  | Ternary.Str prediction => Some (bool_decide (prediction ∈ equivalents))
  end.


End TernaryCheck.

(** ** The check of the ternary oracle (ternary_simon_verification.py) *)
Module OracleCheck.

(** [ternary_to_qubits]: one pair of qubit states per digit, [ValueError]
    for a character that is not 0, 1 or 2. *)
Fixpoint ternary_to_qubits (ternary_str : string) : option (list (Z * Z)) :=
  match ternary_str with
  | "" => Some []
  | String digit rest =>
      pair ←
        (if decide (digit = "0"%char) then Some (0, 0)
         else if decide (digit = "1"%char) then Some (0, 1)
         else if decide (digit = "2"%char) then Some (1, 0)
         else None);
      qubit_pairs ← ternary_to_qubits rest;
      Some (pair :: qubit_pairs)
  end.

End OracleCheck.

(** ** String helpers of the checks (simon_ternary_utils.py) *)
Module Utils.

(** [s[:i]] and [s[i:]] for [i >= 0]. *)
Fixpoint str_take (i : nat) (s : string) : string :=
  match i, s with
  | S j, String c r => String c (str_take j r)
  | _, _ => ""
  end.

Fixpoint str_drop (i : nat) (s : string) : string :=
  match i, s with
  | S j, String c r => str_drop j r
  | _, _ => s
  end.

(** [s.find(sub)]: the lowest index at which [sub] occurs in [s]; Python
    returns -1 when there is none, here [None]. *)
Fixpoint str_find (s sub : string) : option nat :=
  if String.prefix sub s then Some 0%nat
  else
    match s with
    | "" => None
    | String _ r => S <$> str_find r sub
    end.

(** The text [include "oracle.inc";] (character 34 is the double quote). *)
Definition oracle_include : string :=
  "include " +:+ String "034" ("oracle.inc" +:+ String "034" ";").

(** [plug_in_oracle]: [ValueError] when the include statement is not
    found. *)
Definition plug_in_oracle (qasm_code oracle_def : string) : option string :=
  match str_find qasm_code oracle_include with
  | None => None
  | Some oracle_pos =>
      Some (str_take oracle_pos qasm_code
            +:+ oracle_def
            +:+ str_drop (oracle_pos + String.length oracle_include) qasm_code)
  end.

End Utils.

Module CyclesFacts.
Import Cycles.

Lemma ternary_char_cases c :
  ternary_char c = true → c = "0"%char ∨ c = "1"%char ∨ c = "2"%char.
Proof.
  unfold ternary_char. rewrite !orb_true_iff, !bool_decide_eq_true. tauto.
Qed.

Lemma length_snoc (x : string) (y : ascii) :
  String.length (x +:+ String y "") = S (String.length x).
Proof. induction x as [|a x IH]; simpl; [done | by rewrite IH]. Qed.

Lemma is_ternary_snoc (x : string) (y : ascii) :
  is_ternary (x +:+ String y "") = is_ternary x && ternary_char y.
Proof.
  induction x as [|a x IH]; simpl.
  - by rewrite andb_true_r.
  - rewrite IH. by rewrite andb_assoc.
Qed.

Lemma snoc_inj (x x' : string) (y y' : ascii) :
  x +:+ String y "" = x' +:+ String y' "" → x = x' ∧ y = y'.
Proof.
  revert x'. induction x as [|a x IH]; intros [|a' x']; simpl; intros H.
  - by inversion H.
  - inversion H as [[H1 H2]]. destruct x'; discriminate.
  - inversion H as [[H1 H2]]. destruct x; discriminate.
  - inversion H as [[H1 H2]]. apply IH in H2 as [-> ->]. done.
Qed.

Lemma snoc_exists (x : string) :
  x ≠ "" → ∃ x' y, x = x' +:+ String y "".
Proof.
  induction x as [|a x IH]; [done|]. intros _.
  destruct x as [|b x].
  - by exists "", a.
  - destruct IH as (x' & y & Hx); [done|].
    exists (String a x'), y. simpl. by rewrite Hx.
Qed.

Definition snocs (x : string) : list string :=
  [x +:+ "0"; x +:+ "1"; x +:+ "2"].

Lemma generate_S (n : nat) :
  generate_ternary_numbers (S n) = generate_ternary_numbers n ≫= snocs.
Proof. reflexivity. Qed.

Lemma elem_of_snocs (x x' : string) :
  x ∈ snocs x' ↔ ∃ y, ternary_char y = true ∧ x = x' +:+ String y "".
Proof.
  unfold snocs. rewrite !elem_of_cons, elem_of_nil. split.
  - intros [->|[->|[->|[]]]]; eexists; (split; [|reflexivity]); done.
  - intros (y & Hy & ->).
    apply ternary_char_cases in Hy as [->|[->| ->]]; tauto.
Qed.

Lemma elem_of_generate (n : nat) (x : string) :
  x ∈ generate_ternary_numbers n ↔ ternary_string n x.
Proof.
  revert x. induction n as [|n IH]; intros x.
  - simpl. rewrite list_elem_of_singleton. unfold ternary_string. split.
    + by intros ->.
    + intros [Hl _]. by destruct x.
  - rewrite generate_S, list_elem_of_bind. split.
    + intros (x' & Hx & Hx'). apply IH in Hx' as [Hl Ht].
      apply elem_of_snocs in Hx as (y & Hy & ->).
      split; [by rewrite length_snoc, Hl|].
      by rewrite is_ternary_snoc, Ht, Hy.
    + intros [Hl Ht].
      destruct (snoc_exists x) as (x' & y & ->); [by destruct x|].
      rewrite length_snoc in Hl. rewrite is_ternary_snoc in Ht.
      apply andb_true_iff in Ht as [Ht Hy].
      exists x'. split; [|apply IH; split; [lia | done]].
      apply elem_of_snocs. eauto.
Qed.

Lemma NoDup_generate (n : nat) : NoDup (generate_ternary_numbers n).
Proof.
  induction n as [|n IH]; [apply NoDup_singleton|].
  rewrite generate_S. apply NoDup_bind; [| |done].
  - intros x1 x2 z _ _ H1 H2.
    apply elem_of_snocs in H1 as (y1 & _ & ->).
    apply elem_of_snocs in H2 as (y2 & _ & H2).
    by apply snoc_inj in H2 as [-> _].
  - intros x _. unfold snocs.
    assert (∀ a b : ascii, a ≠ b → x +:+ String a "" ≠ x +:+ String b "") as Hne.
    { intros a b Hab H. by apply snoc_inj in H as [_ ?]. }
    repeat (apply NoDup_cons_2;
      [rewrite ?elem_of_cons, elem_of_nil;
       intros H; repeat destruct H as [H|H]; try done;
       by apply Hne in H|]).
    apply NoDup_nil_2.
Qed.

Lemma length_generate (n : nat) :
  length (generate_ternary_numbers n) = (3 ^ n)%nat.
Proof.
  induction n as [|n IH]; [done|].
  rewrite generate_S.
  assert (∀ l : list string, length (l ≫= snocs) = (3 * length l)%nat) as H.
  { induction l as [|a l IHl]; [done|].
    rewrite bind_cons, length_app, IHl. simpl. lia. }
  rewrite H, IH. simpl. lia.
Qed.

(** *** The digit-wise sum on ternary strings *)

Definition addc (a b : ascii) : ascii :=
  match int_of_char a, int_of_char b with
  | Some x, Some y => str_of_digit ((x + y) mod 3)
  | _, _ => a
  end.

Ltac ternary_cases H :=
  apply ternary_char_cases in H as [->|[->| ->]].

Lemma addc_ternary a b :
  ternary_char a = true → ternary_char b = true →
  ternary_char (addc a b) = true.
Proof. intros Ha Hb. ternary_cases Ha; ternary_cases Hb; reflexivity. Qed.

Lemma addc_cube a b :
  ternary_char a = true → ternary_char b = true →
  addc (addc (addc a b) b) b = a.
Proof. intros Ha Hb. ternary_cases Ha; ternary_cases Hb; reflexivity. Qed.

Lemma addc_zero a : ternary_char a = true → addc a "0" = a.
Proof. intros Ha. ternary_cases Ha; reflexivity. Qed.

Lemma addc_fixed a b :
  ternary_char a = true → ternary_char b = true →
  addc a b = a → b = "0"%char.
Proof.
  intros Ha Hb. ternary_cases Ha; ternary_cases Hb; (done || discriminate).
Qed.

Lemma add_ternary_cons a b x s :
  ternary_char a = true → ternary_char b = true →
  add_ternary (String a x) (String b s) = String (addc a b) <$> add_ternary x s.
Proof.
  intros Ha Hb. ternary_cases Ha; ternary_cases Hb; simpl;
    by destruct (add_ternary x s).
Qed.

(** On ternary strings of one length the sum is defined. *)
Lemma add_ternary_valid n x s :
  ternary_string n x → ternary_string n s →
  ∃ y, add_ternary x s = Some y ∧ ternary_string n y.
Proof.
  revert n s. induction x as [|a x IH]; intros n s [Hlx Htx] [Hls Hts].
  - exists "". by subst n.
  - destruct s as [|b s]; [simpl in *; congruence|].
    simpl in Htx, Hts, Hlx, Hls.
    apply andb_true_iff in Htx as [Ha Htx].
    apply andb_true_iff in Hts as [Hb Hts].
    destruct (IH (String.length x) s) as (y & Hy & Hly & Hty);
      [done | split; [lia | done] |].
    exists (String (addc a b) y). rewrite add_ternary_cons, Hy by done.
    split; [done|]. split; simpl; [lia|].
    by rewrite addc_ternary, Hty.
Qed.

Lemma add_ternary_cube n x s y1 y2 y3 :
  ternary_string n x → ternary_string n s →
  add_ternary x s = Some y1 → add_ternary y1 s = Some y2 →
  add_ternary y2 s = Some y3 → y3 = x.
Proof.
  revert n s y1 y2 y3.
  induction x as [|a x IH]; intros n s y1 y2 y3 [Hlx Htx] [Hls Hts].
  - simpl. intros [= <-]. simpl. intros [= <-]. simpl. by intros [= <-].
  - destruct s as [|b s]; [simpl in *; congruence|].
    simpl in Htx, Hts, Hlx, Hls.
    apply andb_true_iff in Htx as [Ha Htx].
    apply andb_true_iff in Hts as [Hb Hts].
    rewrite add_ternary_cons by done.
    destruct (add_ternary x s) as [z1|] eqn:H1; [|done]. intros [= <-].
    rewrite add_ternary_cons by auto using addc_ternary.
    destruct (add_ternary z1 s) as [z2|] eqn:H2; [|done]. intros [= <-].
    rewrite add_ternary_cons by auto using addc_ternary.
    destruct (add_ternary z2 s) as [z3|] eqn:H3; [|done]. intros [= <-].
    rewrite addc_cube by done. f_equal.
    eapply (IH (String.length x) s); eauto; split; (lia || done).
Qed.

Lemma add_ternary_zeros n x :
  ternary_string n x → add_ternary x (zeros n) = Some x.
Proof.
  revert n. induction x as [|a x IH]; intros n [Hl Ht]; [done|].
  simpl in Hl, Ht. subst n. apply andb_true_iff in Ht as [Ha Ht].
  change (zeros (S (String.length x))) with (String "0" (zeros (String.length x))).
  rewrite add_ternary_cons, IH, addc_zero by done. done.
Qed.

Lemma add_ternary_fixed n x s :
  ternary_string n x → ternary_string n s →
  add_ternary x s = Some x → s = zeros n.
Proof.
  revert n s. induction x as [|a x IH]; intros n s [Hlx Htx] [Hls Hts].
  - subst n. by destruct s.
  - destruct s as [|b s]; [simpl in *; congruence|].
    simpl in Htx, Hts, Hlx, Hls.
    apply andb_true_iff in Htx as [Ha Htx].
    apply andb_true_iff in Hts as [Hb Hts].
    rewrite add_ternary_cons by done.
    destruct (add_ternary x s) as [z|] eqn:H1; [|done]. intros [= Hc ->].
    apply addc_fixed in Hc as ->; [|done..].
    subst n. simpl. f_equal. apply IH; [done | split; [lia | done] | done].
Qed.

(** *** Orbits of [t -> t + s] and the two loops *)

Section Orbits.
Variable n : nat.
Variable s : string.
Hypothesis Hs : ternary_string n s.

Definition step (x : string) : string := default x (add_ternary x s).

Lemma step_spec x :
  ternary_string n x →
  add_ternary x s = Some (step x) ∧ ternary_string n (step x).
Proof.
  intros Hx. destruct (add_ternary_valid n x s) as (y & Hy & Hv); [done..|].
  unfold step. by rewrite Hy.
Qed.

Lemma step_valid x : ternary_string n x → ternary_string n (step x).
Proof. intros Hx. by apply step_spec. Qed.

Lemma step_cube x : ternary_string n x → step (step (step x)) = x.
Proof.
  intros Hx.
  pose proof (step_valid x Hx) as H1. pose proof (step_valid _ H1) as H2.
  eapply (add_ternary_cube n x s); eauto; by apply step_spec.
Qed.

Lemma step_fixed x : ternary_string n x → step x = x → s = zeros n.
Proof.
  intros Hx Hfix. apply (add_ternary_fixed n x s); [done..|].
  rewrite <-Hfix at 2. by apply step_spec.
Qed.

Lemma step_zeros x : s = zeros n → ternary_string n x → step x = x.
Proof. intros Hz Hx. unfold step. by rewrite Hz, add_ternary_zeros. Qed.

Definition orbit (x : string) : list string :=
  if decide (s = zeros n) then [x] else [x; step x; step (step x)].

Ltac seen_cases :=
  rewrite ?elem_of_union, ?elem_of_singleton, ?elem_of_empty;
  intuition congruence.

Lemma find_cycle_orbit fuel x :
  ternary_string n x → (4 ≤ fuel)%nat → find_cycle fuel x s = Some (orbit x).
Proof.
  intros Hx Hfuel. unfold orbit.
  pose proof (step_valid x Hx) as H1. pose proof (step_valid _ H1) as H2.
  pose proof (step_cube x Hx) as H3.
  destruct fuel as [|[|[|[|fuel]]]]; try lia. clear Hfuel.
  unfold find_cycle. cbn [find_cycle_loop].
  rewrite decide_False by seen_cases.
  rewrite (proj1 (step_spec x Hx)). cbn [mbind option_bind].
  destruct (decide (s = zeros n)) as [Hz|Hz].
  - rewrite (step_zeros x) by done. by rewrite decide_True by seen_cases.
  - assert (step x ≠ x) as Hne1 by (intros ?; by apply Hz, (step_fixed x)).
    assert (step (step x) ≠ step x) as Hne2
      by (intros ?; by apply Hz, (step_fixed (step x))).
    assert (step (step x) ≠ x) as Hne3.
    { intros Heq. apply Hne1. rewrite <-H3 at 2. by rewrite Heq. }
    rewrite decide_False by seen_cases.
    rewrite (proj1 (step_spec _ H1)). cbn [mbind option_bind].
    rewrite decide_False by seen_cases.
    rewrite (proj1 (step_spec _ H2)). cbn [mbind option_bind].
    rewrite H3. by rewrite decide_True by seen_cases.
Qed.

Lemma orbit_valid x :
  ternary_string n x → Forall (ternary_string n) (orbit x).
Proof.
  intros Hx. unfold orbit.
  case_decide; repeat (apply Forall_cons_2; [auto using step_valid|]);
    apply Forall_nil_2.
Qed.

Lemma orbit_closed x y :
  ternary_string n x → y ∈ orbit x → step y ∈ orbit x.
Proof.
  intros Hx. unfold orbit. case_decide as Hz.
  - intros ->%list_elem_of_singleton. rewrite (step_zeros x) by done.
    by left.
  - rewrite !elem_of_cons, elem_of_nil.
    intros [->|[->|[->|[]]]]; rewrite ?step_cube by done; tauto.
Qed.

Lemma orbit_start x y :
  ternary_string n x → y ∈ orbit x →
  x = y ∨ x = step y ∨ x = step (step y).
Proof.
  intros Hx. unfold orbit. case_decide as Hz.
  - intros ->%list_elem_of_singleton. by left.
  - rewrite !elem_of_cons, elem_of_nil.
    intros [->|[->|[->|[]]]]; rewrite ?step_cube by done; tauto.
Qed.

Lemma NoDup_orbit x : ternary_string n x → NoDup (orbit x).
Proof.
  intros Hx. unfold orbit. case_decide as Hz; [apply NoDup_singleton|].
  pose proof (step_valid x Hx) as H1.
  pose proof (step_cube x Hx) as H3.
  assert (step x ≠ x) as Hne1 by (intros ?; by apply Hz, (step_fixed x)).
  assert (step (step x) ≠ step x) as Hne2
    by (intros ?; by apply Hz, (step_fixed (step x))).
  assert (step (step x) ≠ x) as Hne3.
  { intros Heq. apply Hne1. rewrite <-H3 at 2. by rewrite Heq. }
  repeat (apply NoDup_cons_2;
    [rewrite ?elem_of_cons, elem_of_nil; intuition congruence|]).
  apply NoDup_nil_2.
Qed.

Lemma length_orbit x :
  length (orbit x) = if decide (s = zeros n) then 1%nat else 3%nat.
Proof. unfold orbit. by case_decide. Qed.

(** The invariant of the loop over [ternary_numbers]: the cycles found so
    far are orbits, disjoint from one another, and [seen] is their union. *)
Definition cycles_inv (cycles : list (list string)) : Prop :=
  NoDup (concat cycles)
  ∧ Forall (ternary_string n) (concat cycles)
  ∧ (∀ y, y ∈ concat cycles → step y ∈ concat cycles)
  ∧ Forall (λ c, ∃ x, ternary_string n x ∧ c = orbit x) cycles.

Lemma cycles_inv_nil : cycles_inv [].
Proof.
  split_and!; simpl; [apply NoDup_nil_2 | done | by intros y ?%elem_of_nil | done].
Qed.

Lemma cycles_inv_snoc cycles x :
  cycles_inv cycles → ternary_string n x → x ∉ concat cycles →
  cycles_inv (cycles ++ [orbit x]).
Proof.
  intros (Hnd & Hv & Hcl & Horb) Hx Hnew.
  unfold cycles_inv. rewrite concat_app. simpl. rewrite app_nil_r.
  split_and!.
  - apply list.NoDup_app. split_and!; [done | | by apply NoDup_orbit].
    intros y Hy Hy'. apply Hnew.
    destruct (orbit_start x y Hx Hy') as [->|[->| ->]]; auto.
  - apply list.Forall_app. split; [done | by apply orbit_valid].
  - intros y [Hy|Hy]%elem_of_app; apply elem_of_app;
      [left; auto | right; by apply orbit_closed].
  - apply list.Forall_app. split; [done|]. constructor; [eauto | done].
Qed.

Lemma elem_of_orbit_start x : x ∈ orbit x.
Proof. unfold orbit. case_decide; by left. Qed.

Lemma cycles_loop_spec fuel numbers cycles seen :
  (4 ≤ fuel)%nat →
  Forall (ternary_string n) numbers →
  cycles_inv cycles →
  seen = list_to_set (concat cycles) →
  ∃ cycles',
    cycles_loop fuel s numbers cycles seen = Some cycles'
    ∧ cycles_inv cycles'
    ∧ (∀ y, y ∈ concat cycles → y ∈ concat cycles')
    ∧ (∀ x, x ∈ numbers → x ∈ concat cycles').
Proof.
  intros Hfuel. revert cycles seen.
  induction numbers as [|x numbers IH]; intros cycles seen Hnum Hinv ->.
  - exists cycles. split_and!; [done | done | done | by intros x ?%elem_of_nil].
  - apply list.Forall_cons in Hnum as [Hx Hnum]. cbn [cycles_loop].
    case_decide as Hseen.
    + apply elem_of_list_to_set in Hseen.
      destruct (IH cycles _ Hnum Hinv eq_refl) as (c' & Hrun & Hinv' & Hmono & Hall).
      exists c'. split_and!; [done..|].
      intros y [->|Hy]%elem_of_cons; auto.
    + rewrite elem_of_list_to_set in Hseen.
      rewrite find_cycle_orbit by done. cbn [mbind option_bind].
      destruct (IH (cycles ++ [orbit x])
                  (list_to_set (concat cycles) ∪ list_to_set (orbit x)))
        as (c' & Hrun & Hinv' & Hmono & Hall).
      * done.
      * by apply cycles_inv_snoc.
      * rewrite concat_app, list_to_set_app_L. simpl. by rewrite app_nil_r.
      * exists c'. split_and!; [done | done | |].
        -- intros y Hy. apply Hmono. rewrite concat_app, elem_of_app. by left.
        -- intros y [->|Hy]%elem_of_cons; [|by auto].
           apply Hmono. rewrite concat_app, elem_of_app. right. simpl.
           rewrite app_nil_r. apply elem_of_orbit_start.
Qed.

End Orbits.

Lemma find_ternary_cycles_spec (n fuel : nat) (s : string) :
  ternary_string n s → (4 ≤ fuel)%nat →
  ∃ cycles,
    find_ternary_cycles fuel n s = Some cycles
    ∧ cycles_inv n s cycles
    ∧ (∀ x, ternary_string n x → x ∈ concat cycles).
Proof.
  intros Hs Hfuel. unfold find_ternary_cycles.
  destruct (cycles_loop_spec n s Hs fuel (generate_ternary_numbers n) [] ∅)
    as (cycles & Hrun & Hinv & _ & Hall).
  - done.
  - apply list.Forall_forall. intros x. apply elem_of_generate.
  - apply cycles_inv_nil.
  - done.
  - exists cycles. split_and!; [done..|].
    intros x Hx. by apply Hall, elem_of_generate.
Qed.

Lemma length_concat_uniform {A} (k : nat) (ls : list (list A)) :
  Forall (λ l, length l = k) ls → length (concat ls) = (k * length ls)%nat.
Proof.
  induction 1 as [|l ls Hl _ IH]; simpl; [lia|].
  rewrite length_app, IH, Hl. lia.
Qed.

Lemma find_ternary_cycles_elements (n fuel : nat) (s : string) :
  ternary_string n s → (4 ≤ fuel)%nat →
  ∃ cycles,
    find_ternary_cycles fuel n s = Some cycles
    ∧ concat cycles ≡ₚ generate_ternary_numbers n
    ∧ NoDup (concat cycles)
    ∧ (∀ x, x ∈ concat cycles ↔ ternary_string n x)
    ∧ length (concat cycles) = (3 ^ n)%nat
    ∧ Forall (λ c, length c = if decide (s = zeros n) then 1%nat else 3%nat)
        cycles.
Proof.
  intros Hs Hfuel.
  destruct (find_ternary_cycles_spec n fuel s Hs Hfuel)
    as (cycles & Hrun & (Hnd & Hv & _ & Horb) & Hall).
  assert (∀ x, x ∈ concat cycles ↔ ternary_string n x) as Hiff.
  { intros x. split; [|by auto]. rewrite list.Forall_forall in Hv. apply Hv. }
  assert (concat cycles ≡ₚ generate_ternary_numbers n) as Hperm.
  { apply NoDup_Permutation; [done | apply NoDup_generate |].
    intros x. by rewrite Hiff, elem_of_generate. }
  exists cycles. split_and!; try done.
  - by rewrite Hperm, length_generate.
  - eapply list.Forall_impl; [exact Horb|]. intros c (x & _ & ->).
    apply length_orbit.
Qed.

End CyclesFacts.

Module CyclesTheorems.
Import Cycles CyclesFacts.

(** C4: for every length [n] (in particular for 1 <= n <= 6) and every
    ternary secret [s] of that length, [find_ternary_cycles] returns, with
    four units of fuel or more for the inner loop, a list of cycles whose
    elements are exactly the ternary strings of length [n], each of them once:
    the concatenation of the cycles is a permutation of the list of all
    3^n strings and has no duplicate.  For the all-zero secret there are
    3^n cycles and each of them is a singleton. *)
Theorem find_ternary_cycles_partition (n fuel : nat) (s : string) :
  ternary_string n s → (4 ≤ fuel)%nat →
  ∃ cycles,
    find_ternary_cycles fuel n s = Some cycles
    ∧ concat cycles ≡ₚ generate_ternary_numbers n
    ∧ NoDup (concat cycles)
    ∧ (∀ x, x ∈ concat cycles ↔ ternary_string n x)
    ∧ length (concat cycles) = (3 ^ n)%nat
    ∧ (s = zeros n →
       length cycles = (3 ^ n)%nat ∧ Forall (λ c, length c = 1%nat) cycles).
Proof.
  intros Hs Hfuel.
  destruct (find_ternary_cycles_elements n fuel s Hs Hfuel)
    as (cycles & Hrun & Hperm & Hnd & Hiff & Hlen & Hsize).
  exists cycles. split_and!; try done.
  intros Hz. rewrite decide_True in Hsize by done. split; [|done].
  rewrite (length_concat_uniform 1) in Hlen by done. lia.
Qed.

Lemma find_ternary_cycles_partition_witness :
  ternary_string 2 "10" ∧ (4 ≤ 4)%nat ∧
  ∃ cycles,
    find_ternary_cycles 4 2 "10" = Some cycles
    ∧ concat cycles ≡ₚ generate_ternary_numbers 2
    ∧ NoDup (concat cycles)
    ∧ (∀ x, x ∈ concat cycles ↔ ternary_string 2 x)
    ∧ length (concat cycles) = (3 ^ 2)%nat
    ∧ ("10" = zeros 2 →
       length cycles = (3 ^ 2)%nat ∧ Forall (λ c, length c = 1%nat) cycles).
Proof.
  assert (ternary_string 2 "10") as H1 by (split; reflexivity).
  assert (4 ≤ 4)%nat as H2 by lia.
  split; [exact H1|]. split; [exact H2|].
  exact (find_ternary_cycles_partition 2 4 "10" H1 H2).
Defined.

(** C10: for every n >= 1 and every non-zero ternary secret [s] of length
    [n], every cycle returned by [find_ternary_cycles] has exactly three
    elements and there are exactly 3^(n-1) cycles, the number [3 ** n / 3]
    that [simon_ternary_algorithm] uses for the size of the ancilla
    register. *)
Theorem find_ternary_cycles_nonzero (n fuel : nat) (s : string) :
  (1 ≤ n)%nat → ternary_string n s → s ≠ zeros n → (4 ≤ fuel)%nat →
  ∃ cycles,
    find_ternary_cycles fuel n s = Some cycles
    ∧ Forall (λ c, length c = 3%nat) cycles
    ∧ length cycles = (3 ^ (n - 1))%nat
    ∧ Z.of_nat (length cycles) = 3 ^ Z.of_nat n / 3.
Proof.
  intros Hn Hs Hnz Hfuel.
  destruct (find_ternary_cycles_elements n fuel s Hs Hfuel)
    as (cycles & Hrun & _ & _ & _ & Hlen & H3).
  rewrite decide_False in H3 by done.
  rewrite (length_concat_uniform 3) in Hlen by done.
  destruct n as [|n]; [lia|].
  replace (S n - 1)%nat with n by lia.
  assert (length cycles = (3 ^ n)%nat) as Hc.
  { rewrite Nat.pow_succ_r' in Hlen. lia. }
  exists cycles. split_and!; [done | done | done |].
  rewrite Hc, Nat2Z.inj_succ, Z.pow_succ_r by lia.
  rewrite Nat2Z.inj_pow. change (Z.of_nat 3) with 3.
  rewrite Z.mul_comm, Z.div_mul by lia. done.
Qed.

Lemma find_ternary_cycles_nonzero_witness :
  (1 ≤ 2)%nat ∧ ternary_string 2 "10" ∧ "10" ≠ zeros 2 ∧ (4 ≤ 4)%nat ∧
  ∃ cycles,
    find_ternary_cycles 4 2 "10" = Some cycles
    ∧ Forall (λ c, length c = 3%nat) cycles
    ∧ length cycles = (3 ^ (2 - 1))%nat
    ∧ Z.of_nat (length cycles) = 3 ^ Z.of_nat 2 / 3.
Proof.
  assert (1 ≤ 2)%nat as H0 by lia.
  assert (ternary_string 2 "10") as H1 by (split; reflexivity).
  assert ("10" ≠ zeros 2) as H2 by discriminate.
  assert (4 ≤ 4)%nat as H3 by lia.
  split_and!; [exact H0 | exact H1 | exact H2 | exact H3 |].
  exact (find_ternary_cycles_nonzero 2 4 "10" H0 H1 H2 H3).
Defined.

End CyclesTheorems.

(** ** Arithmetic modulo [p] and finite sums *)
Module ModArith.

Definition cong (p a b : Z) : Prop := a mod p = b mod p.

Lemma cong_iff p a b : cong p a b ↔ a mod p = b mod p.
Proof. reflexivity. Qed.

Global Instance cong_equiv p : Equivalence (cong p).
Proof.
  unfold cong. split;
    [intros x; reflexivity | intros x y H; by symmetry
    | intros x y z H1 H2; congruence].
Qed.

Global Instance cong_add p : Proper (cong p ==> cong p ==> cong p) Z.add.
Proof.
  unfold cong. intros a b H c d H'.
  by rewrite Zplus_mod, H, H', <-Zplus_mod.
Qed.

Global Instance cong_mul p : Proper (cong p ==> cong p ==> cong p) Z.mul.
Proof.
  unfold cong. intros a b H c d H'.
  by rewrite Zmult_mod, H, H', <-Zmult_mod.
Qed.

Global Instance cong_opp p : Proper (cong p ==> cong p) Z.opp.
Proof.
  intros a b H. replace (- a) with (-1 * a) by lia.
  replace (- b) with (-1 * b) by lia. by apply cong_mul.
Qed.

Global Instance cong_sub p : Proper (cong p ==> cong p ==> cong p) Z.sub.
Proof.
  intros a b H c d H'. rewrite <-!Z.add_opp_r.
  by apply cong_add; [|apply cong_opp].
Qed.

Lemma cong_mod p a : cong p (a mod p) a.
Proof. unfold cong. apply Zmod_mod. Qed.

Lemma cong_1_0 p : 1 < p → ¬ cong p 1 0.
Proof.
  unfold cong. intros Hp. rewrite Z.mod_1_l, Z.mod_0_l by lia. lia.
Qed.

Lemma cong_of_eq p a b : a = b → cong p a b.
Proof. by intros ->. Qed.

Lemma cong_small p a b :
  0 ≤ a < p → 0 ≤ b < p → cong p a b → a = b.
Proof.
  unfold cong. intros Ha Hb. by rewrite !Z.mod_small by lia.
Qed.

Global Typeclasses Opaque cong.
Global Opaque cong.

(** [sumn n f] is the sum of [f 0], ..., [f (n - 1)]. *)
Fixpoint sumn (n : nat) (f : nat → Z) : Z :=
  match n with
  | O => 0
  | S k => sumn k f + f k
  end.

Definition delta (a b : nat) : Z := if decide (a = b) then 1 else 0.

Lemma sumn_ext n f g :
  (∀ t, (t < n)%nat → f t = g t) → sumn n f = sumn n g.
Proof.
  induction n as [|n IH]; intros H; simpl; [done|].
  rewrite IH, H by (intros; try apply H; lia). done.
Qed.

Lemma sumn_cong p n f g :
  (∀ t, (t < n)%nat → cong p (f t) (g t)) → cong p (sumn n f) (sumn n g).
Proof.
  induction n as [|n IH]; intros H; simpl; [done|].
  rewrite IH, H by (intros; try apply H; lia). done.
Qed.

Lemma sumn_zero n f : (∀ t, (t < n)%nat → f t = 0) → sumn n f = 0.
Proof.
  induction n as [|n IH]; intros H; simpl; [done|].
  rewrite IH, H by (intros; try apply H; lia). done.
Qed.

Lemma sumn_cong_zero p n f :
  (∀ t, (t < n)%nat → cong p (f t) 0) → cong p (sumn n f) 0.
Proof.
  intros H. rewrite (sumn_cong p n f (λ _, 0)) by done.
  by rewrite sumn_zero.
Qed.

Lemma sumn_add n f g : sumn n (λ t, f t + g t) = sumn n f + sumn n g.
Proof. induction n as [|n IH]; simpl; [done|]. rewrite IH. lia. Qed.

Lemma sumn_scale_l n c f : sumn n (λ t, c * f t) = c * sumn n f.
Proof. induction n as [|n IH]; simpl; [lia|]. rewrite IH. lia. Qed.

Lemma sumn_scale_r n c f : sumn n (λ t, f t * c) = sumn n f * c.
Proof. induction n as [|n IH]; simpl; [lia|]. rewrite IH. lia. Qed.

Lemma sumn_delta n a g :
  sumn n (λ t, delta t a * g t) = if decide (a < n)%nat then g a else 0.
Proof.
  induction n as [|n IH]; cbn [sumn].
  - case_decide; [lia | done].
  - rewrite IH. unfold delta. repeat case_decide; subst; lia.
Qed.

Lemma sumn_delta_lt n a g :
  (a < n)%nat → sumn n (λ t, delta t a * g t) = g a.
Proof. intros H. by rewrite sumn_delta, decide_True. Qed.

Lemma sumn_swap n m (f : nat → nat → Z) :
  sumn n (λ i, sumn m (λ j, f i j)) = sumn m (λ j, sumn n (λ i, f i j)).
Proof.
  induction n as [|n IH]; simpl.
  - symmetry. by apply sumn_zero.
  - rewrite IH, <-sumn_add. done.
Qed.

Lemma sumn_shift n f : sumn (S n) f = f 0%nat + sumn n (λ j, f (S j)).
Proof.
  induction n as [|n IH]; [simpl; lia|].
  change (sumn (S (S n)) f) with (sumn (S n) f + f (S n)).
  rewrite IH. simpl. lia.
Qed.

End ModArith.

(** ** Row reduction modulo [p], on matrices seen as functions *)
Module RowReduction.
Import ModArith.

Definition matfun := nat → nat → Z.

(** Every row of [A] is a combination modulo [p] of the rows of [B]. *)
Definition rowspan (p : Z) (n m : nat) (A B : matfun) : Prop :=
  ∃ F : matfun, ∀ i j, (i < n)%nat → (j < m)%nat →
    cong p (A i j) (sumn n (λ t, F i t * B t j)).

Lemma rowspan_of_cong p n m A B :
  (∀ i j, (i < n)%nat → (j < m)%nat → cong p (A i j) (B i j)) →
  rowspan p n m A B.
Proof.
  intros H. exists (λ i t, delta t i). intros i j Hi Hj.
  rewrite sumn_delta_lt by done. by apply H.
Qed.

Lemma rowspan_refl p n m A : rowspan p n m A A.
Proof. by apply rowspan_of_cong. Qed.

Lemma rowspan_trans p n m A B C :
  rowspan p n m A B → rowspan p n m B C → rowspan p n m A C.
Proof.
  intros [F HF] [G HG].
  exists (λ i u, sumn n (λ t, F i t * G t u)). intros i j Hi Hj.
  rewrite (HF i j Hi Hj).
  rewrite (sumn_cong p n _ (λ t, sumn n (λ u, F i t * G t u * C u j))).
  - rewrite sumn_swap. apply cong_of_eq, sumn_ext. intros u Hu.
    by rewrite sumn_scale_r.
  - intros t Ht. rewrite (HG t j Ht Hj), <-sumn_scale_l.
    apply cong_of_eq, sumn_ext. intros u Hu. lia.
Qed.

(** The shape reached after the columns before [c] have been dealt with:
    [P] lists the pivot columns, pivot [i] sits in row [i]. *)
Record echelon (p : Z) (n : nat) (X : matfun) (P : list nat) (c : nat)
    : Prop := {
  ech_rank : (length P ≤ n)%nat;
  ech_sorted : ∀ i j pi pj,
    P !! i = Some pi → P !! j = Some pj → (i < j)%nat → (pi < pj)%nat;
  ech_bound : ∀ i pi, P !! i = Some pi → (pi < c)%nat;
  ech_pivot : ∀ i pi, P !! i = Some pi → cong p (X i pi) 1;
  ech_column : ∀ i pi j,
    P !! i = Some pi → (j < n)%nat → j ≠ i → cong p (X j pi) 0;
  ech_below : ∀ j c',
    (length P ≤ j)%nat → (j < n)%nat → (c' < c)%nat → cong p (X j c') 0;
  ech_left : ∀ i pi c',
    P !! i = Some pi → (c' < pi)%nat → cong p (X i c') 0
}.

Lemma echelon_nil p n X : echelon p n X [] 0.
Proof.
  split; simpl; intros; try lia;
    match goal with H : [] !! _ = Some _ |- _ => by rewrite lookup_nil in H end.
Qed.

Lemma echelon_ext p n m X X' P c :
  (c ≤ m)%nat →
  (∀ i j, (i < n)%nat → (j < m)%nat → cong p (X' i j) (X i j)) →
  echelon p n X P c → echelon p n X' P c.
Proof.
  intros Hc Hext [H1 H2 H3 H4 H5 H6 H7].
  assert (∀ i pi, P !! i = Some pi → (i < n)%nat) as Hin.
  { intros i pi Hi%lookup_lt_Some. lia. }
  split; try done.
  - intros i pi Hi. rewrite Hext; eauto. specialize (H3 _ _ Hi). lia.
  - intros i pi j Hi Hj Hne. rewrite Hext; eauto.
    specialize (H3 _ _ Hi). lia.
  - intros j c' ? ? ?. rewrite Hext; eauto. lia.
  - intros i pi c' Hi ?. rewrite Hext; eauto.
    specialize (H3 _ _ Hi). lia.
Qed.

(** A column without pivot is skipped. *)
Lemma echelon_skip p n X P c :
  echelon p n X P c →
  (∀ j, (length P ≤ j)%nat → (j < n)%nat → cong p (X j c) 0) →
  echelon p n X P (S c).
Proof.
  intros [H1 H2 H3 H4 H5 H6 H7] Hz. split; try done.
  - intros i pi Hi. specialize (H3 _ _ Hi). lia.
  - intros j c' ? ? Hc'.
    destruct (decide (c' = c)) as [->|]; [by apply Hz|]. apply H6; lia.
Qed.

Definition swapidx (r pr i : nat) : nat :=
  if decide (i = r) then pr else if decide (i = pr) then r else i.

(** One elimination step on column [c] with pivot row [pr], brought to row
    [r]: the pivot row is scaled by [u] so that its pivot is 1 and the
    column is cleared in every other row. *)
Record gauss_step (p : Z) (n m : nat) (X X' : matfun) (r c pr : nat) (u : Z)
    : Prop := {
  gs_range : (r ≤ pr < n)%nat;
  gs_unit : cong p (u * X pr c) 1;
  gs_pivot_row : ∀ j, (j < m)%nat → cong p (X' r j) (u * X pr j);
  gs_other : ∀ i j, (i < n)%nat → i ≠ r → (j < m)%nat →
    cong p (X' i j)
      (X (swapidx r pr i) j - X (swapidx r pr i) c * X' r j)
}.

Lemma lookup_snoc_inv {A} (l : list A) (x y : A) (i : nat) :
  (l ++ [x]) !! i = Some y →
  (l !! i = Some y ∧ (i < length l)%nat) ∨ (i = length l ∧ y = x).
Proof.
  intros H. destruct (decide (i < length l)%nat) as [Hlt|Hge].
  - left. by rewrite lookup_app_l in H.
  - right. rewrite lookup_app_r in H by lia.
    destruct (i - length l)%nat as [|k] eqn:Hk; simpl in H; [|done].
    split; [lia | congruence].
Qed.

Lemma echelon_step p n m X X' P r c pr u :
  echelon p n X P c → length P = r → (c < m)%nat →
  gauss_step p n m X X' r c pr u →
  echelon p n X' (P ++ [c]) (S c).
Proof.
  intros [H1 H2 H3 H4 H5 H6 H7] Hr Hc [[Hrpr Hprn] Hu Hrow Hoth].
  assert (∀ i pi, P !! i = Some pi → (i < r)%nat) as Hlt.
  { intros i pi Hi%lookup_lt_Some. lia. }
  assert (∀ j, (j < c)%nat → cong p (X' r j) 0) as Hrow0.
  { intros j Hj. rewrite Hrow by lia. rewrite (H6 pr j) by lia. apply cong_of_eq. lia. }
  assert (∀ i pi, P !! i = Some pi → cong p (X' r pi) 0) as HrowP.
  { intros i pi Hi. pose proof (H3 _ _ Hi). pose proof (Hlt _ _ Hi).
    rewrite Hrow by lia. rewrite (H5 i pi pr) by (done || lia).
    apply cong_of_eq. lia. }
  assert (cong p (X' r c) 1) as Hpiv.
  { by rewrite Hrow. }
  assert (∀ i, (i < r)%nat → swapidx r pr i = i) as Hsw.
  { intros i Hi. unfold swapidx. by rewrite !decide_False by lia. }
  assert (∀ i, (r ≤ i)%nat → (i < n)%nat →
            (r ≤ swapidx r pr i)%nat ∧ (swapidx r pr i < n)%nat) as Hsw'.
  { intros i ? ?. unfold swapidx. repeat case_decide; lia. }
  split.
  - rewrite length_app. simpl. lia.
  - intros i j pi pj Hi Hj Hij.
    apply lookup_snoc_inv in Hi as [[Hi ?]|[-> ->]];
      apply lookup_snoc_inv in Hj as [[Hj ?]|[-> ->]]; try lia; eauto.
  - intros i pi [[Hi ?]|[-> ->]]%lookup_snoc_inv; [|lia].
    specialize (H3 _ _ Hi). lia.
  - intros i pi [[Hi ?]|[-> ->]]%lookup_snoc_inv.
    + pose proof (H3 _ _ Hi). pose proof (Hlt _ _ Hi).
      rewrite Hoth by lia. rewrite Hsw by lia.
      rewrite (HrowP i pi Hi), (H4 i pi Hi). apply cong_of_eq. lia.
    + by rewrite Hr.
  - intros i pi j [[Hi ?]|[-> ->]]%lookup_snoc_inv Hj Hne.
    + pose proof (H3 _ _ Hi). pose proof (Hlt _ _ Hi).
      destruct (decide (j = r)) as [->|Hjr]; [by eapply HrowP|].
      rewrite Hoth by lia. rewrite (HrowP i pi Hi).
      rewrite (H5 i pi (swapidx r pr j) Hi).
      * apply cong_of_eq. lia.
      * unfold swapidx. repeat case_decide; lia.
      * unfold swapidx. repeat case_decide; lia.
    + rewrite Hoth by lia. rewrite Hpiv. apply cong_of_eq. lia.
  - intros j c' Hj Hjn Hc'. rewrite length_app in Hj. simpl in Hj.
    rewrite Hoth by lia.
    destruct (decide (c' = c)) as [->|Hne].
    + rewrite Hpiv. apply cong_of_eq. lia.
    + destruct (Hsw' j) as [? ?]; [lia..|].
      rewrite Hrow0 by lia. rewrite (H6 (swapidx r pr j) c') by lia.
      apply cong_of_eq. lia.
  - intros i pi c' [[Hi ?]|[-> ->]]%lookup_snoc_inv Hc'.
    + pose proof (H3 _ _ Hi). pose proof (Hlt _ _ Hi).
      rewrite Hoth by lia. rewrite Hsw by lia.
      rewrite Hrow0 by lia. rewrite (H7 i pi c' Hi) by lia.
      apply cong_of_eq. lia.
    + rewrite Hr. apply Hrow0. lia.
Qed.

Lemma sumn_two_deltas n a b w g :
  (a < n)%nat → (b < n)%nat →
  sumn n (λ q, (delta q a + w * delta q b) * g q) = g a + w * g b.
Proof.
  intros Ha Hb.
  rewrite (sumn_ext n _ (λ q, delta q a * g q + w * (delta q b * g q)))
    by (intros; lia).
  rewrite sumn_add, sumn_scale_l, !sumn_delta_lt by done. done.
Qed.

Lemma rowspan_step p n m X X' r c pr u :
  (c < m)%nat → gauss_step p n m X X' r c pr u → rowspan p n m X X'.
Proof.
  intros Hc [[Hrpr Hprn] Hu Hrow Hoth].
  exists (λ t q, if decide (t = pr) then X pr c * delta q r
                 else delta q (swapidx r pr t) + X t c * delta q r).
  intros t j Ht Hj. cbn beta.
  destruct (decide (t = pr)) as [->|Hne].
  - rewrite (sumn_ext n _ (λ q, X pr c * (delta q r * X' q j)))
      by (intros; lia).
    rewrite sumn_scale_l, sumn_delta_lt by lia.
    rewrite Hrow by done.
    transitivity (u * X pr c * X pr j); [|apply cong_of_eq; lia].
    rewrite Hu. apply cong_of_eq. lia.
  - assert (swapidx r pr t ≠ r ∧ (swapidx r pr t < n)%nat
            ∧ swapidx r pr (swapidx r pr t) = t) as (Hs1 & Hs2 & Hs3).
    { unfold swapidx. repeat case_decide; lia. }
    rewrite sumn_two_deltas by lia.
    rewrite (Hoth (swapidx r pr t) j) by done. rewrite Hs3.
    apply cong_of_eq. lia.
Qed.

End RowReduction.

(** ** The null vector read off the reduced matrix

    [X] is what the reduction has made of [X0 = [M | I]], where the [k]
    columns of [M] are the vectors [v 0], ..., [v (k-1)] of length
    [n = k + 1]. *)
Module NullVector.
Import ModArith RowReduction.

Section Reduced.
Variable p : Z.
Hypothesis Hp : 1 < p.
Variables n k : nat.
Hypothesis Hn : n = S k.
Variables X0 X : matfun.
Variable P : list nat.
Variable cf : nat.
Variable v : nat → nat → Z.

Hypothesis HX0_left :
  ∀ t j, (t < n)%nat → (j < k)%nat → cong p (X0 t j) (v j t).
Hypothesis HX0_right :
  ∀ t w, (t < n)%nat → (w < n)%nat →
    cong p (X0 t (k + w)%nat) (delta t w).
Hypothesis Hspan : rowspan p n (k + n) X0 X.
Hypothesis Hech : echelon p n X P cf.
Hypothesis Hcf : (cf ≤ k + n)%nat.
Hypothesis Hfinal : length P = n ∨ cf = (k + n)%nat.
Hypothesis Hind :
  ∀ x : nat → Z,
    (∀ u, (u < n)%nat → cong p (sumn k (λ j, x j * v j u)) 0) →
    ∀ j, (j < k)%nat → cong p (x j) 0.

Lemma pivot_column_delta c t :
  P !! c = Some c → (t < n)%nat → cong p (X t c) (delta t c).
Proof.
  intros Hc Ht. unfold delta. case_decide as Htc.
  - subst t. by eapply ech_pivot.
  - by eapply ech_column.
Qed.

(** A column among the first [k] that carries no pivot would be a
    combination of the columns before it. *)
Lemma no_free_column c :
  (c < k)%nat →
  (∀ i, (i < c)%nat → P !! i = Some i) →
  (∀ t, (c ≤ t)%nat → (t < n)%nat → cong p (X t c) 0) →
  False.
Proof.
  intros Hc Hpre Hzero.
  set (x := λ j : nat,
    if decide (j = c) then 1
    else if decide (j < c)%nat then - X j c else 0).
  assert (∀ t, (t < n)%nat → cong p (sumn k (λ j, X t j * x j)) 0) as Hrow.
  { intros t Ht.
    rewrite (sumn_cong p k _
      (λ j, delta j c * X t c
            + delta j t * (if decide (j < c)%nat then - X j c else 0))).
    - rewrite sumn_add, !sumn_delta.
      destruct (decide (t < c)%nat) as [Htc|Htc].
      + repeat case_decide; try lia. apply cong_of_eq. lia.
      + repeat case_decide; try lia; rewrite (Hzero t) by lia;
          apply cong_of_eq; lia.
    - intros j Hj. unfold x.
      destruct (decide (j < c)%nat) as [Hlt|Hge].
      + rewrite (pivot_column_delta j t) by auto.
        unfold delta. repeat case_decide; subst; try lia; apply cong_of_eq; lia.
      + unfold delta. repeat case_decide; subst; try lia; apply cong_of_eq; lia. }
  destruct Hspan as [F HF].
  assert (cong p (x c) 0) as Hxc.
  { apply Hind; [|done]. intros u Hu.
    rewrite (sumn_cong p k _ (λ j, sumn n (λ t, F u t * (X t j * x j)))).
    - rewrite sumn_swap. apply sumn_cong_zero. intros t Ht.
      rewrite sumn_scale_l, Hrow by done. apply cong_of_eq. lia.
    - intros j Hj. rewrite <-(HX0_left u j) by done.
      rewrite (HF u j) by lia. rewrite Z.mul_comm, <-sumn_scale_r.
      apply cong_of_eq, sumn_ext. intros; lia. }
  unfold x in Hxc. case_decide; [|done].
  by apply (cong_1_0 p).
Qed.

(** With independent vectors the first [k] columns are the first [k]
    pivot columns. *)
Lemma pivots_first c :
  (c ≤ k)%nat → ∀ i, (i < c)%nat → P !! i = Some i.
Proof.
  induction c as [|c IH]; intros Hc i Hi; [lia|].
  destruct (decide (i = c)) as [->|]; [|apply IH; lia].
  assert (∀ i, (i < c)%nat → P !! i = Some i) as Hpre by (intros; apply IH; lia).
  destruct (P !! c) as [pc|] eqn:Hpc.
  - assert (c ≤ pc)%nat as Hle.
    { destruct c as [|c']; [lia|].
      pose proof (ech_sorted _ _ _ _ _ Hech c' (S c') c' pc
                    (Hpre c' ltac:(lia)) Hpc ltac:(lia)). lia. }
    destruct (decide (pc = c)) as [->|Hne]; [done|].
    exfalso. apply (no_free_column c); [lia | done |].
    intros t Ht Htn.
    destruct (P !! t) as [pt|] eqn:Hpt.
    + eapply (ech_left _ _ _ _ _ Hech t pt); [done|].
      destruct (decide (t = c)) as [->|]; [assert (pt = pc) by congruence; lia|].
      pose proof (ech_sorted _ _ _ _ _ Hech c t pc pt Hpc Hpt ltac:(lia)). lia.
    + apply lookup_ge_None in Hpt.
      eapply (ech_below _ _ _ _ _ Hech); [done | done |].
      pose proof (ech_bound _ _ _ _ _ Hech c pc Hpc). lia.
  - exfalso. apply lookup_ge_None in Hpc.
    apply (no_free_column c); [lia | done |].
    intros t Ht Htn.
    eapply (ech_below _ _ _ _ _ Hech); [lia | done |].
    destruct Hfinal; lia.
Qed.

Lemma pivot_k_ge pc : P !! k = Some pc → (k ≤ pc)%nat.
Proof.
  intros Hpc. destruct (decide (k = 0)%nat); [lia|].
  pose proof (pivots_first k ltac:(lia) (k - 1)%nat ltac:(lia)) as Hk'.
  pose proof (ech_sorted _ _ _ _ _ Hech (k - 1)%nat k (k - 1)%nat pc
                Hk' Hpc ltac:(lia)).
  lia.
Qed.

(** The last row is zero on the first [k] columns. *)
Lemma last_row_zero c' : (c' < k)%nat → cong p (X k c') 0.
Proof.
  intros Hc'. destruct (P !! k) as [pc|] eqn:Hpc.
  - pose proof (pivot_k_ge pc Hpc).
    eapply (ech_left _ _ _ _ _ Hech k pc); [done | lia].
  - apply lookup_ge_None in Hpc.
    eapply (ech_below _ _ _ _ _ Hech); [lia | lia |].
    destruct Hfinal; lia.
Qed.

(** Every vector orthogonal to the [v j] is a multiple of the right part of
    the last row. *)
Lemma secret_multiple (s : nat → Z) :
  (∀ j, (j < k)%nat → cong p (sumn n (λ u, s u * v j u)) 0) →
  ∃ l, ∀ w, (w < n)%nat → cong p (s w) (l * X k (k + w)%nat).
Proof.
  intros Horth. destruct Hspan as [F HF].
  set (y := λ t, sumn n (λ u, s u * F u t)).
  assert (∀ u j, (u < n)%nat → (j < k)%nat → cong p (F u j) (v j u)) as HFv.
  { intros u j Hu Hj. rewrite <-(HX0_left u j) by done.
    rewrite (HF u j) by lia.
    rewrite (sumn_cong p n _ (λ t, delta t j * F u t)).
    - rewrite sumn_delta_lt by lia. done.
    - intros t Ht. cbn beta.
      rewrite (pivot_column_delta j t)
        by first [done | apply (pivots_first k); (done || lia)].
      apply cong_of_eq. lia. }
  assert (∀ j, (j < k)%nat → cong p (y j) 0) as Hy.
  { intros j Hj. unfold y. rewrite <-(Horth j Hj).
    apply sumn_cong. intros u Hu. cbn beta. by rewrite HFv. }
  exists (y k). intros w Hw.
  transitivity (sumn n (λ u, s u * X0 u (k + w)%nat)).
  { rewrite (sumn_cong p n _ (λ u, delta u w * s u)).
    - by rewrite sumn_delta_lt.
    - intros u Hu. cbn beta. rewrite HX0_right by done.
      apply cong_of_eq. lia. }
  rewrite (sumn_cong p n _
    (λ u, sumn n (λ t, s u * F u t * X t (k + w)%nat))).
  - rewrite sumn_swap.
    rewrite (sumn_ext n _ (λ t, y t * X t (k + w)%nat))
      by (intros; unfold y; by rewrite sumn_scale_r).
    rewrite Hn. cbn [sumn].
    rewrite (sumn_cong_zero p k).
    + apply cong_of_eq. lia.
    + intros t Ht. cbn beta. rewrite Hy by done. apply cong_of_eq. lia.
  - intros u Hu. cbn beta. rewrite (HF u (k + w)%nat) by lia.
    rewrite <-sumn_scale_l. apply cong_of_eq, sumn_ext. intros; lia.
Qed.

(** When a non-zero vector is orthogonal to the [v j], the last row carries
    a pivot, in the right part. *)
Lemma last_row_pivot (s : nat → Z) :
  (∀ j, (j < k)%nat → cong p (sumn n (λ u, s u * v j u)) 0) →
  (∃ w, (w < n)%nat ∧ ¬ cong p (s w) 0) →
  ∃ pc, P !! k = Some pc ∧ (k ≤ pc)%nat ∧ (pc < k + n)%nat
        ∧ cong p (X k pc) 1 ∧ ∀ c', (c' < pc)%nat → cong p (X k c') 0.
Proof.
  intros Horth (w & Hw & Hsw).
  destruct (secret_multiple s Horth) as [l Hl].
  destruct (P !! k) as [pc|] eqn:Hpc.
  - exists pc. split_and!; [done | by apply pivot_k_ge | | |].
    + pose proof (ech_bound _ _ _ _ _ Hech k pc Hpc). lia.
    + by eapply ech_pivot.
    + intros c' Hc'. by eapply (ech_left _ _ _ _ _ Hech k pc).
  - exfalso. apply Hsw. rewrite (Hl w Hw).
    apply lookup_ge_None in Hpc.
    rewrite (ech_below _ _ _ _ _ Hech k (k + w)%nat) by (destruct Hfinal; lia).
    apply cong_of_eq. lia.
Qed.

End Reduced.
End NullVector.

(** ** Entries of the matrices built by the code *)
Module MatrixFacts.
Import ModArith RowReduction.

Lemma for_range_S {S} lo len (body : nat → S → S) s :
  for_range lo (Datatypes.S len) body s
  = body (lo + len)%nat (for_range lo len body s).
Proof. unfold for_range. by rewrite seq_S, foldl_app. Qed.

Lemma for_range_ind {S} (Inv : nat → S → Prop) lo len body s :
  Inv 0%nat s →
  (∀ k s, (k < len)%nat → Inv k s → Inv (Datatypes.S k) (body (lo + k)%nat s)) →
  Inv len (for_range lo len body s).
Proof.
  intros H0 Hstep. induction len as [|len IH]; [done|].
  rewrite for_range_S. apply Hstep; [lia|]. apply IH.
  intros k s' Hk. apply Hstep. lia.
Qed.

Section Entries.
Context {A : Type} (d : A).
Implicit Types M : Matrix A.

Lemma entry_ge_rows M i j :
  well_formed M → (rows M ≤ i)%nat → entry d M i j = d.
Proof.
  intros [Hr _] Hi. unfold entry.
  by rewrite (lookup_ge_None_2 (mat M) i) by lia.
Qed.

Lemma entry_ge_cols M i j :
  well_formed M → (cols M ≤ j)%nat → entry d M i j = d.
Proof.
  intros [_ Hc] Hj. unfold entry.
  destruct (mat M !! i) as [row|] eqn:Hrow; [|done]. simpl.
  rewrite list.Forall_forall in Hc.
  assert (length row = cols M) as Hl.
  { apply Hc. by eapply list_elem_of_lookup_2. }
  by rewrite (lookup_ge_None_2 row j) by lia.
Qed.

Lemma well_formed_set_entry M i j v :
  well_formed M → well_formed (set_entry M i j v).
Proof.
  intros [Hr Hc]. split; simpl.
  - by rewrite length_alter.
  - apply list.Forall_alter; [done|]. intros row _ Hl.
    by rewrite length_insert.
Qed.

Lemma entry_set_entry M i j v i' j' :
  well_formed M →
  entry d (set_entry M i j v) i' j'
  = if decide (i' = i ∧ j' = j ∧ (i < rows M)%nat ∧ (j < cols M)%nat)
    then v else entry d M i' j'.
Proof.
  intros [Hr Hc]. unfold entry, set_entry. simpl.
  rewrite list.Forall_forall in Hc.
  destruct (decide (i' = i)) as [->|Hi].
  - rewrite list_lookup_alter_eq.
    destruct (mat M !! i) as [row|] eqn:Hrow; simpl.
    + assert (length row = cols M) as Hl.
      { apply Hc. by eapply list_elem_of_lookup_2. }
      apply lookup_lt_Some in Hrow.
      destruct (decide (j' = j)) as [->|Hj].
      * destruct (decide (j < cols M)%nat).
        -- rewrite list_lookup_insert_eq by lia.
           by rewrite decide_True by (split_and!; (done || lia)).
        -- rewrite list_insert_ge by lia. by rewrite decide_False by lia.
      * rewrite list_lookup_insert_ne by done.
        by rewrite decide_False by (intros (?&?&?); done).
    + apply lookup_ge_None in Hrow. by rewrite decide_False by lia.
  - rewrite list_lookup_alter_ne by done.
    by rewrite decide_False by (intros (?&?); done).
Qed.

Lemma well_formed_row_swap M i j :
  well_formed M → well_formed (row_swap M i j).
Proof.
  intros [Hr Hc]. unfold row_swap.
  destruct (mat M !! i) as [ri|] eqn:Hi; [|done].
  destruct (mat M !! j) as [rj|] eqn:Hj; [|done].
  rewrite list.Forall_forall in Hc.
  split; simpl.
  - by rewrite !length_insert.
  - apply list.Forall_insert; [apply list.Forall_insert|].
    + by apply list.Forall_forall.
    + apply Hc. by eapply list_elem_of_lookup_2.
    + apply Hc. by eapply list_elem_of_lookup_2.
Qed.

Lemma rows_row_swap M i j : rows (row_swap M i j) = rows M.
Proof. unfold row_swap. by repeat case_match. Qed.

Lemma cols_row_swap M i j : cols (row_swap M i j) = cols M.
Proof. unfold row_swap. by repeat case_match. Qed.

Lemma entry_row_swap M i j i' j' :
  well_formed M → (i < rows M)%nat → (j < rows M)%nat →
  entry d (row_swap M i j) i' j' = entry d M (swapidx i j i') j'.
Proof.
  intros [Hr Hc] Hi Hj. unfold row_swap, entry, swapidx.
  destruct (lookup_lt_is_Some_2 (mat M) i) as [ri Hri]; [lia|].
  destruct (lookup_lt_is_Some_2 (mat M) j) as [rj Hrj]; [lia|].
  rewrite Hri, Hrj. simpl.
  destruct (decide (i' = j)) as [->|Hne].
  - rewrite list_lookup_insert_eq by (rewrite length_insert; lia).
    case_decide; subst; by rewrite ?Hri, ?Hrj.
  - rewrite list_lookup_insert_ne by done.
    destruct (decide (i' = i)) as [->|Hne'].
    + rewrite list_lookup_insert_eq by lia. by rewrite Hrj.
    + by rewrite list_lookup_insert_ne by done.
Qed.

End Entries.

Lemma entry_applyfunc {A B} (f : A → B) (d : A) (M : Matrix A) i j :
  entry (f d) (applyfunc f M) i j = f (entry d M i j).
Proof.
  unfold entry, applyfunc. simpl. rewrite list_lookup_fmap.
  destruct (mat M !! i) as [row|]; simpl; [|done].
  rewrite list_lookup_fmap. by destruct (row !! j).
Qed.

Lemma well_formed_applyfunc {A B} (f : A → B) (M : Matrix A) :
  well_formed M → well_formed (applyfunc f M).
Proof.
  intros [Hr Hc]. split; simpl.
  - by rewrite length_map.
  - apply list.Forall_fmap. eapply list.Forall_impl; [exact Hc|].
    intros row Hl. simpl. by rewrite length_map.
Qed.

(** Two rectangular matrices of one shape with the same entries are the
    same matrix. *)
Lemma matrix_ext {A} (d : A) (M N : Matrix A) :
  well_formed M → well_formed N →
  rows M = rows N → cols M = cols N →
  (∀ i j, (i < rows M)%nat → (j < cols M)%nat →
     entry d M i j = entry d N i j) →
  M = N.
Proof.
  destruct M as [rm cm lm], N as [rn cn ln].
  intros [Hr Hc] [Hr' Hc']. simpl in *. intros -> -> Hent.
  f_equal. rewrite list.Forall_forall in Hc, Hc'.
  apply list_eq. intros i.
  destruct (lm !! i) as [row|] eqn:Hrow.
  - pose proof (lookup_lt_Some _ _ _ Hrow) as Hi.
    destruct (lookup_lt_is_Some_2 ln i) as [row' Hrow']; [lia|].
    rewrite Hrow'. f_equal.
    assert (length row = cn) as Hl by (apply Hc; by eapply list_elem_of_lookup_2).
    assert (length row' = cn) as Hl' by (apply Hc'; by eapply list_elem_of_lookup_2).
    apply list_eq. intros j.
    destruct (decide (j < cn)%nat) as [Hj|Hj].
    + specialize (Hent i j ltac:(lia) Hj). unfold entry in Hent. simpl in Hent.
      rewrite Hrow, Hrow' in Hent. simpl in Hent.
      destruct (lookup_lt_is_Some_2 row j) as [x Hx]; [lia|].
      destruct (lookup_lt_is_Some_2 row' j) as [x' Hx']; [lia|].
      rewrite Hx, Hx' in *. simpl in Hent. congruence.
    + by rewrite !lookup_ge_None_2 by lia.
  - apply lookup_ge_None in Hrow. by rewrite lookup_ge_None_2 by lia.
Qed.

Lemma swapidx_comm a b i : swapidx a b i = swapidx b a i.
Proof. unfold swapidx. repeat case_decide; lia. Qed.

Lemma swapidx_same a i : swapidx a a i = i.
Proof. unfold swapidx. repeat case_decide; lia. Qed.

(** The first index of a range that satisfies a decidable property. *)
Lemma head_filter_seq (Q : nat → Prop) `{∀ x, Decision (Q x)} r len :
  match head (filter Q (seq r len)) with
  | Some x => (r ≤ x < r + len)%nat ∧ Q x ∧ ∀ j, (r ≤ j < x)%nat → ¬ Q j
  | None => ∀ j, (r ≤ j < r + len)%nat → ¬ Q j
  end.
Proof.
  revert r. induction len as [|len IH]; intros r; simpl.
  - intros j ?. lia.
  - rewrite filter_cons. case_decide as HQ; simpl.
    + split_and!; try done; try lia.
    + specialize (IH (S r)).
      destruct (head (filter Q (seq (S r) len))) as [x|].
      * destruct IH as (? & ? & Hmin). split_and!; try done; try lia.
        intros j Hj. destruct (decide (j = r)) as [->|]; [done|].
        apply Hmin. lia.
      * intros j Hj. destruct (decide (j = r)) as [->|]; [done|].
        apply IH. lia.
Qed.

(** [M'] is a rectangular matrix of the shape of [M]. *)
Record same_shape {A B} (M : Matrix A) (M' : Matrix B) : Prop := {
  ss_wf : well_formed M';
  ss_rows : rows M' = rows M;
  ss_cols : cols M' = cols M
}.

Lemma same_shape_refl {A} (M : Matrix A) : well_formed M → same_shape M M.
Proof. by split. Qed.

Lemma same_shape_trans {A B C} (M1 : Matrix A) (M2 : Matrix B)
    (M3 : Matrix C) :
  same_shape M1 M2 → same_shape M2 M3 → same_shape M1 M3.
Proof. intros [? ? ?] [? ? ?]. split; congruence. Qed.

Lemma same_shape_applyfunc {A B} (f : A → B) (M : Matrix A) :
  well_formed M → same_shape M (applyfunc f M).
Proof. intros H. split; [by apply well_formed_applyfunc | done | done]. Qed.

End MatrixFacts.

(** ** The reduction modulo 3 *)
Module TernaryFacts.
Import ModArith RowReduction MatrixFacts Ternary.

Abbreviation ent := (entry 0).

(** Every entry is a residue modulo 3. *)
Definition reduced (M : Matrix Z) : Prop := ∀ i j, 0 ≤ ent M i j < 3.

Lemma mod3_range x : 0 ≤ mod3 x < 3.
Proof. unfold mod3. apply Z.mod_pos_bound. lia. Qed.

Lemma cong_mod3 x : cong 3 (mod3 x) x.
Proof. apply cong_mod. Qed.

Lemma reduced_applyfunc_mod3 M : reduced (applyfunc mod3 M).
Proof.
  intros i j. pose proof (entry_applyfunc mod3 0 M i j) as H.
  change (mod3 0) with 0 in H. rewrite H. apply mod3_range.
Qed.

Lemma reduced_cong_eq M i j x :
  reduced M → 0 ≤ x < 3 → cong 3 (ent M i j) x → ent M i j = x.
Proof. intros HM Hx. apply cong_small; [apply HM | done]. Qed.

Lemma normalize_row_spec M r inv :
  well_formed M →
  same_shape M (normalize_row M r inv)
  ∧ ∀ i j, ent (normalize_row M r inv) i j
           = if decide (i = r) then mod3 (inv * ent M r j) else ent M i j.
Proof.
  intros Hwf. unfold normalize_row.
  assert (same_shape M (for_range 0 (cols M)
            (λ j M0, set_entry M0 r j (mod3 (inv * ent M0 r j))) M)
          ∧ ∀ i j, ent (for_range 0 (cols M)
            (λ j M0, set_entry M0 r j (mod3 (inv * ent M0 r j))) M) i j
            = if decide (i = r ∧ (j < cols M)%nat)
              then mod3 (inv * ent M r j) else ent M i j) as [Hs He].
  { set (Inv := λ k M', same_shape M M' ∧ ∀ i j, ent M' i j
        = if decide (i = r ∧ (j < k)%nat)
          then mod3 (inv * ent M r j) else ent M i j).
    apply (for_range_ind Inv); unfold Inv; clear Inv.
    - split; [by split|]. intros i j. by rewrite decide_False by lia.
    - intros k M' Hk [[Hwf' Hr' Hc'] He]. simpl. split.
      + split; [by apply well_formed_set_entry | done | done].
      + intros i j. rewrite entry_set_entry by done. rewrite !He.
        rewrite Hr', Hc'.
        rewrite (decide_False (P := r = r ∧ (k < k)%nat)) by lia.
        destruct (decide (r < rows M)%nat) as [Hr|Hr].
        * repeat case_decide; try lia; destruct_and?; subst; (done || lia).
        * assert (∀ j', ent M r j' = 0) as Hz
            by (intros; apply entry_ge_rows; (done || lia)).
          repeat case_decide; try lia; destruct_and?; subst;
            rewrite ?Hz, ?Z.mul_0_r; try (done || lia). }
  split; [done|]. intros i j. rewrite He.
  destruct (decide (j < cols M)%nat).
  - repeat case_decide; try lia; destruct_and?; subst; (done || lia).
  - rewrite !(entry_ge_cols 0 M) by (done || lia).
    repeat case_decide; rewrite ?Z.mul_0_r; try done; reflexivity.
Qed.

Lemma eliminate_row_spec M r ri multiplier :
  well_formed M → ri ≠ r → (ri < rows M)%nat →
  same_shape M (eliminate_row M r ri multiplier)
  ∧ ∀ i j, ent (eliminate_row M r ri multiplier) i j
           = if decide (i = ri)
             then mod3 (ent M ri j - multiplier * ent M r j)
             else ent M i j.
Proof.
  intros Hwf Hne Hri. unfold eliminate_row.
  set (body := λ (j : nat) (M0 : Matrix Z),
    set_entry M0 ri j (mod3 (ent M0 ri j - multiplier * ent M0 r j))).
  assert (same_shape M (for_range 0 (cols M) body M)
          ∧ ∀ i j, ent (for_range 0 (cols M) body M) i j
            = if decide (i = ri ∧ (j < cols M)%nat)
              then mod3 (ent M ri j - multiplier * ent M r j)
              else ent M i j) as [Hs He].
  { set (Inv := λ k M', same_shape M M' ∧ ∀ i j, ent M' i j
        = if decide (i = ri ∧ (j < k)%nat)
          then mod3 (ent M ri j - multiplier * ent M r j) else ent M i j).
    apply (for_range_ind Inv); unfold Inv; clear Inv.
    - split; [by split|]. intros i j. by rewrite decide_False by lia.
    - intros k M' Hk [[Hwf' Hr' Hc'] He]. simpl. split.
      + split; [by apply well_formed_set_entry | done | done].
      + intros i j. unfold body. rewrite entry_set_entry by done. rewrite !He.
        rewrite Hr', Hc'.
        rewrite (decide_False (P := ri = ri ∧ (k < k)%nat)) by lia.
        rewrite (decide_False (P := r = ri ∧ (k < k)%nat)) by lia.
        repeat case_decide; try lia; destruct_and?; subst; (done || lia). }
  split; [done|]. intros i j. rewrite He.
  destruct (decide (j < cols M)%nat).
  - repeat case_decide; try lia; destruct_and?; subst; (done || lia).
  - rewrite !(entry_ge_cols 0 M) by (done || lia).
    repeat case_decide; rewrite ?Z.mul_0_r; try done; reflexivity.
Qed.

Lemma eliminate_column_spec M r c :
  well_formed M →
  same_shape M (eliminate_column M r c)
  ∧ ∀ i j, ent (eliminate_column M r c) i j
           = if decide (i ≠ r ∧ ent M i c ≠ 0)
             then mod3 (ent M i j - ent M i c * ent M r j)
             else ent M i j.
Proof.
  intros Hwf. unfold eliminate_column.
  set (body := λ (ri : nat) (M0 : Matrix Z),
    if decide (ri ≠ r ∧ ent M0 ri c ≠ 0)
    then eliminate_row M0 r ri (ent M0 ri c) else M0).
  assert (same_shape M (for_range 0 (rows M) body M)
          ∧ ∀ i j, ent (for_range 0 (rows M) body M) i j
            = if decide ((i < rows M)%nat ∧ i ≠ r ∧ ent M i c ≠ 0)
              then mod3 (ent M i j - ent M i c * ent M r j)
              else ent M i j) as [Hs He].
  { set (Inv := λ k M', same_shape M M' ∧ ∀ i j, ent M' i j
        = if decide ((i < k)%nat ∧ i ≠ r ∧ ent M i c ≠ 0)
          then mod3 (ent M i j - ent M i c * ent M r j) else ent M i j).
    apply (for_range_ind Inv); unfold Inv; clear Inv.
    - split; [by split|]. intros i j. by rewrite decide_False by lia.
    - intros k M' Hk [[Hwf' Hr' Hc'] He]. simpl. unfold body.
      assert (ent M' k c = ent M k c) as Hkc.
      { rewrite He. by rewrite decide_False by lia. }
      assert (∀ j, ent M' r j = ent M r j) as Hrj.
      { intros j. rewrite He. by rewrite decide_False by (intros (?&?&?); done). }
      assert (∀ j, ent M' k j = ent M k j) as Hkj.
      { intros j. rewrite He. by rewrite decide_False by lia. }
      rewrite Hkc. case_decide as Hcond.
      + destruct Hcond as [Hkr Hnz].
        destruct (eliminate_row_spec M' r k (ent M k c) Hwf' Hkr ltac:(lia))
          as [[Hwf'' Hr'' Hc''] He'].
        split; [split; [done | congruence | congruence]|].
        intros i j. rewrite He'.
        destruct (decide (i = k)) as [->|Hik].
        * rewrite Hkj, Hrj.
          by rewrite decide_True by (split_and?; (done || lia)).
        * rewrite He.
          repeat case_decide; try lia; destruct_and?; try (done || lia);
            exfalso; naive_solver lia.
      + split; [done|]. intros i j. rewrite He.
        destruct (decide (i = k)) as [->|Hik].
        * rewrite decide_False by lia. by rewrite decide_False by tauto.
        * repeat case_decide; try lia; destruct_and?; try (done || lia);
            exfalso; naive_solver lia. }
  split; [done|]. intros i j. rewrite He.
  destruct (decide (i < rows M)%nat).
  - repeat case_decide; try lia; destruct_and?; try (done || lia);
      exfalso; naive_solver lia.
  - rewrite !(entry_ge_rows 0 M i) by (done || lia).
    rewrite decide_False by lia. by rewrite decide_False by tauto.
Qed.

Lemma find_pivot_row_Some M c r pr :
  find_pivot_row M c r = Some pr →
  (r ≤ pr < rows M)%nat ∧ ent M pr c ≠ 0
  ∧ ∀ j, (r ≤ j < pr)%nat → ent M j c = 0.
Proof.
  unfold find_pivot_row. intros H.
  pose proof (head_filter_seq (λ ri, ent M ri c ≠ 0) r (rows M - r)) as Hh.
  rewrite H in Hh. destruct Hh as (Hr & Hnz & Hmin).
  split_and!; [lia | lia | done |].
  intros j Hj. specialize (Hmin j Hj).
  by destruct (decide (ent M j c = 0)).
Qed.

Lemma find_pivot_row_None M c r :
  find_pivot_row M c r = None →
  ∀ j, (r ≤ j < rows M)%nat → ent M j c = 0.
Proof.
  unfold find_pivot_row. intros H.
  pose proof (head_filter_seq (λ ri, ent M ri c ≠ 0) r (rows M - r)) as Hh.
  rewrite H in Hh. intros j Hj. specialize (Hh j ltac:(lia)).
  by destruct (decide (ent M j c = 0)).
Qed.

Lemma cong_3_4_1 : cong 3 4 1.
Proof. by apply cong_iff. Qed.

(** The body of the loop, once a pivot row is found, is an elimination
    step modulo 3. *)
Lemma pivot_step_spec M r c pr :
  well_formed M → reduced M →
  (r ≤ pr < rows M)%nat → (c < cols M)%nat → ent M pr c ≠ 0 →
  ∃ M' u,
    pivot_step M r c pr = Some M'
    ∧ same_shape M M' ∧ reduced M'
    ∧ gauss_step 3 (rows M) (cols M) (ent M) (ent M') r c pr u.
Proof.
  intros Hwf Hred Hpr Hc Hnz. unfold pivot_step.
  set (Y := if decide (pr ≠ r) then row_swap M pr r else M).
  assert (same_shape M Y ∧ ∀ i j, ent Y i j = ent M (swapidx r pr i) j)
    as [[HwfY HrY HcY] HeY].
  { unfold Y. case_decide as Hne.
    - split; [split|].
      + by apply well_formed_row_swap.
      + apply rows_row_swap.
      + apply cols_row_swap.
      + intros i j. rewrite entry_row_swap by (done || lia).
        by rewrite swapidx_comm.
    - assert (pr = r) as -> by lia. split; [by apply same_shape_refl|].
      intros i j. by rewrite swapidx_same. }
  assert (swapidx r pr r = pr) as Hsr.
  { unfold swapidx. by rewrite decide_True. }
  assert (ent Y r c = ent M pr c) as Hpv by (by rewrite HeY, Hsr).
  assert (∃ u M1,
    (if decide (ent Y r c ≠ 1)
     then inv ← pow_inv3 (ent Y r c); Some (normalize_row Y r (mod3 inv))
     else Some Y) = Some M1
    ∧ (u = 1 ∨ u = 2) ∧ cong 3 (u * ent M pr c) 1
    ∧ same_shape M M1
    ∧ ∀ i j, ent M1 i j
        = if decide (i = r) then mod3 (u * ent Y r j) else ent Y i j)
    as (u & M1 & -> & Hu & Hunit & [HwfM1 HrM1 HcM1] & HeM1).
  { pose proof (Hred pr c) as Hrange. rewrite Hpv.
    case_decide as Hone.
    - assert (ent M pr c = 2) as H2 by lia. rewrite H2.
      exists 2, (normalize_row Y r 2). split; [done|].
      destruct (normalize_row_spec Y r 2 HwfY) as [Hs He].
      split_and!; [by right | apply cong_3_4_1 | | done].
      eapply same_shape_trans; [|exact Hs]. by split.
    - assert (ent M pr c = 1) as H1 by lia. rewrite H1.
      exists 1, Y. split_and!; [done | by left | done | by split |].
      intros i j. case_decide as Hi; [|done]. subst i.
      rewrite Z.mul_1_l. unfold mod3.
      rewrite Z.mod_small; [done|]. rewrite HeY. apply Hred. }
  cbn [mbind option_bind].
  destruct (eliminate_column_spec M1 r c HwfM1) as [[HwfM' HrM' HcM'] HeM'].
  exists (eliminate_column M1 r c), u.
  split_and!; [done | split; congruence | |].
  - intros i j. rewrite HeM'. case_decide; [apply mod3_range|].
    rewrite HeM1. case_decide; [apply mod3_range|].
    rewrite HeY. apply Hred.
  - split; [done | done | |].
    + intros j Hj. rewrite HeM'.
      rewrite decide_False by (intros [? _]; done).
      rewrite HeM1, decide_True by done.
      rewrite cong_mod3. by rewrite HeY, Hsr.
    + intros i j Hi Hne Hj. rewrite !HeM'.
      rewrite (decide_False (P := r ≠ r ∧ _)) by (intros [? _]; done).
      rewrite !HeM1. rewrite !(decide_False (P := i = r)) by done.
      rewrite (decide_True (P := r = r)) by done.
      rewrite !HeY. case_decide as Hcond.
      * by rewrite cong_mod3.
      * assert (ent M (swapidx r pr i) c = 0) as ->.
        { destruct (decide (ent M (swapidx r pr i) c = 0)); [done|].
          exfalso. apply Hcond. by split. }
        apply cong_of_eq. lia.
Qed.

(** What the loop over the columns establishes. *)
Lemma rref_loop_spec len : ∀ c M r P,
  well_formed M → reduced M → (c + len = cols M)%nat →
  echelon 3 (rows M) (ent M) P c → length P = r →
  (r < rows M ∨ rows M = 0)%nat →
  ∃ M' P' c',
    rref_loop (seq c len) M r P = Some (M', P')
    ∧ same_shape M M' ∧ reduced M'
    ∧ echelon 3 (rows M) (ent M') P' c'
    ∧ (c' ≤ cols M)%nat
    ∧ (length P' = rows M ∨ c' = cols M)
    ∧ rowspan 3 (rows M) (cols M) (ent M) (ent M').
Proof.
  induction len as [|len IH]; intros c M r P Hwf Hred Hc Hech Hr Hrk.
  - exists M, P, c. simpl.
    split_and!; [done | by apply same_shape_refl | done | done | lia | right; lia
                | apply rowspan_refl].
  - cbn [seq rref_loop].
    destruct (find_pivot_row M c r) as [pr|] eqn:Hfind.
    + apply find_pivot_row_Some in Hfind as (Hpr & Hnz & _).
      destruct (pivot_step_spec M r c pr Hwf Hred Hpr ltac:(lia) Hnz)
        as (M1 & u & -> & [Hwf1 Hr1 Hc1] & Hred1 & Hstep).
      cbn [mbind option_bind].
      pose proof (echelon_step 3 (rows M) (cols M) (ent M) (ent M1) P r c pr u
                    Hech Hr ltac:(lia) Hstep)
        as Hech1.
      pose proof (rowspan_step 3 (rows M) (cols M) (ent M) (ent M1) r c pr u
                    ltac:(lia) Hstep) as Hspan1.
      rewrite Hr1. case_decide as Hfull.
      * exists M1, (P ++ [c]), (S c).
        split_and!; [done | by split | done | done | lia | | done].
        left. rewrite length_app. simpl. lia.
      * destruct (IH (S c) M1 (S r) (P ++ [c])) as
          (M' & P' & c' & Hrun & [Hwf' Hr' Hc'] & Hred' & Hech' & Hc'le & Hfin & Hspan').
        -- done.
        -- done.
        -- lia.
        -- by rewrite Hr1.
        -- rewrite length_app. simpl. lia.
        -- lia.
        -- rewrite Hr1, Hc1 in *.
           exists M', P', c'.
           split_and!; [done | split; congruence | done | done | done | done |].
           by eapply rowspan_trans.
    + pose proof (find_pivot_row_None M c r Hfind) as Hzero.
      destruct (IH (S c) M r P) as
        (M' & P' & c' & Hrun & Hs' & Hred' & Hech' & Hc'le & Hfin & Hspan').
      * done.
      * done.
      * lia.
      * apply echelon_skip; [done|]. intros j Hj Hjn.
        apply cong_of_eq, Hzero. lia.
      * done.
      * done.
      * by exists M', P', c'.
Qed.

(** [rref_mod3] returns, for every rectangular matrix; the result is
    reduced modulo 3, in echelon form, and its rows span those of the
    argument. *)
Lemma rref_mod3_spec M :
  well_formed M →
  ∃ R P c',
    rref_mod3 M = Some (R, P)
    ∧ same_shape M R ∧ reduced R
    ∧ echelon 3 (rows M) (ent R) P c'
    ∧ (c' ≤ cols M)%nat
    ∧ (length P = rows M ∨ c' = cols M)
    ∧ rowspan 3 (rows M) (cols M) (ent M) (ent R).
Proof.
  intros Hwf. unfold rref_mod3.
  set (M0 := applyfunc mod3 M).
  assert (well_formed M0) as Hwf0 by (by apply well_formed_applyfunc).
  destruct (rref_loop_spec (cols M0) 0 M0 0 []) as
    (R & P & c' & Hrun & [Hwf' Hr' Hc'] & Hred' & Hech' & Hc'le & Hfin & Hspan').
  - done.
  - apply reduced_applyfunc_mod3.
  - done.
  - apply echelon_nil.
  - done.
  - lia.
  - exists R, P, c'. change (rows M0) with (rows M) in *.
    change (cols M0) with (cols M) in *.
    split_and!; [done | by split | done | done | done | done |].
    eapply rowspan_trans; [|exact Hspan'].
    apply rowspan_of_cong. intros i j _ _.
    pose proof (entry_applyfunc mod3 0 M i j) as H.
    change (mod3 0) with 0 in H. fold M0 in H. rewrite H.
    symmetry. apply cong_mod3.
Qed.

(** *** A reduced matrix is a fixed point *)

Lemma eliminate_column_fixed R r c :
  (∀ i, i ≠ r → ent R i c = 0) → eliminate_column R r c = R.
Proof.
  intros Hz. unfold eliminate_column.
  apply (for_range_ind (λ _ M', M' = R)); [done|].
  intros k M' _ ->. rewrite decide_False; [done|].
  intros [Hk Hnz]. by apply Hnz, Hz.
Qed.

Lemma pivot_step_fixed R r c :
  ent R r c = 1 → (∀ i, i ≠ r → ent R i c = 0) →
  pivot_step R r c r = Some R.
Proof.
  intros H1 Hz. unfold pivot_step. cbv zeta.
  rewrite (decide_False (P := r ≠ r)) by (intros H; by apply H).
  rewrite H1. rewrite (decide_False (P := 1 ≠ 1)) by (intros H; by apply H).
  cbn [mbind option_bind]. by rewrite eliminate_column_fixed.
Qed.

Lemma find_pivot_row_first M c r :
  (r < rows M)%nat → ent M r c ≠ 0 → find_pivot_row M c r = Some r.
Proof.
  intros Hr Hnz. destruct (find_pivot_row M c r) as [pr|] eqn:Hfind.
  - apply find_pivot_row_Some in Hfind as (Hpr & _ & Hmin).
    destruct (decide (pr = r)) as [->|]; [done|].
    exfalso. apply Hnz, Hmin. lia.
  - exfalso. apply Hnz. eapply find_pivot_row_None; [done | lia].
Qed.

Lemma find_pivot_row_none M c r :
  (∀ j, (r ≤ j < rows M)%nat → ent M j c = 0) →
  find_pivot_row M c r = None.
Proof.
  intros Hz. destruct (find_pivot_row M c r) as [pr|] eqn:Hfind; [|done].
  apply find_pivot_row_Some in Hfind as (Hpr & Hnz & _).
  exfalso. apply Hnz, Hz. lia.
Qed.

Section Fixed.
Variable R : Matrix Z.
Variable P : list nat.
Variable cf : nat.
Hypothesis Hwf : well_formed R.
Hypothesis Hred : reduced R.
Hypothesis Hech : echelon 3 (rows R) (ent R) P cf.
Hypothesis Hcf : (cf ≤ cols R)%nat.
Hypothesis Hfinal : length P = rows R ∨ cf = cols R.

Lemma reduced_zero i j : cong 3 (ent R i j) 0 → ent R i j = 0.
Proof. apply reduced_cong_eq; [done | lia]. Qed.

Lemma reduced_one i j : cong 3 (ent R i j) 1 → ent R i j = 1.
Proof. apply reduced_cong_eq; [done | lia]. Qed.

Lemma rref_loop_fixed len : ∀ c r,
  (c + len = cols R)%nat → (r ≤ length P)%nat →
  (∀ i pi, P !! i = Some pi → (i < r)%nat ↔ (pi < c)%nat) →
  (r < rows R ∨ rows R = 0)%nat →
  rref_loop (seq c len) R r (take r P) = Some (R, P).
Proof.
  induction len as [|len IH]; intros c r Hc Hr Hsplit Hrk.
  - simpl. rewrite take_ge; [done|].
    destruct (decide (length P ≤ r)%nat) as [|Hlt]; [done|].
    destruct (lookup_lt_is_Some_2 P r) as [pi Hpi]; [lia|].
    pose proof (ech_bound _ _ _ _ _ Hech r pi Hpi).
    apply Hsplit in Hpi. lia.
  - cbn [seq rref_loop].
    assert (∀ j pj, P !! j = Some pj → (c < pj)%nat → ent R j c = 0) as Hleft.
    { intros j pj Hj Hlt. apply reduced_zero.
      by eapply (ech_left _ _ _ _ _ Hech j pj). }
    assert (∀ j, (length P ≤ j)%nat → (j < rows R)%nat → ent R j c = 0)
      as Hbelow.
    { intros j Hj Hjn. apply reduced_zero.
      eapply (ech_below _ _ _ _ _ Hech); [done | done |].
      destruct Hfinal; lia. }
    destruct (P !! r) as [pr|] eqn:Hpr.
    + assert (c ≤ pr)%nat as Hle.
      { destruct (decide (pr < c)%nat) as [Hlt|]; [|lia].
        apply (Hsplit r pr Hpr) in Hlt. lia. }
      pose proof (lookup_lt_Some _ _ _ Hpr) as Hrlt.
      pose proof (ech_rank _ _ _ _ _ Hech) as Hrank.
      destruct (decide (pr = c)) as [->|Hne].
      * rewrite find_pivot_row_first; [|lia|].
        2:{ rewrite (reduced_one r c); [done|]. by eapply ech_pivot. }
        rewrite pivot_step_fixed.
        2:{ apply reduced_one. by eapply ech_pivot. }
        2:{ intros i Hi. destruct (decide (i < rows R)%nat).
            - apply reduced_zero. by eapply (ech_column _ _ _ _ _ Hech r c).
            - apply entry_ge_rows; [done | lia]. }
        cbn [mbind option_bind].
        rewrite <-(take_S_r P r c) by done.
        case_decide as Hfull.
        -- rewrite take_ge by lia. done.
        -- apply IH; [lia | lia | | lia].
           intros i pi Hi. split.
           ++ intros Hlt. destruct (decide (i = r)) as [->|].
              ** assert (pi = c) by congruence. lia.
              ** pose proof (proj1 (Hsplit i pi Hi) ltac:(lia)). lia.
           ++ intros Hlt. destruct (decide (pi < c)%nat) as [Hpc|Hpc].
              ** pose proof (proj2 (Hsplit i pi Hi) Hpc). lia.
              ** assert (pi = c) as -> by lia.
                 destruct (decide (i = r)) as [->|Hir]; [lia|].
                 destruct (decide (i < r)%nat) as [|Hge]; [lia|].
                 pose proof (ech_sorted _ _ _ _ _ Hech r i c c Hpr Hi ltac:(lia)).
                 lia.
      * rewrite find_pivot_row_none.
        2:{ intros j Hj. destruct (P !! j) as [pj|] eqn:Hpj.
            - apply (Hleft j pj Hpj).
              destruct (decide (j = r)) as [->|].
              + assert (pj = pr) by congruence. lia.
              + pose proof (ech_sorted _ _ _ _ _ Hech r j pr pj Hpr Hpj
                              ltac:(lia)). lia.
            - apply lookup_ge_None in Hpj. apply Hbelow; lia. }
        apply IH; [lia | lia | | done].
        intros i pi Hi. split.
        -- intros Hlt. pose proof (proj1 (Hsplit i pi Hi) Hlt). lia.
        -- intros Hlt. destruct (decide (pi < c)%nat) as [Hpc|Hpc].
           ++ by apply (Hsplit i pi Hi).
           ++ assert (pi = c) as -> by lia. exfalso.
              destruct (decide (i = r)) as [->|Hir]; [congruence|].
              destruct (decide (i < r)%nat) as [Hilt|Hige].
              ** apply (Hsplit i c Hi) in Hilt. lia.
              ** pose proof (ech_sorted _ _ _ _ _ Hech r i pr c Hpr Hi
                               ltac:(lia)). lia.
    + apply lookup_ge_None in Hpr.
      rewrite find_pivot_row_none.
      2:{ intros j Hj. apply Hbelow; lia. }
      apply IH; [lia | lia | | done].
      intros i pi Hi. pose proof (lookup_lt_Some _ _ _ Hi).
      pose proof (ech_bound _ _ _ _ _ Hech i pi Hi).
      split; intros; [|lia].
      pose proof (proj1 (Hsplit i pi Hi) ltac:(lia)). lia.
Qed.

Lemma applyfunc_mod3_reduced : applyfunc mod3 R = R.
Proof.
  apply (matrix_ext 0); [by apply well_formed_applyfunc | done..|].
  intros i j _ _. pose proof (entry_applyfunc mod3 0 R i j) as H.
  change (mod3 0) with 0 in H. rewrite H. unfold mod3.
  apply Z.mod_small, Hred.
Qed.

Lemma rref_mod3_fixed : rref_mod3 R = Some (R, P).
Proof.
  unfold rref_mod3. rewrite applyfunc_mod3_reduced.
  apply (rref_loop_fixed (cols R) 0 0); [lia | lia | | lia].
  intros i pi Hi. lia.
Qed.

End Fixed.

End TernaryFacts.

(** ** The library's row reduction with the zero test modulo 2 *)
Module SympyFacts.
Import ModArith RowReduction MatrixFacts Sympy TernaryFacts.

(** *** Parity of a rational with an odd denominator *)

Definition odd_parity (q : Q) (x : Z) : Prop :=
  Z.odd (Z.pos (Qden q)) = true ∧ Z.odd (Qnum q) = Z.odd x.

Lemma inject_parity x : odd_parity (inject_Z x) x.
Proof. by split. Qed.

Lemma Qred_parity q x : odd_parity q x → odd_parity (Qred q) x.
Proof.
  destruct q as [a b]. unfold odd_parity, Qred. cbn [Qden Qnum].
  intros [Hb Ha].
  pose proof (Z.ggcd_correct_divisors a (Z.pos b)) as Hdiv.
  pose proof (Z.ggcd_gcd a (Z.pos b)) as Hg.
  pose proof (Z.gcd_nonneg a (Z.pos b)) as Hnn.
  destruct (Z.ggcd a (Z.pos b)) as [g [aa bb]]. cbn [fst snd Qden Qnum] in *.
  destruct Hdiv as [Ha' Hb'].
  assert (0 < bb) as Hbb by nia.
  rewrite Z2Pos.id by done.
  rewrite Hb', Z.odd_mul in Hb. apply andb_true_iff in Hb as [Hgo Hbo].
  split; [done|]. rewrite <-Ha, Ha', Z.odd_mul, Hgo. done.
Qed.

Lemma div_parity x d :
  Z.odd d = true → odd_parity (inject_Z x / inject_Z d) x.
Proof.
  intros Hd. unfold odd_parity, Qdiv, Qmult, Qinv, inject_Z.
  cbn [Qden Qnum].
  destruct d as [|p|p]; cbn [Qden Qnum]; [done| |].
  - rewrite Pos.mul_1_l, Z.mul_1_r. by split.
  - rewrite Pos.mul_1_l. split; [done|].
    replace (x * Z.neg 1) with (- x) by lia. apply Z.odd_opp.
Qed.

Lemma mod2_parity q x : odd_parity q x → Simon.mod2 q = x mod 2.
Proof.
  intros H. apply Qred_parity in H as [_ H]. unfold Simon.mod2.
  by rewrite !Zmod_odd, H.
Qed.

Lemma cong_2_odd x : cong 2 x 1 ↔ Z.odd x = true.
Proof.
  rewrite cong_iff, Zmod_odd. change (1 mod 2) with 1.
  destruct (Z.odd x); split; (done || lia).
Qed.

Lemma iszero_mod2_true x : Simon.iszero_mod2 x = true ↔ cong 2 x 0.
Proof.
  unfold Simon.iszero_mod2. rewrite bool_decide_eq_true, cong_iff. done.
Qed.

Lemma iszero_mod2_false x : Simon.iszero_mod2 x = false ↔ cong 2 x 1.
Proof.
  unfold Simon.iszero_mod2. rewrite bool_decide_eq_false, cong_iff.
  change (1 mod 2) with 1. pose proof (Z.mod_pos_bound x 2). lia.
Qed.

(** *** The elimination loop *)

Lemma cross_cancel_spec M a i b j :
  well_formed M → i ≠ j → (i < rows M)%nat →
  same_shape M (cross_cancel M a i b j)
  ∧ ∀ i' p, ent (cross_cancel M a i b j) i' p
            = if decide (i' = i) then a * ent M i p - b * ent M j p
              else ent M i' p.
Proof.
  intros Hwf Hne Hi. unfold cross_cancel.
  set (body := λ (p : nat) (M0 : Matrix Z),
    set_entry M0 i p (a * ent M0 i p - b * ent M0 j p)).
  assert (same_shape M (for_range 0 (cols M) body M)
          ∧ ∀ i' p, ent (for_range 0 (cols M) body M) i' p
            = if decide (i' = i ∧ (p < cols M)%nat)
              then a * ent M i p - b * ent M j p
              else ent M i' p) as [Hs He].
  { set (Inv := λ (k : nat) (M' : Matrix Z), same_shape M M' ∧ ∀ i' p,
        ent M' i' p
        = if decide (i' = i ∧ (p < k)%nat)
          then a * ent M i p - b * ent M j p else ent M i' p).
    apply (for_range_ind Inv); unfold Inv; clear Inv.
    - split; [by split|]. intros i' p. by rewrite decide_False by lia.
    - intros k M' Hk [[Hwf' Hr' Hc'] He]. simpl. split.
      + split; [by apply well_formed_set_entry | done | done].
      + intros i' p. unfold body. rewrite entry_set_entry by done. rewrite !He.
        rewrite Hr', Hc'.
        rewrite (decide_False (P := i = i ∧ (k < k)%nat)) by lia.
        rewrite (decide_False (P := j = i ∧ (k < k)%nat)) by lia.
        repeat case_decide; try lia; destruct_and?; subst; (done || lia). }
  split; [done|]. intros i' p. rewrite He.
  destruct (decide (p < cols M)%nat).
  - repeat case_decide; try lia; destruct_and?; subst; (done || lia).
  - rewrite !(entry_ge_cols 0 M) by (done || lia).
    repeat case_decide; try done; lia.
Qed.

Lemma zero_column_spec f M r c pv :
  well_formed M →
  same_shape M (zero_column f M r c pv)
  ∧ ∀ i j, ent (zero_column f M r c pv) i j
           = if decide ((i < rows M)%nat ∧ i ≠ r ∧ f (ent M i c) = false)
             then pv * ent M i j - ent M i c * ent M r j
             else ent M i j.
Proof.
  intros Hwf. unfold zero_column.
  set (body := λ (row : nat) (M0 : Matrix Z),
    if decide (row = r) then M0
    else if f (ent M0 row c) then M0
         else cross_cancel M0 pv row (ent M0 row c) r).
  set (Inv := λ (k : nat) (M' : Matrix Z), same_shape M M' ∧ ∀ i j,
      ent M' i j
      = if decide ((i < k)%nat ∧ i ≠ r ∧ f (ent M i c) = false)
        then pv * ent M i j - ent M i c * ent M r j else ent M i j).
  assert (Inv (rows M) (for_range 0 (rows M) body M)) as [Hs He].
  { apply (for_range_ind Inv); unfold Inv; clear Inv.
    - split; [by split|]. intros i j. by rewrite decide_False by lia.
    - intros k M' Hk [[Hwf' Hr' Hc'] He]. simpl. unfold body.
      assert (∀ j, ent M' r j = ent M r j) as Hrj.
      { intros j. rewrite He. by rewrite decide_False by (intros (?&?&?); done). }
      assert (∀ j, ent M' k j = ent M k j) as Hkj.
      { intros j. rewrite He. by rewrite decide_False by lia. }
      assert (∀ i j, i ≠ k →
        (if decide ((i < k)%nat ∧ i ≠ r ∧ f (ent M i c) = false)
         then pv * ent M i j - ent M i c * ent M r j else ent M i j)
        = (if decide ((i < S k)%nat ∧ i ≠ r ∧ f (ent M i c) = false)
           then pv * ent M i j - ent M i c * ent M r j else ent M i j))
        as Hext.
      { intros i j Hik. apply decide_ext. split; intros (?&?&?);
          split_and!; (done || lia). }
      rewrite Hkj. case_decide as Hkr.
      { split; [done|]. intros i j. rewrite He.
        destruct (decide (i = k)) as [->|Hik]; [|by apply Hext].
        rewrite !decide_False; [done | |]; intros (?&?&?); (done || lia). }
      destruct (f (ent M k c)) eqn:Hf.
      { split; [done|]. intros i j. rewrite He.
        destruct (decide (i = k)) as [->|Hik]; [|by apply Hext].
        rewrite !decide_False; [done | |]; intros (?&?&?);
          (congruence || lia). }
      destruct (cross_cancel_spec M' pv k (ent M k c) r Hwf' Hkr ltac:(lia))
        as [[Hwf'' Hr'' Hc''] He'].
      split; [split; [done | congruence | congruence]|].
      intros i j. rewrite He'.
      destruct (decide (i = k)) as [->|Hik].
      + rewrite Hkj, Hrj.
        by rewrite decide_True by (split_and?; (done || lia)).
      + rewrite He. by apply Hext. }
  done.
Qed.

Lemma find_reasonable_pivot_Some f M r c off :
  find_reasonable_pivot f M r c = Some off →
  (r + off < rows M)%nat ∧ f (ent M (r + off) c) = false.
Proof.
  unfold find_reasonable_pivot. intros H.
  pose proof (head_filter_seq (λ o, f (ent M (r + o) c) = false) 0
                (rows M - r)) as Hh.
  rewrite H in Hh. destruct Hh as (Hr & Hnz & _). split; [lia | done].
Qed.

Lemma find_reasonable_pivot_None f M r c :
  find_reasonable_pivot f M r c = None →
  ∀ j, (r ≤ j < rows M)%nat → f (ent M j c) = true.
Proof.
  unfold find_reasonable_pivot. intros H.
  pose proof (head_filter_seq (λ o, f (ent M (r + o) c) = false) 0
                (rows M - r)) as Hh.
  rewrite H in Hh. intros j Hj. specialize (Hh (j - r)%nat ltac:(lia)).
  replace (r + (j - r))%nat with j in Hh by lia.
  by destruct (f (ent M j c)).
Qed.

(** One pivot of the library's loop is an elimination step modulo 2. *)
Lemma reduce_step_spec M r c off :
  well_formed M → (c < cols M)%nat →
  find_reasonable_pivot Simon.iszero_mod2 M r c = Some off →
  let pr := (r + off)%nat in
  let Y := if decide (off ≠ 0%nat) then row_swap M r pr else M in
  let M' := zero_column Simon.iszero_mod2 Y r c (ent M pr c) in
  same_shape M M'
  ∧ gauss_step 2 (rows M) (cols M) (ent M) (ent M') r c pr 1.
Proof.
  intros Hwf Hc Hfind pr Y M'.
  apply find_reasonable_pivot_Some in Hfind as [Hpr Hodd]. fold pr in Hpr, Hodd.
  apply iszero_mod2_false in Hodd.
  assert (same_shape M Y ∧ ∀ i j, ent Y i j = ent M (swapidx r pr i) j)
    as [[HwfY HrY HcY] HeY].
  { unfold Y. case_decide as Hne.
    - split; [split|].
      + by apply well_formed_row_swap.
      + apply rows_row_swap.
      + apply cols_row_swap.
      + intros i j. by rewrite entry_row_swap by (done || lia).
    - assert (pr = r) as -> by (unfold pr; lia).
      split; [by apply same_shape_refl|].
      intros i j. by rewrite swapidx_same. }
  assert (swapidx r pr r = pr) as Hsr.
  { unfold swapidx. by rewrite decide_True. }
  destruct (zero_column_spec Simon.iszero_mod2 Y r c (ent M pr c) HwfY)
    as [[HwfM' HrM' HcM'] HeM']. fold M' in HwfM', HrM', HcM', HeM'.
  split; [split; congruence|].
  split.
  - unfold pr. lia.
  - by rewrite Z.mul_1_l.
  - intros j Hj. rewrite HeM'.
    rewrite decide_False by (intros (?&?&?); done).
    rewrite HeY, Hsr. by rewrite Z.mul_1_l.
  - intros i j Hi Hne Hj. rewrite !HeM'.
    rewrite (decide_False (P := (r < rows Y)%nat ∧ r ≠ r ∧ _))
      by (intros (?&?&?); done).
    rewrite !HeY, Hsr. case_decide as Hcond.
    + rewrite Hodd. apply cong_of_eq. lia.
    + assert (cong 2 (ent M (swapidx r pr i) c) 0) as ->.
      { apply iszero_mod2_true.
        destruct (Simon.iszero_mod2 (ent M (swapidx r pr i) c)) eqn:Hz;
          [done|].
        exfalso. apply Hcond. split_and!; [lia | done | done]. }
      apply cong_of_eq. lia.
Qed.

Lemma row_reduce_spec len : ∀ c M r P,
  well_formed M → (c + len = cols M)%nat →
  echelon 2 (rows M) (ent M) P c → length P = r →
  ∃ M' P' c',
    row_reduce Simon.iszero_mod2 (seq c len) M r P = (M', P')
    ∧ same_shape M M'
    ∧ echelon 2 (rows M) (ent M') P' c'
    ∧ (c' ≤ cols M)%nat
    ∧ (length P' = rows M ∨ c' = cols M)
    ∧ rowspan 2 (rows M) (cols M) (ent M) (ent M').
Proof.
  induction len as [|len IH]; intros c M r P Hwf Hc Hech Hr.
  - exists M, P, c. simpl.
    split_and!; [done | by apply same_shape_refl | done | lia | right; lia
                | apply rowspan_refl].
  - cbn [seq row_reduce]. case_decide as Hrow.
    2:{ exists M, P, c.
        split_and!; [done | by apply same_shape_refl | done | lia | | apply rowspan_refl].
        left. pose proof (ech_rank _ _ _ _ _ Hech). lia. }
    destruct (find_reasonable_pivot Simon.iszero_mod2 M r c) as [off|] eqn:Hfind.
    + destruct (reduce_step_spec M r c off Hwf ltac:(lia) Hfind)
        as [[Hwf1 Hr1 Hc1] Hstep].
      cbv zeta in Hwf1, Hr1, Hc1, Hstep.
      set (M1 := zero_column Simon.iszero_mod2
                   (if decide (off ≠ 0%nat) then row_swap M r (r + off) else M)
                   r c (ent M (r + off) c)) in *.
      pose proof (echelon_step 2 (rows M) (cols M) (ent M) (ent M1) P r c
                    (r + off) 1 Hech Hr ltac:(lia) Hstep) as Hech1.
      pose proof (rowspan_step 2 (rows M) (cols M) (ent M) (ent M1) r c
                    (r + off) 1 ltac:(lia) Hstep) as Hspan1.
      destruct (IH (S c) M1 (S r) (P ++ [c])) as
        (M' & P' & c' & Hrun & [Hwf' Hr' Hc'] & Hech' & Hc'le & Hfin & Hspan').
      * done.
      * lia.
      * by rewrite Hr1.
      * rewrite length_app. simpl. lia.
      * rewrite Hr1, Hc1 in *.
        exists M', P', c'.
        split_and!; [done | split; congruence | done | done | done |].
        by eapply rowspan_trans.
    + pose proof (find_reasonable_pivot_None _ M r c Hfind) as Hzero.
      destruct (IH (S c) M r P) as
        (M' & P' & c' & Hrun & Hs' & Hech' & Hc'le & Hfin & Hspan').
      * done.
      * lia.
      * apply echelon_skip; [done|]. intros j Hj Hjn.
        apply iszero_mod2_true, Hzero. lia.
      * done.
      * by exists M', P', c'.
Qed.

(** *** The normalisation and the reduction of the numerators *)

Abbreviation qent := (entry 0%Q).

Definition normalized_entry (x pv : Q) (j pj : nat) : Q :=
  if decide (j = pj) then 1%Q
  else if decide (pj < j)%nat then rational (x / pv) else x.

Lemma normalize_pivot_row_spec (M : Matrix Q) i pj :
  well_formed M → (i < rows M)%nat → (pj < cols M)%nat →
  same_shape M (normalize_pivot_row M i pj)
  ∧ ∀ i' j, (j < cols M)%nat →
      qent (normalize_pivot_row M i pj) i' j
      = if decide (i' = i)
        then normalized_entry (qent M i j) (qent M i pj) j pj
        else qent M i' j.
Proof.
  intros Hwf Hi Hpj. unfold normalize_pivot_row.
  set (pv := qent M i pj).
  set (M1 := set_entry M i pj 1%Q).
  set (body := λ (p : nat) (M0 : Matrix Q),
    set_entry M0 i p (rational (qent M0 i p / pv))).
  change (cols M1) with (cols M).
  set (Inv := λ (k : nat) (M' : Matrix Q), same_shape M M' ∧ ∀ i' j,
      qent M' i' j
      = if decide (i' = i)
        then (if decide (j = pj) then 1%Q
              else if decide (pj < j < S pj + k)%nat
                   then rational (qent M i j / pv) else qent M i j)
        else qent M i' j).
  assert (Inv (cols M - S pj)%nat
            (for_range (S pj) (cols M - S pj) body M1)) as [Hs He].
  { apply (for_range_ind Inv); unfold Inv; clear Inv.
    - split; [split; [by apply well_formed_set_entry | done | done]|].
      intros i' j. unfold M1. rewrite entry_set_entry by done.
      repeat case_decide; try lia; destruct_and?; subst; try (done || lia);
        exfalso; naive_solver lia.
    - intros k M' Hk [[Hwf' Hr' Hc'] He]. split.
      + split; [by apply well_formed_set_entry | done | done].
      + intros i' j. unfold body. rewrite entry_set_entry by done. rewrite !He.
        rewrite Hr', Hc'.
        rewrite (decide_True (P := i = i)) by done.
        rewrite (decide_False (P := (S pj + k)%nat = pj)) by lia.
        rewrite (decide_False (P := (pj < S pj + k < S pj + k)%nat)) by lia.
        repeat case_decide; try lia; destruct_and?; subst; try (done || lia);
          exfalso; naive_solver lia. }
  split; [done|]. intros i' j Hj. rewrite He. unfold normalized_entry.
  repeat case_decide; try lia; destruct_and?; subst; try (done || lia);
    exfalso; naive_solver lia.
Qed.

Lemma normalize_snoc (M : Matrix Q) P pc :
  normalize M (P ++ [pc])
  = normalize_pivot_row (normalize M P) (length P) pc.
Proof.
  unfold normalize. rewrite imap_app, foldl_app. simpl.
  by rewrite Nat.add_0_r.
Qed.

(** The entries of the normalised matrix, for a list of pivots that has one
    pivot per row. *)
Lemma normalize_spec (R : Matrix Z) : ∀ P,
  well_formed R →
  (∀ i pi, P !! i = Some pi → (i < rows R)%nat ∧ (pi < cols R)%nat) →
  same_shape R (normalize (applyfunc inject_Z R) P)
  ∧ ∀ i j, (j < cols R)%nat →
      qent (normalize (applyfunc inject_Z R) P) i j
      = match P !! i with
        | Some pj =>
            normalized_entry (inject_Z (ent R i j)) (inject_Z (ent R i pj))
              j pj
        | None => inject_Z (ent R i j)
        end.
Proof.
  intros P Hwf. induction P as [|pc P IH] using rev_ind; intros HP.
  - split; [by apply same_shape_applyfunc|]. intros i j Hj.
    rewrite lookup_nil. unfold normalize. simpl.
    apply (entry_applyfunc inject_Z 0 R i j).
  - destruct IH as [[HwfN HrN HcN] HeN].
    { intros i pi Hi. apply (HP i pi). by apply lookup_app_l_Some. }
    destruct (HP (length P) pc) as [Hlen Hpc].
    { by rewrite lookup_app_r, Nat.sub_diag by lia. }
    rewrite normalize_snoc.
    destruct (normalize_pivot_row_spec (normalize (applyfunc inject_Z R) P)
                (length P) pc HwfN ltac:(lia) ltac:(lia)) as [[Hwf' Hr' Hc'] He'].
    split; [split; congruence|].
    intros i j Hj. rewrite He' by lia.
    destruct (decide (i = length P)) as [->|Hne].
    + rewrite lookup_app_r, Nat.sub_diag by lia. simpl.
      rewrite !HeN by lia. by rewrite (lookup_ge_None_2 P) by lia.
    + rewrite HeN by lia.
      destruct (decide (i < length P)%nat).
      * by rewrite lookup_app_l by lia.
      * rewrite !lookup_ge_None_2; [done | | lia].
        rewrite length_app. simpl. lia.
Qed.

(** After normalisation the numerators have the parity of the entries that
    the elimination left. *)
Lemma final_entries (R : Matrix Z) P c' :
  well_formed R → echelon 2 (rows R) (ent R) P c' → (c' ≤ cols R)%nat →
  let F := applyfunc Simon.mod2 (normalize (applyfunc inject_Z R) P) in
  same_shape R F
  ∧ ∀ i j, (i < rows R)%nat → (j < cols R)%nat →
      ent F i j = ent R i j mod 2.
Proof.
  intros Hwf Hech Hc' F.
  assert (∀ i pi, P !! i = Some pi → (i < rows R)%nat ∧ (pi < cols R)%nat)
    as HP.
  { intros i pi Hi. pose proof (lookup_lt_Some _ _ _ Hi).
    pose proof (ech_rank _ _ _ _ _ Hech).
    pose proof (ech_bound _ _ _ _ _ Hech i pi Hi). lia. }
  destruct (normalize_spec R P Hwf HP) as [HsN HeN].
  split.
  { eapply same_shape_trans; [exact HsN|].
    apply same_shape_applyfunc. apply HsN. }
  intros i j Hi Hj. unfold F.
  pose proof (entry_applyfunc Simon.mod2 0%Q
                (normalize (applyfunc inject_Z R) P) i j) as H.
  change (Simon.mod2 0%Q) with 0 in H. rewrite H, HeN by done.
  apply mod2_parity.
  destruct (P !! i) as [pj|] eqn:Hpi; [|apply inject_parity].
  unfold normalized_entry. case_decide as Hjp.
  - subst j. split; [done|].
    pose proof (ech_pivot _ _ _ _ _ Hech i pj Hpi) as Hodd.
    apply cong_2_odd in Hodd. by rewrite Hodd.
  - case_decide; [|apply inject_parity].
    apply Qred_parity, div_parity.
    apply cong_2_odd. by eapply ech_pivot.
Qed.

(** [M.rref(iszerofunc=lambda x: x % 2 == 0)[0].applyfunc(mod2)] is in
    echelon form modulo 2, has entries 0 and 1, and its rows span those of
    [M]. *)
Lemma rref_mod2_spec (M : Matrix Z) :
  well_formed M →
  let F := applyfunc Simon.mod2 (fst (rref Simon.iszero_mod2 M)) in
  ∃ P c',
    same_shape M F
    ∧ (∀ i j, (i < rows M)%nat → (j < cols M)%nat → 0 ≤ ent F i j < 2)
    ∧ snd (rref Simon.iszero_mod2 M) = P
    ∧ echelon 2 (rows M) (ent F) P c'
    ∧ (c' ≤ cols M)%nat
    ∧ (length P = rows M ∨ c' = cols M)
    ∧ rowspan 2 (rows M) (cols M) (ent M) (ent F).
Proof.
  intros Hwf F. unfold rref in F.
  destruct (row_reduce_spec (cols M) 0 M 0 [] Hwf ltac:(lia)
              (echelon_nil 2 _ _) eq_refl)
    as (R & P & c' & Hrun & [HwfR HrR HcR] & HechR & Hc' & Hfin & Hspan).
  unfold rref. subst F. rewrite Hrun. cbn [fst snd].
  rewrite <-HrR in HechR. rewrite <-HcR in Hc'.
  destruct (final_entries R P c' HwfR HechR Hc') as [[HwfF HrF HcF] HeF].
  rewrite ?HrR, ?HcR in *.
  exists P, c'. split_and!; [split; congruence | | done | | done | done |].
  - intros i j Hi Hj. rewrite HeF by lia. apply Z.mod_pos_bound. lia.
  - eapply (echelon_ext 2 (rows M) (cols M)); [done | | exact HechR].
    intros i j Hi Hj. rewrite HeF by lia. apply cong_mod.
  - eapply rowspan_trans; [exact Hspan|].
    apply rowspan_of_cong. intros i j Hi Hj. rewrite HeF by lia.
    symmetry. apply cong_mod.
Qed.

End SympyFacts.

(** ** From the lists of the code to the matrices of the theory *)
Module Bridge.
Import ModArith RowReduction MatrixFacts TernaryFacts.

Lemma entry_nth (M : Matrix Z) i j :
  ent M i j = nth j (nth i (mat M) []) 0.
Proof.
  unfold entry. rewrite !nth_lookup.
  destruct (mat M !! i) as [row|]; simpl; [done|]. by destruct j.
Qed.

Lemma row_lookup (M : Matrix Z) i :
  well_formed M → (i < rows M)%nat →
  mat M !! i = Some (map (λ j, ent M i j) (seq 0 (cols M))).
Proof.
  intros [Hr Hc] Hi.
  destruct (lookup_lt_is_Some_2 (mat M) i) as [row Hrow]; [lia|].
  rewrite Hrow. f_equal.
  rewrite list.Forall_forall in Hc.
  assert (length row = cols M) as Hl
    by (apply Hc; by eapply list_elem_of_lookup_2).
  apply list_eq. intros j. rewrite list_lookup_fmap.
  destruct (decide (j < cols M)%nat) as [Hj|Hj].
  - rewrite lookup_seq_lt by done. simpl. unfold entry. rewrite Hrow. simpl.
    destruct (lookup_lt_is_Some_2 row j) as [x Hx]; [lia|]. by rewrite Hx.
  - rewrite lookup_seq_ge by lia. by rewrite lookup_ge_None_2 by lia.
Qed.

Lemma Matrix_of_rows_spec (l : list (list Z)) n :
  l ≠ [] → Forall (λ row, length row = n) l →
  ∃ A, Matrix_of_rows l = Some A
       ∧ well_formed A ∧ rows A = length l ∧ cols A = n ∧ mat A = l.
Proof.
  intros Hne Hl. unfold Matrix_of_rows.
  destruct l as [|r0 l']; [done|].
  pose proof (proj1 (proj1 (list.Forall_cons _ _ _) Hl)) as H0. simpl in H0.
  rewrite decide_True.
  - eexists. split; [done|]. split_and!; try done.
    split; simpl; [done|]. by rewrite H0.
  - by rewrite H0.
Qed.

Lemma transpose_spec (A : Matrix Z) :
  same_shape (mk_Matrix (cols A) (rows A) (mat A)) (transpose A)
  ∧ ∀ i j, (i < cols A)%nat → (j < rows A)%nat →
      ent (transpose A) i j = ent A j i.
Proof.
  split.
  - split; simpl; [|done|done]. split; simpl.
    + by rewrite length_map, length_seq.
    + apply list.Forall_fmap, list.Forall_forall. intros j _. simpl.
      by rewrite length_map, length_seq.
  - intros i j Hi Hj. unfold entry at 1, transpose. simpl.
    rewrite list_lookup_fmap, lookup_seq_lt by done. simpl.
    rewrite list_lookup_fmap, lookup_seq_lt by done. done.
Qed.

Lemma hstack_eye_spec (M : Matrix Z) :
  well_formed M →
  same_shape (mk_Matrix (rows M) (cols M + rows M) (mat M)) (hstack_eye M)
  ∧ (∀ i j, (i < rows M)%nat → (j < cols M)%nat →
       ent (hstack_eye M) i j = ent M i j)
  ∧ (∀ i w, (i < rows M)%nat → (w < rows M)%nat →
       ent (hstack_eye M) i (cols M + w) = delta i w).
Proof.
  intros [Hr Hc]. rewrite list.Forall_forall in Hc.
  assert (∀ i, (i < rows M)%nat → ∃ row,
    mat M !! i = Some row ∧ length row = cols M
    ∧ mat (hstack_eye M) !! i = Some (row ++ eye_row (rows M) i)) as Hrow.
  { intros i Hi.
    destruct (lookup_lt_is_Some_2 (mat M) i) as [row Hrow]; [lia|].
    exists row. split_and!; [done | |].
    - apply Hc. by eapply list_elem_of_lookup_2.
    - unfold hstack_eye. simpl. by rewrite list_lookup_imap, Hrow. }
  split_and!.
  - split; simpl; [|done|done]. split; simpl.
    + by rewrite length_imap.
    + apply list.Forall_forall. intros x Hx.
      apply list_elem_of_lookup_1 in Hx as [i Hx].
      rewrite list_lookup_imap in Hx.
      destruct (mat M !! i) as [row|] eqn:Hi; [|done]. simpl in Hx.
      injection Hx as <-. rewrite length_app. unfold eye_row.
      rewrite length_map, length_seq.
      f_equal. apply Hc. by eapply list_elem_of_lookup_2.
  - intros i j Hi Hj. destruct (Hrow i Hi) as (row & H1 & H2 & H3).
    unfold entry. rewrite H3, H1. simpl. by rewrite lookup_app_l by lia.
  - intros i w Hi Hw. destruct (Hrow i Hi) as (row & H1 & H2 & H3).
    unfold entry. rewrite H3. simpl. rewrite lookup_app_r by lia.
    replace (cols M + w - length row)%nat with w by lia.
    unfold eye_row. rewrite list_lookup_fmap, lookup_seq_lt by done. simpl.
    unfold delta. repeat case_decide; (done || lia).
Qed.

Lemma dot_sumn (u v : list Z) :
  dot u v = sumn (length u) (λ j, nth j u 0 * nth j v 0).
Proof.
  revert v. induction u as [|a u IH]; intros v; [done|].
  cbn [length]. rewrite sumn_shift.
  destruct v as [|c v].
  - unfold dot. simpl. rewrite sumn_zero; [lia|].
    intros t _. destruct t; lia.
  - change (dot (a :: u) (c :: v)) with (a * c + dot u v).
    rewrite IH. done.
Qed.

Lemma nth_map_seq {A} (f : nat → A) (d : A) lo len j :
  (j < len)%nat → nth j (map f (seq lo len)) d = f (lo + j)%nat.
Proof.
  intros Hj. rewrite nth_lookup, list_lookup_fmap, lookup_seq_lt by done.
  done.
Qed.

Lemma nth_ge {A} (l : list A) (d : A) j :
  (length l ≤ j)%nat → nth j l d = d.
Proof. intros Hj. by rewrite nth_lookup, lookup_ge_None_2. Qed.

Lemma list_as_map_nth (l : list Z) :
  l = map (λ w, nth w l 0) (seq 0 (length l)).
Proof.
  apply list_eq. intros j. rewrite list_lookup_fmap.
  destruct (decide (j < length l)%nat) as [Hj|Hj].
  - rewrite lookup_seq_lt by done. simpl. rewrite nth_lookup.
    destruct (lookup_lt_is_Some_2 l j) as [x Hx]; [lia|]. by rewrite Hx.
  - rewrite lookup_seq_ge by lia. by rewrite lookup_ge_None_2 by lia.
Qed.

(** The hypotheses on the lists of the code, turned into the hypotheses of
    [NullVector]. *)
Lemma independent_fun p (eqs : list (list Z)) n k :
  length eqs = k → Forall (λ v, length v = n) eqs → independent p eqs →
  ∀ x : nat → Z,
    (∀ u, (u < n)%nat →
       cong p (sumn k (λ j, x j * nth u (nth j eqs []) 0)) 0) →
    ∀ j, (j < k)%nat → cong p (x j) 0.
Proof.
  intros Hk Hlen Hind x Hx j Hj.
  rewrite list.Forall_forall in Hlen.
  assert (Forall (λ c, c mod p = 0) (map x (seq 0 k))) as Hall.
  { apply Hind; [by rewrite length_map, length_seq|].
    intros t. rewrite dot_sumn, length_map, length_seq.
    assert (∀ j', (j' < k)%nat →
      nth j' (map x (seq 0 k)) 0 * nth j' (column t eqs) 0
      = x j' * nth t (nth j' eqs []) 0) as Hterm.
    { intros j' Hj'. rewrite nth_map_seq by done. simpl. f_equal.
      unfold column. rewrite !nth_lookup, list_lookup_fmap.
      destruct (lookup_lt_is_Some_2 eqs j') as [v Hv]; [lia|].
      rewrite Hv. simpl. by rewrite nth_lookup. }
    rewrite (sumn_ext _ _ _ Hterm).
    destruct (decide (t < n)%nat) as [Ht|Ht].
    - specialize (Hx t Ht). apply cong_iff in Hx. rewrite Hx.
      apply Zmod_0_l.
    - rewrite sumn_zero; [apply Zmod_0_l|]. intros j' Hj'.
      rewrite (nth_ge (nth j' eqs [])); [lia|].
      destruct (lookup_lt_is_Some_2 eqs j') as [v Hv]; [lia|].
      rewrite (nth_lookup eqs), Hv. simpl.
      rewrite (Hlen v); [lia|]. by eapply list_elem_of_lookup_2. }
  rewrite list.Forall_forall in Hall. apply cong_iff.
  rewrite (Hall (x j)); [by rewrite Zmod_0_l|].
  apply list_elem_of_fmap. exists j. split; [done|].
  apply elem_of_seq. lia.
Qed.

Lemma orthogonal_fun p (eqs : list (list Z)) (s : list Z) n k :
  length eqs = k → Forall (λ v, length v = n) eqs →
  Forall (λ v, dot v s mod p = 0) eqs →
  ∀ j, (j < k)%nat →
    cong p (sumn n (λ u, nth u s 0 * nth u (nth j eqs []) 0)) 0.
Proof.
  intros Hk Hlen Horth j Hj.
  rewrite list.Forall_forall in Hlen, Horth.
  destruct (lookup_lt_is_Some_2 eqs j) as [v Hv]; [lia|].
  assert (v ∈ eqs) as Hin by (by eapply list_elem_of_lookup_2).
  rewrite (nth_lookup eqs), Hv. simpl. apply cong_iff.
  rewrite Zmod_0_l. etransitivity; [|exact (Horth v Hin)].
  rewrite dot_sumn, (Hlen v Hin).
  f_equal. apply sumn_ext. intros. apply Z.mul_comm.
Qed.

(** The augmented matrix [[M | I]] built from the list of equations. *)
Lemma augmented_spec (A : Matrix Z) :
  well_formed A →
  let X0 := hstack_eye (transpose A) in
  well_formed X0 ∧ rows X0 = cols A ∧ cols X0 = (rows A + cols A)%nat
  ∧ (∀ t j, (t < cols A)%nat → (j < rows A)%nat →
       ent X0 t j = ent A j t)
  ∧ (∀ t w, (t < cols A)%nat → (w < cols A)%nat →
       ent X0 t (rows A + w) = delta t w).
Proof.
  intros Hwf X0.
  destruct (transpose_spec A) as [[HwfT HrT HcT] HeT]. simpl in HrT, HcT.
  destruct (hstack_eye_spec (transpose A) HwfT) as ([HwfX HrX HcX] & HeL & HeR).
  simpl in HrX, HcX. fold X0 in HwfX, HrX, HcX, HeL, HeR.
  split_and!; [done | done | done | |].
  - intros t j Ht Hj. rewrite HeL by done. by apply HeT.
  - intros t w Ht Hw. by apply HeR.
Qed.

(** The first element of a list that satisfies a test. *)
Lemma find_first {A} (f : A → bool) (l : list A) i0 x :
  l !! i0 = Some x → f x = true →
  (∀ i y, (i < i0)%nat → l !! i = Some y → f y = false) →
  find f l = Some x.
Proof.
  revert i0. induction l as [|a l IH]; intros i0 Hx Hfx Hbefore; [done|].
  destruct i0 as [|i0]; simpl in *.
  - injection Hx as ->. by rewrite Hfx.
  - rewrite (Hbefore 0%nat a) by (done || lia).
    apply (IH i0); [done | done |].
    intros i y Hi Hy. apply (Hbefore (S i) y); [lia | done].
Qed.

Lemma find_snoc {A} (f : A → bool) (l : list A) x :
  find f (l ++ [x])
  = match find f l with
    | Some y => Some y
    | None => if f x then Some x else None
    end.
Proof.
  induction l as [|a l IH]; simpl; [done|]. by destruct (f a).
Qed.

End Bridge.

(** ** The secret read off the reduced matrix *)
Module Solution.
Import ModArith RowReduction MatrixFacts TernaryFacts Bridge.

Section LastRow.
Variable p : Z.
Hypothesis Hp : 1 < p.
Variables n k : nat.
Hypothesis Hn : n = S k.
Variable eqs : list (list Z).
Variable s : list Z.
Hypothesis Hk : length eqs = k.
Hypothesis Hlen : Forall (λ v, length v = n) eqs.
Hypothesis Hind : independent p eqs.
Hypothesis Horth : Forall (λ v, dot v s mod p = 0) eqs.
Variable A : Matrix Z.
Hypothesis HwfA : well_formed A.
Hypothesis HrA : rows A = k.
Hypothesis HcA : cols A = n.
Hypothesis HeA : ∀ j t, (j < k)%nat → (t < n)%nat →
  cong p (ent A j t) (nth t (nth j eqs []) 0).
Variable F : Matrix Z.
Variable P : list nat.
Variable cf : nat.
Hypothesis Hech : echelon p n (ent F) P cf.
Hypothesis Hcf : (cf ≤ k + n)%nat.
Hypothesis Hfinal : length P = n ∨ cf = (k + n)%nat.
Hypothesis Hspan :
  rowspan p n (k + n) (ent (hstack_eye (transpose A))) (ent F).

Let v (j u : nat) : Z := nth u (nth j eqs []) 0.
Let sf (u : nat) : Z := nth u s 0.

Lemma augmented_left t j :
  (t < n)%nat → (j < k)%nat →
  cong p (ent (hstack_eye (transpose A)) t j) (v j t).
Proof.
  intros Ht Hj. destruct (augmented_spec A HwfA) as (_ & _ & _ & HL & _).
  rewrite HL by lia. by apply HeA.
Qed.

Lemma augmented_right t w :
  (t < n)%nat → (w < n)%nat →
  cong p (ent (hstack_eye (transpose A)) t (k + w)) (delta t w).
Proof.
  intros Ht Hw. destruct (augmented_spec A HwfA) as (_ & _ & _ & _ & HR).
  rewrite <-HrA. by rewrite HR by lia.
Qed.

Lemma first_pivots i : (i < k)%nat → P !! i = Some i.
Proof.
  intros Hi.
  apply (NullVector.pivots_first p Hp n k Hn _ (ent F) P cf v
           augmented_left augmented_right Hspan Hech Hcf Hfinal
           (independent_fun p eqs n k Hk Hlen Hind) k); lia.
Qed.

Lemma last_row_left c' : (c' < k)%nat → cong p (ent F k c') 0.
Proof.
  apply (NullVector.last_row_zero p Hp n k Hn _ (ent F) P cf v
           augmented_left augmented_right Hspan Hech Hcf Hfinal
           (independent_fun p eqs n k Hk Hlen Hind)).
Qed.

Lemma last_row_multiple :
  ∃ l, ∀ w, (w < n)%nat → cong p (sf w) (l * ent F k (k + w)).
Proof.
  apply (NullVector.secret_multiple p Hp n k Hn _ (ent F) P cf v
           augmented_left augmented_right Hspan Hech Hcf Hfinal
           (independent_fun p eqs n k Hk Hlen Hind) sf).
  apply (orthogonal_fun p eqs s n k Hk Hlen Horth).
Qed.

Lemma last_row_has_pivot :
  (∃ w, (w < n)%nat ∧ ¬ cong p (sf w) 0) →
  ∃ pc, P !! k = Some pc ∧ (k ≤ pc)%nat ∧ (pc < k + n)%nat
        ∧ cong p (ent F k pc) 1
        ∧ ∀ c', (c' < pc)%nat → cong p (ent F k c') 0.
Proof.
  apply (NullVector.last_row_pivot p Hp n k Hn _ (ent F) P cf v
           augmented_left augmented_right Hspan Hech Hcf Hfinal
           (independent_fun p eqs n k Hk Hlen Hind) sf).
  apply (orthogonal_fun p eqs s n k Hk Hlen Horth).
Qed.

Lemma pivot_columns_shape :
  (∃ w, (w < n)%nat ∧ ¬ cong p (sf w) 0) →
  ∃ pc, P = seq 0 k ++ [pc] ∧ (k ≤ pc)%nat ∧ (pc < k + n)%nat.
Proof.
  intros Hnz. destruct (last_row_has_pivot Hnz) as (pc & Hpc & Hlo & Hhi & _).
  exists pc. split; [|done]. apply list_eq. intros i.
  pose proof (ech_rank _ _ _ _ _ Hech) as Hrank.
  destruct (decide (i < k)%nat) as [Hi|Hi].
  - rewrite first_pivots by done.
    rewrite lookup_app_l by (rewrite length_seq; lia).
    by rewrite lookup_seq_lt.
  - destruct (decide (i = k)) as [->|Hik].
    + rewrite Hpc, lookup_app_r by (rewrite length_seq; lia).
      rewrite length_seq. by replace (k - k)%nat with 0%nat by lia.
    + rewrite !lookup_ge_None_2; [done | |lia].
      rewrite length_app, length_seq. simpl. lia.
Qed.

End LastRow.

Lemma take_row (f : nat → Z) k n :
  take k (map f (seq 0 (k + n))) = map f (seq 0 k).
Proof.
  rewrite <-fmap_take, take_seq. by replace (k `min` (k + n))%nat with k by lia.
Qed.

Lemma drop_row (f : nat → Z) k n :
  drop k (map f (seq 0 (k + n))) = map (λ w, f (k + w)%nat) (seq 0 n).
Proof.
  rewrite <-fmap_drop, drop_seq.
  replace (k + n - k)%nat with n by lia.
  replace (0 + k)%nat with (k + 0)%nat by lia.
  rewrite <-(fmap_add_seq k 0 n), <-list_fmap_compose. done.
Qed.

Lemma forallb_map_seq (g : Z → bool) (f : nat → Z) k :
  (∀ j, (j < k)%nat → g (f j) = true) →
  forallb g (map f (seq 0 k)) = true.
Proof.
  intros H. apply forallb_forall. intros x Hx.
  apply in_map_iff in Hx as (j & <- & Hj). apply in_seq in Hj.
  apply H. lia.
Qed.

Lemma forallb_map_seq_false (g : Z → bool) (f : nat → Z) k j :
  (j < k)%nat → g (f j) = false → forallb g (map f (seq 0 k)) = false.
Proof.
  intros Hj Hg. destruct (forallb g (map f (seq 0 k))) eqn:Hall; [|done].
  rewrite forallb_forall in Hall. rewrite <-Hg. symmetry. apply Hall.
  apply in_map_iff. exists j. split; [done|]. apply in_seq. lia.
Qed.

(** *** The binary case *)

Lemma nth_Forall {A} (Q : A → Prop) (l : list A) (d : A) w :
  Forall Q l → (w < length l)%nat → Q (nth w l d).
Proof.
  intros HQ Hw. rewrite list.Forall_forall in HQ. apply HQ.
  rewrite nth_lookup.
  destruct (lookup_lt_is_Some_2 l w) as [x Hx]; [lia|]. rewrite Hx. simpl.
  by eapply list_elem_of_lookup_2.
Qed.

Lemma solve_equation_secret (n : nat) (eqs : list (list Z)) (s : list Z) :
  (2 ≤ n)%nat →
  length eqs = (n - 1)%nat →
  Forall (λ v, length v = n) eqs →
  independent 2 eqs →
  length s = n →
  Forall (λ d, d = 0 ∨ d = 1) s →
  Exists (λ d, d ≠ 0) s →
  Forall (λ v, dot v s mod 2 = 0) eqs →
  Simon.solve_equation eqs = Some (join_digits s).
Proof.
  intros Hn Hk Hlen Hind Hs Hbits Hnz Horth.
  set (k := (n - 1)%nat) in *. assert (n = S k) as HnS by (unfold k; lia).
  destruct (Matrix_of_rows_spec eqs n) as (A & HA & HwfA & HrA & HcA & HmA).
  { intros ->. simpl in Hk. lia. }
  { done. }
  rewrite Hk in HrA.
  unfold Simon.solve_equation. rewrite HA. cbn [mbind option_bind].
  destruct (augmented_spec A HwfA) as (HwfX & HrX & HcX & _ & _).
  set (X0 := hstack_eye (transpose A)) in *.
  destruct (SympyFacts.rref_mod2_spec X0 HwfX)
    as (P & c' & [HwfF HrF HcF] & Hrange & _ & Hech & Hc' & Hfin & Hspan).
  set (F := applyfunc Simon.mod2 (fst (Sympy.rref Simon.iszero_mod2 X0))) in *.
  rewrite HrX, HcA in *. rewrite HcX, HrA in *.
  assert (∀ j t, (j < k)%nat → (t < n)%nat →
            cong 2 (ent A j t) (nth t (nth j eqs []) 0)) as HeA.
  { intros j t _ _. by rewrite entry_nth, HmA. }
  pose proof (last_row_left 2 ltac:(lia) n k HnS eqs Hk Hlen Hind
                A HwfA HrA HcA HeA F P c' Hech Hc' Hfin Hspan) as Hleft.
  destruct (last_row_multiple 2 ltac:(lia) n k HnS eqs s Hk Hlen Hind Horth
              A HwfA HrA HcA HeA F P c' Hech Hc' Hfin Hspan) as [l Hl].
  assert (∀ w, (w < n)%nat → nth w s 0 = 0 ∨ nth w s 0 = 1) as Hbit.
  { intros w Hw. apply (nth_Forall (λ d, d = 0 ∨ d = 1)); [done | lia]. }
  (* the multiplier is odd *)
  assert (cong 2 l 1) as Hlodd.
  { apply list.Exists_exists in Hnz as (d & Hd & Hdnz).
    apply list_elem_of_lookup_1 in Hd as [w Hw].
    pose proof (lookup_lt_Some _ _ _ Hw) as Hwn. rewrite Hs in Hwn.
    assert (nth w s 0 = 1) as Hone.
    { destruct (Hbit w Hwn) as [H0|H1]; [|done].
      rewrite nth_lookup, Hw in H0. simpl in H0. done. }
    specialize (Hl w Hwn). rewrite Hone in Hl. symmetry in Hl.
    apply SympyFacts.cong_2_odd in Hl. rewrite Z.odd_mul in Hl.
    apply andb_true_iff in Hl as [Hl _]. by apply SympyFacts.cong_2_odd. }
  assert (∀ w, (w < n)%nat → ent F k (k + w) = nth w s 0) as Hdigits.
  { intros w Hw. apply (cong_small 2).
    - apply Hrange; lia.
    - destruct (Hbit w Hw) as [-> | ->]; lia.
    - rewrite (Hl w Hw), Hlodd. apply cong_of_eq. lia. }
  assert (∀ c, (c < k)%nat → ent F k c = 0) as Hzeros.
  { intros c Hc.
    apply (cong_small 2); [apply Hrange; lia | lia | by apply Hleft]. }
  unfold Simon.last_row_solution.
  rewrite last_lookup. destruct HwfF as [HlF HcolsF].
  rewrite HlF, HrF, HnS. cbn [pred Nat.pred].
  rewrite (row_lookup F k); [|by split|lia].
  cbn [mbind option_bind]. rewrite HcF.
  change (cols (transpose A)) with (rows A). rewrite HrA.
  rewrite take_row, drop_row.
  rewrite forallb_map_seq.
  2:{ intros j Hj. rewrite Hzeros by done. done. }
  do 2 f_equal. rewrite (list_as_map_nth s) at 1. rewrite Hs.
  apply list.Forall_fmap_ext_1, list.Forall_forall.
  intros w Hw%elem_of_seq. apply Hdigits. lia.
Qed.

(** *** The ternary case *)

(** [scan_rows] returns the first row whose left block vanishes. *)
Lemma scan_rows_first (F : Matrix Z) (k : nat) (z : string) :
  well_formed F →
  snd (Ternary.scan_rows F k z)
  = match find (λ row, forallb Ternary.is_zero_mod3 (take k row)) (mat F) with
    | Some row => join_digits (drop k row)
    | None => z
    end.
Proof.
  intros [Hr Hc]. unfold Ternary.scan_rows.
  set (q := λ row : list Z, forallb Ternary.is_zero_mod3 (take k row)).
  set (body := λ (i : nat) (st : bool * string),
    let '(null_space_found, first_solution) := st in
    let row := default [] (mat F !! i) in
    if forallb Ternary.is_zero_mod3 (take k row)
    then let solution_vector := drop k row in
         let result_s := join_digits solution_vector in
         if negb null_space_found then (true, result_s)
         else (null_space_found, first_solution)
    else (null_space_found, first_solution)).
  set (Inv := λ (i : nat) (st : bool * string),
    st = match find q (take i (mat F)) with
         | Some row => (true, join_digits (drop k row))
         | None => (false, z)
         end).
  assert (Inv (rows F) (for_range 0 (rows F) body (false, z))) as HI.
  { apply (for_range_ind Inv); unfold Inv; clear Inv.
    - by rewrite take_0.
    - intros i st Hi ->. simpl.
      destruct (lookup_lt_is_Some_2 (mat F) i) as [row Hrow]; [lia|].
      rewrite (take_S_r _ _ _ Hrow), find_snoc. unfold body.
      destruct (find q (take i (mat F))) as [y|]; rewrite Hrow; simpl;
        fold (q row); by destruct (q row). }
  unfold Inv in HI. rewrite HI, take_ge by lia.
  by destruct (find q (mat F)).
Qed.

Lemma first_nonzero_at (s : list Z) w0 :
  (∀ w, (w < w0)%nat → nth w s 0 = 0) → nth w0 s 0 ≠ 0 →
  first_nonzero s = nth w0 s 0.
Proof.
  revert w0. induction s as [|a s IH]; intros w0 Hbefore Hnz.
  - by destruct w0.
  - unfold first_nonzero. rewrite filter_cons. destruct w0 as [|w0].
    + simpl in Hnz. by rewrite decide_True.
    + pose proof (Hbefore 0%nat ltac:(lia)) as Ha. simpl in Ha. subst a.
      rewrite decide_False by (intros H; by apply H).
      apply (IH w0); [|done].
      intros w Hw. apply (Hbefore (S w)). lia.
Qed.

Lemma cong_3_square l : ¬ cong 3 l 0 → cong 3 (l * l) 1.
Proof.
  rewrite !cong_iff. intros Hl. rewrite Zmult_mod.
  pose proof (Z.mod_pos_bound l 3 ltac:(lia)) as Hb.
  change (0 mod 3) with 0 in Hl. change (1 mod 3) with 1.
  assert (l mod 3 = 1 ∨ l mod 3 = 2) as [-> | ->] by lia; done.
Qed.

Lemma ternary_normal_form (b : nat → Z) (s : list Z) n l w0 :
  length s = n →
  Forall (λ d, 0 ≤ d < 3) s →
  Exists (λ d, d ≠ 0) s →
  (∀ w, (w < n)%nat → 0 ≤ b w < 3) →
  (∀ w, (w < n)%nat → cong 3 (nth w s 0) (l * b w)) →
  (w0 < n)%nat → b w0 = 1 → (∀ w, (w < w0)%nat → b w = 0) →
  map b (seq 0 n) = scale3 (first_nonzero s) s.
Proof.
  intros Hs Hdig Hnz Hb Hl Hw0 Hone Hzero.
  assert (∀ w, (w < n)%nat → 0 ≤ nth w s 0 < 3) as Hsw.
  { intros w Hw. apply (nth_Forall (λ d, 0 ≤ d < 3)); [done | lia]. }
  assert (¬ cong 3 l 0) as Hlnz.
  { intros Hl0. apply list.Exists_exists in Hnz as (d & Hd & Hdnz).
    apply list_elem_of_lookup_1 in Hd as [w Hw].
    pose proof (lookup_lt_Some _ _ _ Hw) as Hwn. rewrite Hs in Hwn.
    apply Hdnz.
    assert (nth w s 0 = d) as <- by (by rewrite nth_lookup, Hw).
    apply (cong_small 3); [by apply Hsw | lia |].
    rewrite (Hl w Hwn), Hl0. apply cong_of_eq. lia. }
  assert (∀ w, (w < w0)%nat → nth w s 0 = 0) as Hs0.
  { intros w Hw. apply (cong_small 3); [apply Hsw; lia | lia |].
    rewrite Hl, Hzero by lia. apply cong_of_eq. lia. }
  assert (cong 3 (nth w0 s 0) l) as Hsl.
  { rewrite Hl, Hone by lia. apply cong_of_eq. lia. }
  assert (nth w0 s 0 ≠ 0) as Hsnz.
  { intros H0. apply Hlnz. by rewrite <-Hsl, H0. }
  rewrite (first_nonzero_at s w0 Hs0 Hsnz).
  rewrite (list_as_map_nth s) at 2. rewrite Hs. unfold scale3.
  rewrite <-list_fmap_compose.
  apply list.Forall_fmap_ext_1, list.Forall_forall.
  intros w Hw%elem_of_seq. simpl.
  apply (cong_small 3); [apply Hb; lia | apply Z.mod_pos_bound; lia |].
  rewrite cong_mod, Hsl, (Hl w) by lia.
  rewrite Z.mul_assoc, cong_3_square by done. apply cong_of_eq. lia.
Qed.

Lemma solve_3d_nonempty n (eqs : list (list Z)) :
  eqs ≠ [] →
  Ternary.solve_3d n eqs
  = (A ← Matrix_of_rows eqs;
     let M := transpose (applyfunc Ternary.mod3 A) in
     let M_I := hstack_eye M in
     M_I_rref ← Ternary.rref_mod3 M_I;
     let M_I_final := applyfunc (λ x, x mod 3) (fst M_I_rref) in
     Some (Ternary.Str
             (snd (Ternary.scan_rows M_I_final (cols M) (zeros n))))).
Proof. by destruct eqs. Qed.

Lemma solve_3d_secret (n : nat) (eqs : list (list Z)) (s : list Z) :
  (2 ≤ n)%nat →
  length eqs = (n - 1)%nat →
  Forall (λ v, length v = n) eqs →
  independent 3 eqs →
  length s = n →
  Forall (λ d, 0 ≤ d < 3) s →
  Exists (λ d, d ≠ 0) s →
  Forall (λ v, dot v s mod 3 = 0) eqs →
  Ternary.solve_3d n eqs
  = Some (Ternary.Str (join_digits (scale3 (first_nonzero s) s))).
Proof.
  intros Hn Hk Hlen Hind Hs Hdig Hnz Horth.
  set (k := (n - 1)%nat) in *. assert (n = S k) as HnS by (unfold k; lia).
  destruct (Matrix_of_rows_spec eqs n) as (A0 & HA & HwfA0 & HrA0 & HcA0 & HmA).
  { intros ->. simpl in Hk. lia. }
  { done. }
  rewrite Hk in HrA0.
  rewrite solve_3d_nonempty by (intros ->; simpl in Hk; lia).
  rewrite HA. cbn [mbind option_bind].
  set (A := applyfunc Ternary.mod3 A0).
  assert (well_formed A) as HwfA by (by apply well_formed_applyfunc).
  assert (rows A = k) as HrA by done.
  assert (cols A = n) as HcA by done.
  assert (∀ j t, (j < k)%nat → (t < n)%nat →
            cong 3 (ent A j t) (nth t (nth j eqs []) 0)) as HeA.
  { intros j t _ _. pose proof (entry_applyfunc Ternary.mod3 0 A0 j t) as H.
    change (Ternary.mod3 0) with 0 in H. fold A in H.
    by rewrite H, cong_mod3, entry_nth, HmA. }
  destruct (augmented_spec A HwfA) as (HwfX & HrX & HcX & _ & _).
  set (X0 := hstack_eye (transpose A)) in *.
  destruct (rref_mod3_spec X0 HwfX)
    as (R & P & c' & -> & [HwfR HrR HcR] & Hred & Hech & Hc' & Hfin & Hspan).
  cbn [mbind option_bind fst].
  rewrite HrX, HcA in *. rewrite HcX, HrA in *.
  assert (rowspan 3 n (k + n) (ent X0) (ent R)) as Hspan' by done.
  change (λ x : Z, x mod 3) with Ternary.mod3.
  rewrite (applyfunc_mod3_reduced R HwfR Hred).
  change (cols (transpose A)) with (rows A). rewrite HrA.
  pose proof (first_pivots 3 ltac:(lia) n k HnS eqs Hk Hlen Hind
                A HwfA HrA HcA HeA R P c' Hech Hc' Hfin Hspan') as Hpiv.
  pose proof (last_row_left 3 ltac:(lia) n k HnS eqs Hk Hlen Hind
                A HwfA HrA HcA HeA R P c' Hech Hc' Hfin Hspan') as Hleft.
  destruct (last_row_multiple 3 ltac:(lia) n k HnS eqs s Hk Hlen Hind Horth
              A HwfA HrA HcA HeA R P c' Hech Hc' Hfin Hspan') as [l Hl].
  destruct (last_row_has_pivot 3 ltac:(lia) n k HnS eqs s Hk Hlen Hind Horth
              A HwfA HrA HcA HeA R P c' Hech Hc' Hfin Hspan')
    as (pc & Hpc & Hpck & Hpcn & Hpc1 & Hpc0).
  { apply list.Exists_exists in Hnz as (d & Hd & Hdnz).
    apply list_elem_of_lookup_1 in Hd as [w Hw].
    pose proof (lookup_lt_Some _ _ _ Hw) as Hwn. rewrite Hs in Hwn.
    exists w. split; [done|]. rewrite nth_lookup, Hw. simpl.
    rewrite list.Forall_forall in Hdig.
    pose proof (Hdig d ltac:(by eapply list_elem_of_lookup_2)).
    rewrite cong_iff, Z.mod_small by lia. change (0 mod 3) with 0. done. }
  rewrite scan_rows_first by done.
  rewrite (find_first _ (mat R) k (map (λ j, ent R k j) (seq 0 (k + n)))).
  - rewrite drop_row. do 3 f_equal.
    apply (ternary_normal_form (λ w, ent R k (k + w)) s n l (pc - k));
      try done.
    + lia.
    + replace (k + (pc - k))%nat with pc by lia.
      apply reduced_cong_eq; [done | lia | done].
    + intros w Hw. apply reduced_cong_eq; [done | lia |].
      apply Hpc0. lia.
  - rewrite <-HcR. apply row_lookup; [done | lia].
  - rewrite take_row. apply forallb_map_seq. intros j Hj.
    rewrite (reduced_cong_eq R k j 0); [done | done | lia | by apply Hleft].
  - intros i y Hi Hy. rewrite (row_lookup R i) in Hy by (done || lia).
    injection Hy as <-. rewrite HcR.
    rewrite take_row. apply (forallb_map_seq_false _ _ k i Hi).
    rewrite (reduced_cong_eq R i i 1); [done | done | lia |].
    eapply (ech_pivot _ _ _ _ _ Hech). by apply Hpiv.
Qed.

End Solution.

(** ** Strings of digits *)
Module Digits.

Lemma str_of_int_of_char c d : int_of_char c = Some d → str_of_digit d = c.
Proof.
  destruct c as [[] [] [] [] [] [] [] []]; unfold int_of_char; simpl;
    intros H; try discriminate H; injection H as <-; reflexivity.
Qed.

Lemma join_digits_ints_of_string (str : string) (s : list Z) :
  ints_of_string str = Some s → join_digits s = str.
Proof.
  revert s. induction str as [|c str IH]; intros s; simpl.
  - by intros [= <-].
  - destruct (int_of_char c) as [d|] eqn:Hc; [|done]. simpl.
    destruct (ints_of_string str) as [ds|]; [|done]. simpl.
    intros [= <-]. simpl. by rewrite (str_of_int_of_char c d), (IH ds).
Qed.

Lemma first_nonzero_range (s : list Z) :
  Forall (λ d, 0 ≤ d < 3) s → first_nonzero s = 1 ∨ first_nonzero s = 2.
Proof.
  intros Hs. unfold first_nonzero.
  destruct (filter (λ d, d ≠ 0) s) as [|d l] eqn:Hf; [by left|]. simpl.
  assert (d ∈ filter (λ d, d ≠ 0) s) as Hd by (rewrite Hf; left).
  apply list_elem_of_filter in Hd as [Hnz Hd].
  rewrite list.Forall_forall in Hs. specialize (Hs d Hd). lia.
Qed.

Lemma scale3_one (s : list Z) : Forall (λ d, 0 ≤ d < 3) s → scale3 1 s = s.
Proof.
  intros Hs. unfold scale3. rewrite <-(list_fmap_id s) at 2.
  apply list.Forall_fmap_ext_1. eapply list.Forall_impl; [exact Hs|].
  intros d Hd. simpl in *. rewrite Z.mod_small; lia.
Qed.

End Digits.

(** ** Pivot columns for a full set of equations *)
Module Pivots.
Import ModArith RowReduction MatrixFacts TernaryFacts Bridge Solution.

Lemma nonzero_digit (p : Z) (s : list Z) (n : nat) :
  length s = n → Exists (λ d, d mod p ≠ 0) s →
  ∃ w, (w < n)%nat ∧ ¬ cong p (nth w s 0) 0.
Proof.
  intros Hs Hnz. apply list.Exists_exists in Hnz as (d & Hd & Hdnz).
  apply list_elem_of_lookup_1 in Hd as [w Hw].
  pose proof (lookup_lt_Some _ _ _ Hw) as Hwn. rewrite Hs in Hwn.
  exists w. split; [done|]. rewrite nth_lookup, Hw. simpl.
  rewrite cong_iff. by rewrite Zmod_0_l.
Qed.

Lemma rref_mod3_pivots (n : nat) (eqs : list (list Z)) (s : list Z) :
  (2 ≤ n)%nat →
  length eqs = (n - 1)%nat →
  Forall (λ v, length v = n) eqs →
  length s = n →
  independent 3 eqs →
  Exists (λ d, d mod 3 ≠ 0) s →
  Forall (λ v, dot v s mod 3 = 0) eqs →
  ∃ A R pc,
    Matrix_of_rows eqs = Some A
    ∧ Ternary.rref_mod3 (hstack_eye (transpose (applyfunc Ternary.mod3 A)))
      = Some (R, seq 0 (n - 1) ++ [pc])
    ∧ (cols (transpose (applyfunc Ternary.mod3 A)) ≤ pc)%nat
    ∧ (pc < cols (hstack_eye (transpose (applyfunc Ternary.mod3 A))))%nat.
Proof.
  intros Hn Hk Hlen Hs Hind Hnz Horth.
  set (k := (n - 1)%nat) in *. assert (n = S k) as HnS by (unfold k; lia).
  destruct (Matrix_of_rows_spec eqs n) as (A0 & HA & HwfA0 & HrA0 & HcA0 & HmA).
  { intros ->. simpl in Hk. lia. }
  { done. }
  rewrite Hk in HrA0.
  set (A := applyfunc Ternary.mod3 A0).
  assert (well_formed A) as HwfA by (by apply well_formed_applyfunc).
  assert (rows A = k) as HrA by done.
  assert (cols A = n) as HcA by done.
  assert (∀ j t, (j < k)%nat → (t < n)%nat →
            cong 3 (ent A j t) (nth t (nth j eqs []) 0)) as HeA.
  { intros j t _ _. pose proof (entry_applyfunc Ternary.mod3 0 A0 j t) as H.
    change (Ternary.mod3 0) with 0 in H. fold A in H.
    by rewrite H, cong_mod3, entry_nth, HmA. }
  destruct (augmented_spec A HwfA) as (HwfX & HrX & HcX & _ & _).
  set (X0 := hstack_eye (transpose A)) in *.
  destruct (rref_mod3_spec X0 HwfX)
    as (R & P & c' & HR & _ & _ & Hech & Hc' & Hfin & Hspan).
  rewrite HrX, HcA in *. rewrite HcX, HrA in *.
  destruct (pivot_columns_shape 3 ltac:(lia) n k HnS eqs s Hk Hlen Hind Horth
              A HwfA HrA HcA HeA R P c' Hech Hc' Hfin Hspan)
    as (pc & -> & Hlo & Hhi).
  { by apply nonzero_digit. }
  exists A0, R, pc. fold A. fold X0. rewrite HcX.
  change (cols (transpose A)) with (rows A). rewrite HrA. done.
Qed.

Lemma rref_mod2_pivots (n : nat) (eqs : list (list Z)) (s : list Z) :
  (2 ≤ n)%nat →
  length eqs = (n - 1)%nat →
  Forall (λ v, length v = n) eqs →
  length s = n →
  independent 2 eqs →
  Exists (λ d, d mod 2 ≠ 0) s →
  Forall (λ v, dot v s mod 2 = 0) eqs →
  ∃ A pc,
    Matrix_of_rows eqs = Some A
    ∧ snd (Sympy.rref Simon.iszero_mod2 (hstack_eye (transpose A)))
      = seq 0 (n - 1) ++ [pc]
    ∧ (cols (transpose A) ≤ pc)%nat
    ∧ (pc < cols (hstack_eye (transpose A)))%nat.
Proof.
  intros Hn Hk Hlen Hs Hind Hnz Horth.
  set (k := (n - 1)%nat) in *. assert (n = S k) as HnS by (unfold k; lia).
  destruct (Matrix_of_rows_spec eqs n) as (A & HA & HwfA & HrA & HcA & HmA).
  { intros ->. simpl in Hk. lia. }
  { done. }
  rewrite Hk in HrA.
  destruct (augmented_spec A HwfA) as (HwfX & HrX & HcX & _ & _).
  set (X0 := hstack_eye (transpose A)) in *.
  destruct (SympyFacts.rref_mod2_spec X0 HwfX)
    as (P & c' & _ & _ & HP & Hech & Hc' & Hfin & Hspan).
  set (F := applyfunc Simon.mod2 (fst (Sympy.rref Simon.iszero_mod2 X0))) in *.
  rewrite HrX, HcA in *. rewrite HcX, HrA in *.
  assert (∀ j t, (j < k)%nat → (t < n)%nat →
            cong 2 (ent A j t) (nth t (nth j eqs []) 0)) as HeA.
  { intros j t _ _. by rewrite entry_nth, HmA. }
  destruct (pivot_columns_shape 2 ltac:(lia) n k HnS eqs s Hk Hlen Hind Horth
              A HwfA HrA HcA HeA F P c' Hech Hc' Hfin Hspan)
    as (pc & -> & Hlo & Hhi).
  { by apply nonzero_digit. }
  exists A, pc. change (cols (transpose A)) with (rows A).
  rewrite ?HrA. fold X0. rewrite HcX. done.
Qed.

End Pivots.

(** ** The two buckets of the two-secret variant *)
Module Buckets.
Import MultiSimon.

Lemma bucket_cons tagged item keys d :
  bucket tagged (item :: keys) d = bucket tagged keys (bucket_step tagged d item).
Proof. done. Qed.

Lemma split_counts_bucket (keys : list string) (dic1 dic2 : dict) :
  Forall (λ item, item ≠ "") keys →
  split_counts keys dic1 dic2
  = Some (bucket true keys dic1, bucket false keys dic2).
Proof.
  revert dic1 dic2. induction keys as [|item keys IH]; intros dic1 dic2 Hne.
  - done.
  - apply list.Forall_cons in Hne as [Hitem Hne].
    destruct item as [|c tail]; [done|]. rewrite !bucket_cons.
    cbn [split_counts bucket_step].
    destruct (decide (c = "1"%char)) as [->|Hc].
    + by rewrite IH by done.
    + rewrite IH, bool_decide_false by done. done.
Qed.

Lemma elem_of_dict_set (d : dict) (k k' : string) (v : Z) :
  k' ∈ map fst (dict_set d k v) ↔ k' = k ∨ k' ∈ map fst d.
Proof.
  induction d as [|[k0 v0] d IH]; simpl.
  - rewrite list_elem_of_singleton. split; [by left|].
    intros [H|H]; [done | by apply elem_of_nil in H].
  - case_decide as Hk; simpl.
    + subst k0. rewrite !elem_of_cons. tauto.
    + rewrite !elem_of_cons, IH. tauto.
Qed.

Lemma elem_of_bucket (tagged : bool) (keys : list string) (d : dict) x :
  x ∈ map fst (bucket tagged keys d)
  ↔ x ∈ map fst d
    ∨ ∃ c, bool_decide (c = "1"%char) = tagged ∧ String c x ∈ keys.
Proof.
  revert d. induction keys as [|item keys IH]; intros d.
  - simpl. split; [by left|]. intros [H|(c & _ & H)]; [done|].
    by apply elem_of_nil in H.
  - rewrite bucket_cons. destruct item as [|c tail]; simpl.
    + rewrite IH. split; intros [H|(c & Hc & H)]; try by left.
      * right. exists c. split; [done|]. by right.
      * right. exists c. split; [done|].
        apply elem_of_cons in H as [H|H]; [done|done].
    + case_decide as Hc.
      * rewrite IH, elem_of_dict_set. split.
        -- intros [[->|H]|(c' & Hc' & H)].
           ++ right. exists c. split; [done|]. left.
           ++ by left.
           ++ right. exists c'. split; [done|]. by right.
        -- intros [H|(c' & Hc' & H)].
           ++ left. by right.
           ++ apply elem_of_cons in H as [[= -> ->]|H].
              ** left. by left.
              ** right. by exists c'.
      * rewrite IH. split; intros [H|(c' & Hc' & H)]; try by left.
        -- right. exists c'. split; [done|]. by right.
        -- apply elem_of_cons in H as [[= -> ->]|H]; [done|].
           right. by exists c'.
Qed.

End Buckets.

(** ** Small instances *)
Module Instances.

Lemma independent_single p : independent p [[0; 1]].
Proof.
  intros x Hx Hcol. destruct x as [|a [|]]; try done.
  pose proof (Hcol 1%nat) as H1.
  assert (dot [a] (column 1 [[0; 1]]) = a) as E
    by (unfold dot, column; simpl; lia).
  rewrite E in H1. by repeat constructor.
Qed.

Lemma independent_pair p : independent p [[1; 0; 1]; [0; 1; 0]].
Proof.
  intros x Hx Hcol. destruct x as [|a [|b [|]]]; try done.
  pose proof (Hcol 0%nat) as H0. pose proof (Hcol 1%nat) as H1.
  assert (dot [a; b] (column 0 [[1; 0; 1]; [0; 1; 0]]) = a) as E0
    by (unfold dot, column; simpl; lia).
  assert (dot [a; b] (column 1 [[1; 0; 1]; [0; 1; 0]]) = b) as E1
    by (unfold dot, column; simpl; lia).
  rewrite E0 in H0. rewrite E1 in H1. by repeat constructor.
Qed.

Lemma independent_triple : independent 2 [[1; 1; 1; 0]; [0; 1; 0; 1]; [0; 0; 1; 1]].
Proof.
  intros x Hx Hcol. destruct x as [|a [|b [|c [|]]]]; try done.
  pose proof (Hcol 0%nat) as H0. pose proof (Hcol 1%nat) as H1.
  pose proof (Hcol 2%nat) as H2.
  assert (dot [a; b; c] (column 0 [[1; 1; 1; 0]; [0; 1; 0; 1]; [0; 0; 1; 1]])
          = a) as E0 by (unfold dot, column; simpl; lia).
  assert (dot [a; b; c] (column 1 [[1; 1; 1; 0]; [0; 1; 0; 1]; [0; 0; 1; 1]])
          = a + b) as E1 by (unfold dot, column; simpl; lia).
  assert (dot [a; b; c] (column 2 [[1; 1; 1; 0]; [0; 1; 0; 1]; [0; 0; 1; 1]])
          = a + c) as E2 by (unfold dot, column; simpl; lia).
  rewrite E0 in H0. rewrite E1 in H1. rewrite E2 in H2.
  repeat first [apply Forall_nil_2 | apply Forall_cons_2]; cbv beta;
    Z.div_mod_to_equations; lia.
Qed.

End Instances.

(** ** The statements of the specification *)
Module Claims.
Import ModArith RowReduction MatrixFacts TernaryFacts Bridge Solution.
Import Digits Pivots Buckets Instances.

(** *** Round trip, binary *)

(** The round trip with the routine of SymPy up to 1.12, which takes no
    even entry as a pivot.  For [n >= 2] and a non-zero binary secret of
    length [n]: when the equation list holds [n - 1] vectors of length [n]
    that are independent modulo 2 and orthogonal to the secret modulo 2,
    [solve_equation] returns the secret's string. *)
Theorem solve_equation_round_trip
    (n : nat) (eqs : list (list Z)) (secret : string) (s : list Z) :
  (2 ≤ n)%nat →
  ints_of_string secret = Some s →
  length s = n →
  Forall (λ d, d = 0 ∨ d = 1) s →
  Exists (λ d, d ≠ 0) s →
  length eqs = (n - 1)%nat →
  Forall (λ v, length v = n) eqs →
  independent 2 eqs →
  Forall (λ v, dot v s mod 2 = 0) eqs →
  Simon.solve_equation eqs = Some secret.
Proof.
  intros Hn Hsecret Hs Hbits Hnz Hk Hlen Hind Horth.
  rewrite <-(join_digits_ints_of_string secret s Hsecret).
  by apply (solve_equation_secret n).
Qed.

Lemma solve_equation_round_trip_witness :
  Simon.solve_equation [[1; 0; 1]; [0; 1; 0]] = Some "101".
Proof.
  apply (solve_equation_round_trip 3 _ "101" [1; 0; 1]).
  - lia.
  - reflexivity.
  - reflexivity.
  - repeat first [apply Forall_nil_2 | apply Forall_cons_2]; lia.
  - apply Exists_cons_hd. lia.
  - reflexivity.
  - repeat first [apply Forall_nil_2 | apply Forall_cons_2]; reflexivity.
  - apply independent_pair.
  - repeat first [apply Forall_nil_2 | apply Forall_cons_2]; reflexivity.
Defined.

(** C1.  With SymPy 1.13 or later the round trip fails.  The equations
    [1 1 1 0], [0 1 0 1], [0 0 1 1] are independent modulo 2 and orthogonal
    modulo 2 to the secret 0111; the reduction over the rationals ends in
    the row [0 0 0 1 -1/2 -1/2 1/2], the numerators of its right block are
    odd, and [solve_equation] returns ["1111"], which is not orthogonal to
    the first equation.  With the routine of SymPy up to 1.12 the same call
    returns the secret. *)
Theorem solve_equation_exact_failing :
  independent 2 [[1; 1; 1; 0]; [0; 1; 0; 1]; [0; 0; 1; 1]]
  ∧ Forall (λ v, dot v [0; 1; 1; 1] mod 2 = 0)
      [[1; 1; 1; 0]; [0; 1; 0; 1]; [0; 0; 1; 1]]
  ∧ list.last
      (mat (fst (Sympy.rref_exact
                   (hstack_eye
                      (transpose
                         (mk_Matrix 3 4
                            [[1; 1; 1; 0]; [0; 1; 0; 1]; [0; 0; 1; 1]]))))))
    = Some [0; 0; 0; 1; -1 # 2; -1 # 2; 1 # 2]%Q
  ∧ Simon.solve_equation_exact [[1; 1; 1; 0]; [0; 1; 0; 1]; [0; 0; 1; 1]]
    = Some "1111"
  ∧ dot [1; 1; 1; 0] [1; 1; 1; 1] mod 2 = 1
  ∧ Simon.solve_equation [[1; 1; 1; 0]; [0; 1; 0; 1]; [0; 0; 1; 1]]
    = Some "0111".
Proof.
  split_and!.
  - apply independent_triple.
  - repeat first [apply Forall_nil_2 | apply Forall_cons_2]; reflexivity.
  - by vm_compute.
  - by vm_compute.
  - reflexivity.
  - by vm_compute.
Qed.

(** On the instances of the statements below the two routines agree. *)
Lemma solve_equation_exact_instances :
  Simon.solve_equation_exact [[1; 1; 0]; [0; 1; 1]] = Some "111"
  ∧ snd (Sympy.rref_exact (hstack_eye (transpose (mk_Matrix 1 2 [[1; 0]]))))
    = [0; 2]%nat.
Proof. by vm_compute. Qed.

(** *** The rows that are inspected *)

(** C2, counterexample.  For the single equation [1 0 0] over three qudits
    the reduced matrix has two rows with a vanishing left block.  The ternary
    code answers with the first of them, ["010"]; the last row of the reduced
    matrix would give ["001"]. *)
Lemma ternary_scan_first_row :
  Ternary.solve_3d 3 [[1; 0; 0]] = Some (Ternary.Str "010")
  ∧ ¬ (∀ (F : Matrix Z) (k : nat) (z : string),
         well_formed F →
         snd (Ternary.scan_rows F k z)
         = match list.last (mat F) with
           | Some row =>
               if forallb Ternary.is_zero_mod3 (take k row)
               then join_digits (drop k row) else z
           | None => z
           end).
Proof.
  split; [by vm_compute|].
  intros H.
  specialize (H (mk_Matrix 3 4 [[1; 1; 0; 0]; [0; 0; 1; 0]; [0; 0; 0; 1]])
                1%nat "000").
  assert (well_formed
            (mk_Matrix 3 4 [[1; 1; 0; 0]; [0; 0; 1; 0]; [0; 0; 0; 1]])) as Hwf.
  { split; [done|]. repeat first [apply Forall_nil_2 | apply Forall_cons_2];
      reflexivity. }
  specialize (H Hwf). vm_compute in H. discriminate H.
Qed.

(** C2, amended.  The binary extractor reads the last row of the reduced
    matrix and nothing else: two reduced matrices with the same last row
    give the same answer.  The ternary extractor scans the rows from the
    first on and answers with the first row whose left block vanishes
    modulo 3; it answers with the all-zero default only when no row does. *)
Theorem row_inspection_policy
    (F F' M : Matrix Z) (k : nat) (z : string) :
  well_formed F →
  list.last (mat F') = list.last (mat F) →
  Simon.last_row_solution F' M = Simon.last_row_solution F M
  ∧ Simon.last_row_solution F M
    = (row ← list.last (mat F);
       Some (if forallb (λ value, bool_decide (value = 0)) (take (cols M) row)
             then join_digits (drop (cols M) row)
             else zeros (rows M)))
  ∧ snd (Ternary.scan_rows F k z)
    = match find (λ row, forallb Ternary.is_zero_mod3 (take k row)) (mat F) with
      | Some row => join_digits (drop k row)
      | None => z
      end.
Proof.
  intros Hwf Hlast. split_and!.
  - unfold Simon.last_row_solution. by rewrite Hlast.
  - unfold Simon.last_row_solution.
    destruct (list.last (mat F)) as [row|]; [|done]. simpl.
    by destruct (forallb _ _).
  - by apply scan_rows_first.
Qed.

Lemma row_inspection_policy_witness :
  Simon.last_row_solution
    (mk_Matrix 2 4 [[1; 1; 1; 1]; [0; 0; 0; 1]])
    (mk_Matrix 3 1 [[1]; [0]; [0]])
  = Simon.last_row_solution
      (mk_Matrix 3 4 [[1; 1; 0; 0]; [0; 0; 1; 0]; [0; 0; 0; 1]])
      (mk_Matrix 3 1 [[1]; [0]; [0]])
  ∧ snd (Ternary.scan_rows
           (mk_Matrix 3 4 [[1; 1; 0; 0]; [0; 0; 1; 0]; [0; 0; 0; 1]])
           1 "000")
    = "010".
Proof.
  destruct (row_inspection_policy
              (mk_Matrix 3 4 [[1; 1; 0; 0]; [0; 0; 1; 0]; [0; 0; 0; 1]])
              (mk_Matrix 2 4 [[1; 1; 1; 1]; [0; 0; 0; 1]])
              (mk_Matrix 3 1 [[1]; [0]; [0]]) 1 "000") as (H1 & _ & H3).
  - split; [reflexivity|].
    repeat first [apply Forall_nil_2 | apply Forall_cons_2]; reflexivity.
  - reflexivity.
  - split; [exact H1 | exact H3].
Defined.

(** *** Round trip, ternary *)

(** C3, counterexample.  Two qudits, one measured outcome that encodes the
    equation [0 1], secret ["20"]: every hypothesis of the round trip holds
    and the code returns ["10"], which is twice the secret modulo 3. *)
Lemma recover_secret_string_3d_multiple :
  Ternary.recover_secret_string_3d 2 [("0001", 1)] = Some (Ternary.Str "10")
  ∧ join_digits [2; 0] = "20"
  ∧ ¬ (∀ (n : nat) (results : dict) (eqs : list (list Z)) (s : list Z),
         (2 ≤ n)%nat →
         Ternary.collect_equations n results = Some eqs →
         length eqs = (n - 1)%nat →
         Forall (λ v, length v = n) eqs →
         independent 3 eqs →
         length s = n →
         Forall (λ d, 0 ≤ d < 3) s →
         Exists (λ d, d ≠ 0) s →
         Forall (λ v, dot v s mod 3 = 0) eqs →
         Ternary.recover_secret_string_3d n results
         = Some (Ternary.Str (join_digits s))).
Proof.
  split; [by vm_compute|]. split; [reflexivity|].
  intros H.
  specialize (H 2%nat [("0001", 1)] [[0; 1]] [2; 0]).
  assert (Ternary.recover_secret_string_3d 2 [("0001", 1)]
          = Some (Ternary.Str (join_digits [2; 0]))) as Hbad.
  { apply H.
    - lia.
    - reflexivity.
    - reflexivity.
    - repeat first [apply Forall_nil_2 | apply Forall_cons_2]; reflexivity.
    - apply independent_single.
    - reflexivity.
    - repeat first [apply Forall_nil_2 | apply Forall_cons_2]; lia.
    - apply Exists_cons_hd. lia.
    - repeat first [apply Forall_nil_2 | apply Forall_cons_2]; reflexivity. }
  vm_compute in Hbad. discriminate Hbad.
Qed.

(** C3, amended.  Under the hypotheses of the round trip the ternary
    extractor returns the multiple of the secret whose first non-zero digit
    is 1: the secret itself when its first non-zero digit is 1, and twice the
    secret modulo 3 when that digit is 2. *)
Theorem recover_secret_string_3d_normal_form
    (n : nat) (results : dict) (eqs : list (list Z)) (s : list Z) :
  (2 ≤ n)%nat →
  Ternary.collect_equations n results = Some eqs →
  length eqs = (n - 1)%nat →
  Forall (λ v, length v = n) eqs →
  independent 3 eqs →
  length s = n →
  Forall (λ d, 0 ≤ d < 3) s →
  Exists (λ d, d ≠ 0) s →
  Forall (λ v, dot v s mod 3 = 0) eqs →
  Ternary.recover_secret_string_3d n results
  = Some (Ternary.Str (join_digits (scale3 (first_nonzero s) s)))
  ∧ (first_nonzero s = 1 ∨ first_nonzero s = 2)
  ∧ (first_nonzero s = 1 →
     Ternary.recover_secret_string_3d n results
     = Some (Ternary.Str (join_digits s))).
Proof.
  intros Hn Hcollect Hk Hlen Hind Hs Hdig Hnz Horth.
  assert (Ternary.recover_secret_string_3d n results
          = Some (Ternary.Str (join_digits (scale3 (first_nonzero s) s))))
    as Hrec.
  { unfold Ternary.recover_secret_string_3d. rewrite Hcollect.
    cbn [mbind option_bind]. by apply solve_3d_secret. }
  split_and!; [done | by apply first_nonzero_range |].
  intros Hone. by rewrite Hrec, Hone, scale3_one.
Qed.

Lemma recover_secret_string_3d_normal_form_witness :
  Ternary.recover_secret_string_3d 2 [("0001", 1)]
  = Some (Ternary.Str (join_digits (scale3 (first_nonzero [2; 0]) [2; 0]))).
Proof.
  apply (recover_secret_string_3d_normal_form 2 [("0001", 1)] [[0; 1]] [2; 0]).
  - lia.
  - reflexivity.
  - reflexivity.
  - repeat first [apply Forall_nil_2 | apply Forall_cons_2]; reflexivity.
  - apply independent_single.
  - reflexivity.
  - repeat first [apply Forall_nil_2 | apply Forall_cons_2]; lia.
  - apply Exists_cons_hd. lia.
  - repeat first [apply Forall_nil_2 | apply Forall_cons_2]; reflexivity.
Defined.

(** *** The literal instance *)

(** C5, counterexample.  On [v1 = 1 1 0], [v2 = 0 1 1] the answer is not
    ["101"]; and ["101"] is not orthogonal to [v1]. *)
Lemma solve_equation_literal_not_101 :
  Simon.solve_equation [[1; 1; 0]; [0; 1; 1]] ≠ Some "101"
  ∧ dot [1; 1; 0] [1; 0; 1] mod 2 = 1.
Proof. split; [by vm_compute | reflexivity]. Qed.

(** C5, amended.  On [v1 = 1 1 0], [v2 = 0 1 1] [solve_equation] returns
    ["111"], a vector orthogonal to both modulo 2. *)
Theorem solve_equation_literal :
  Simon.solve_equation [[1; 1; 0]; [0; 1; 1]] = Some "111"
  ∧ Forall (λ v, dot v [1; 1; 1] mod 2 = 0) [[1; 1; 0]; [0; 1; 1]].
Proof.
  split; [by vm_compute|].
  repeat first [apply Forall_nil_2 | apply Forall_cons_2]; reflexivity.
Qed.

(** *** The columns of the pivot search *)

(** C6, counterexample.  For the single equation [1 0] the matrix [M] has
    one column, the augmented matrix three, and both reductions return the
    pivot columns 0 and 2: column 2 is a column of the identity block. *)
Lemma pivot_in_identity_block :
  cols (transpose (mk_Matrix 1 2 [[1; 0]])) = 1%nat
  ∧ snd <$> Ternary.rref_mod3 (hstack_eye (transpose (mk_Matrix 1 2 [[1; 0]])))
    = Some [0; 2]%nat
  ∧ snd (Sympy.rref Simon.iszero_mod2
           (hstack_eye (transpose (mk_Matrix 1 2 [[1; 0]]))))
    = [0; 2]%nat.
Proof. by vm_compute. Qed.

(** C6, amended.  The pivot search runs over all columns of the augmented
    matrix, those of the identity block included.  For [n - 1] independent
    equations orthogonal to a non-zero secret, both reductions return [n]
    pivot columns: the [n - 1] columns of the left block, then one column
    of the identity block. *)
Theorem pivot_columns_full_rank
    (n : nat) (eqs : list (list Z)) (s : list Z) :
  (2 ≤ n)%nat →
  length eqs = (n - 1)%nat →
  Forall (λ v, length v = n) eqs →
  length s = n →
  (independent 3 eqs →
   Exists (λ d, d mod 3 ≠ 0) s →
   Forall (λ v, dot v s mod 3 = 0) eqs →
   ∃ A R pc,
     Matrix_of_rows eqs = Some A
     ∧ Ternary.rref_mod3 (hstack_eye (transpose (applyfunc Ternary.mod3 A)))
       = Some (R, seq 0 (n - 1) ++ [pc])
     ∧ (cols (transpose (applyfunc Ternary.mod3 A)) ≤ pc)%nat
     ∧ (pc < cols (hstack_eye (transpose (applyfunc Ternary.mod3 A))))%nat)
  ∧ (independent 2 eqs →
     Exists (λ d, d mod 2 ≠ 0) s →
     Forall (λ v, dot v s mod 2 = 0) eqs →
     ∃ A pc,
       Matrix_of_rows eqs = Some A
       ∧ snd (Sympy.rref Simon.iszero_mod2 (hstack_eye (transpose A)))
         = seq 0 (n - 1) ++ [pc]
       ∧ (cols (transpose A) ≤ pc)%nat
       ∧ (pc < cols (hstack_eye (transpose A)))%nat).
Proof.
  intros Hn Hk Hlen Hs. split.
  - intros Hind Hnz Horth. by apply (rref_mod3_pivots n eqs s).
  - intros Hind Hnz Horth. by apply (rref_mod2_pivots n eqs s).
Qed.

Lemma pivot_columns_full_rank_witness :
  (∃ A R pc,
     Matrix_of_rows [[0; 1]] = Some A
     ∧ Ternary.rref_mod3 (hstack_eye (transpose (applyfunc Ternary.mod3 A)))
       = Some (R, seq 0 (2 - 1) ++ [pc])
     ∧ (cols (transpose (applyfunc Ternary.mod3 A)) ≤ pc)%nat
     ∧ (pc < cols (hstack_eye (transpose (applyfunc Ternary.mod3 A))))%nat)
  ∧ (∃ A pc,
       Matrix_of_rows [[0; 1]] = Some A
       ∧ snd (Sympy.rref Simon.iszero_mod2 (hstack_eye (transpose A)))
         = seq 0 (2 - 1) ++ [pc]
       ∧ (cols (transpose A) ≤ pc)%nat
       ∧ (pc < cols (hstack_eye (transpose A)))%nat).
Proof.
  destruct (pivot_columns_full_rank 2 [[0; 1]] [1; 0]) as [H3 H2].
  - lia.
  - reflexivity.
  - repeat first [apply Forall_nil_2 | apply Forall_cons_2]; reflexivity.
  - reflexivity.
  - split.
    + apply H3.
      * apply independent_single.
      * apply Exists_cons_hd. by vm_compute.
      * repeat first [apply Forall_nil_2 | apply Forall_cons_2]; reflexivity.
    + apply H2.
      * apply independent_single.
      * apply Exists_cons_hd. by vm_compute.
      * repeat first [apply Forall_nil_2 | apply Forall_cons_2]; reflexivity.
Defined.

(** *** No equation collected *)

(** C7.  When no equation is collected, the binary path returns the string
    of [n] zeros, and the ternary path returns the pair of that string and
    the integer 0; with at least one equation the ternary path returns a
    string, never a pair. *)
Theorem empty_equations_result (n : nat) (counts results : dict) :
  Simon.collect_equations n counts = Some [] →
  Ternary.collect_equations n results = Some [] →
  Simon.run_and_analyze n counts = Some (zeros n)
  ∧ Ternary.recover_secret_string_3d n results
    = Some (Ternary.Pair (zeros n) 0)
  ∧ (∀ eqs v, eqs ≠ [] → Ternary.solve_3d n eqs = Some v →
       ∃ str, v = Ternary.Str str).
Proof.
  intros Hbin Hter. split_and!.
  - unfold Simon.run_and_analyze. by rewrite Hbin.
  - unfold Ternary.recover_secret_string_3d. by rewrite Hter.
  - intros eqs v Hne. rewrite solve_3d_nonempty by done.
    destruct (Matrix_of_rows eqs) as [A|]; [|done]. cbn [mbind option_bind].
    destruct (Ternary.rref_mod3 _) as [R|]; [|done]. cbn [mbind option_bind].
    intros [= <-]. by eexists.
Qed.

Lemma empty_equations_result_witness :
  Simon.run_and_analyze 2 [("00", 2)] = Some "00"
  ∧ Ternary.recover_secret_string_3d 2 [("0000", 2)]
    = Some (Ternary.Pair "00" 0)
  ∧ Ternary.recover_secret_string_3d 2 [("0001", 2)]
    = Some (Ternary.Str "10").
Proof.
  destruct (empty_equations_result 2 [("00", 2)] [("0000", 2)])
    as (H1 & H2 & _).
  - reflexivity.
  - reflexivity.
  - split; [exact H1 | split; [exact H2 | by vm_compute]].
Defined.

(** *** The reduction is idempotent *)

(** C8.  [rref_mod3] succeeds on every matrix, and applied to the matrix it
    returns it gives that matrix, and the same pivot columns, again. *)
Theorem rref_mod3_idempotent (M : Matrix Z) :
  well_formed M →
  ∃ R P,
    Ternary.rref_mod3 M = Some (R, P)
    ∧ Ternary.rref_mod3 R = Some (R, P).
Proof.
  intros Hwf.
  destruct (rref_mod3_spec M Hwf)
    as (R & P & c' & HR & [HwfR HrR HcR] & Hred & Hech & Hc' & Hfin & _).
  exists R, P. split; [done|].
  rewrite <-HrR in Hech, Hfin. rewrite <-HcR in Hc', Hfin.
  by apply (rref_mod3_fixed R P c').
Qed.

Lemma rref_mod3_idempotent_witness :
  ∃ R P,
    Ternary.rref_mod3 (mk_Matrix 2 3 [[2; 1; 4]; [1; 5; 0]]) = Some (R, P)
    ∧ Ternary.rref_mod3 R = Some (R, P).
Proof.
  apply (rref_mod3_idempotent (mk_Matrix 2 3 [[2; 1; 4]; [1; 5; 0]])).
  split; [reflexivity|].
  repeat first [apply Forall_nil_2 | apply Forall_cons_2]; reflexivity.
Defined.

(** *** The two secrets *)

(** C9, counterexample.  With the outcomes ["111"] and ["010"] the bucket
    tagged 1 holds ["11"] and gives ["11"], the other bucket holds ["10"]
    and gives ["01"]; the code returns [("01", "11")], the answer of the
    bucket tagged 1 in second place. *)
Lemma run_and_analyze_swapped :
  MultiSimon.run_and_analyze 2 [("111", 1); ("010", 1)] = Some ("01", "11")
  ∧ MultiSimon.recover_secret_string 2 (bucket true ["111"; "010"] [])
    = Some "11"
  ∧ MultiSimon.recover_secret_string 2 (bucket false ["111"; "010"] [])
    = Some "01".
Proof. by vm_compute. Qed.

(** C9, amended.  [run_and_analyze] returns the answer of the bucket of the
    outcomes that do not start with 1 first, and the answer of the bucket of
    the outcomes that start with 1 second. *)
Theorem run_and_analyze_bucket_order (n : nat) (counts : dict) :
  Forall (λ item, item ≠ "") (map fst counts) →
  MultiSimon.run_and_analyze n counts
  = (prediction1 ←
       MultiSimon.recover_secret_string n (bucket false (map fst counts) []);
     prediction2 ←
       MultiSimon.recover_secret_string n (bucket true (map fst counts) []);
     Some (prediction1, prediction2))
  ∧ (∀ x, x ∈ map fst (bucket true (map fst counts) [])
          ↔ String "1" x ∈ map fst counts)
  ∧ (∀ x, x ∈ map fst (bucket false (map fst counts) [])
          ↔ ∃ c, c ≠ "1"%char ∧ String c x ∈ map fst counts).
Proof.
  intros Hne. split_and!.
  - unfold MultiSimon.run_and_analyze.
    by rewrite (split_counts_bucket _ [] [] Hne).
  - intros x. rewrite elem_of_bucket. split.
    + intros [H|(c & Hc & H)]; [by apply elem_of_nil in H|].
      apply bool_decide_eq_true in Hc. by subst c.
    + intros H. right. exists "1"%char. by rewrite bool_decide_true.
  - intros x. rewrite elem_of_bucket. split.
    + intros [H|(c & Hc & H)]; [by apply elem_of_nil in H|].
      apply bool_decide_eq_false in Hc. by exists c.
    + intros (c & Hc & H). right. exists c. by rewrite bool_decide_false.
Qed.

Lemma run_and_analyze_bucket_order_witness :
  MultiSimon.run_and_analyze 2 [("111", 1); ("010", 1)]
  = (prediction1 ←
       MultiSimon.recover_secret_string 2
         (bucket false (map fst [("111", 1); ("010", 1)]) []);
     prediction2 ←
       MultiSimon.recover_secret_string 2
         (bucket true (map fst [("111", 1); ("010", 1)]) []);
     Some (prediction1, prediction2)).
Proof.
  apply (run_and_analyze_bucket_order 2 [("111", 1); ("010", 1)]).
  repeat first [apply Forall_nil_2 | apply Forall_cons_2]; discriminate.
Defined.

End Claims.

(** ** The cycles as classes of strings that differ by a multiple of the
    secret *)
Module CycleClasses.
Import Cycles CyclesFacts.

Lemma elem_of_concat {A} (x : A) (ls : list (list A)) :
  x ∈ concat ls ↔ ∃ l, l ∈ ls ∧ x ∈ l.
Proof.
  induction ls as [|l ls IH]; simpl.
  - split; [by intros ?%elem_of_nil | by intros (l & ?%elem_of_nil & _)].
  - rewrite elem_of_app, IH. split.
    + intros [H|(l' & Hl' & H)]; [exists l; split; [left|done]|].
      exists l'. split; [by right | done].
    + intros (l' & Hl' & H). apply elem_of_cons in Hl' as [->|Hl'];
        [by left | right; by exists l'].
Qed.

Lemma elem_of_orbit n s x y :
  ternary_string n s → ternary_string n x →
  y ∈ orbit n s x → y = x ∨ y = step s x ∨ y = step s (step s x).
Proof.
  intros Hs Hx. unfold orbit. case_decide.
  - intros ->%list_elem_of_singleton. by left.
  - rewrite !elem_of_cons, elem_of_nil. tauto.
Qed.

(** X1.  The cycle of a string, as a set, is the class of the strings that
    differ from it by a multiple of the secret: two ternary strings of length
    [n] lie in one cycle of [find_ternary_cycles] exactly when they are
    equal or one of them is the other plus the secret. *)
Theorem same_cycle_iff (n fuel : nat) (s x y : string) :
  ternary_string n s → (4 ≤ fuel)%nat →
  ternary_string n x → ternary_string n y →
  ∃ cycles,
    find_ternary_cycles fuel n s = Some cycles
    ∧ ((∃ c, c ∈ cycles ∧ x ∈ c ∧ y ∈ c)
       ↔ (y = x ∨ add_ternary x s = Some y ∨ add_ternary y s = Some x)).
Proof.
  intros Hs Hfuel Hx Hy.
  destruct (find_ternary_cycles_spec n fuel s Hs Hfuel)
    as (cycles & Hrun & (_ & _ & _ & Horb) & Hall).
  exists cycles. split; [done|].
  rewrite list.Forall_forall in Horb.
  pose proof (proj1 (step_spec n s Hs x Hx)) as Hsx.
  pose proof (proj1 (step_spec n s Hs y Hy)) as Hsy.
  assert (∀ z, ternary_string n z → step s (step s (step s z)) = z) as Hcube
    by (intros z Hz; by apply (step_cube n)).
  split.
  - intros (c & Hc & Hxc & Hyc).
    destruct (Horb c Hc) as (z & Hz & ->).
    apply (elem_of_orbit n s z x Hs Hz) in Hxc.
    apply (elem_of_orbit n s z y Hs Hz) in Hyc.
    rewrite Hsx, Hsy.
    destruct Hxc as [-> | [-> | ->]], Hyc as [-> | [-> | ->]];
      rewrite ?(Hcube z Hz); auto.
  - intros Hrel.
    destruct (proj1 (elem_of_concat x cycles) (Hall x Hx)) as (c & Hc & Hxc).
    exists c. split; [done|]. split; [done|].
    destruct (Horb c Hc) as (z & Hz & ->).
    destruct Hrel as [-> | [Hadd | Hadd]]; [done | |].
    + rewrite Hsx in Hadd. injection Hadd as <-. by apply (orbit_closed n).
    + rewrite Hsy in Hadd. injection Hadd as <-.
      rewrite <-(Hcube y Hy). apply (orbit_closed n); [done..|].
      by apply (orbit_closed n).
Qed.

Lemma same_cycle_iff_witness :
  ∃ cycles,
    find_ternary_cycles 4 2 "10" = Some cycles
    ∧ ((∃ c, c ∈ cycles ∧ "01" ∈ c ∧ "11" ∈ c)
       ↔ ("11" = "01" ∨ add_ternary "01" "10" = Some "11"
          ∨ add_ternary "11" "10" = Some "01")).
Proof.
  apply (same_cycle_iff 2 4 "10" "01" "11");
    [split; reflexivity | lia | split; reflexivity | split; reflexivity].
Defined.

(** X2.  [add_ternary] on two strings of decimal digits: when the second is
    at least as long as the first, the result is the digit-wise sum modulo 3
    over the length of the first (the rest of the second is ignored); when it
    is shorter, the call raises. *)
Theorem add_ternary_digits (t1 t2 : string) (d1 d2 : list Z) :
  ints_of_string t1 = Some d1 → ints_of_string t2 = Some d2 →
  add_ternary t1 t2
  = if decide (length d1 ≤ length d2)%nat
    then Some (join_digits (zip_with (λ a b, (a + b) mod 3) d1 d2))
    else None.
Proof.
  revert t2 d1 d2. induction t1 as [|a t1 IH]; intros t2 d1 d2; simpl.
  - intros [= <-] _. case_decide; [done | simpl in *; lia].
  - destruct (int_of_char a) as [x|] eqn:Ha; [|done]. simpl.
    destruct (ints_of_string t1) as [ds1|] eqn:H1; [|done]. simpl.
    intros [= <-]. destruct t2 as [|b t2]; simpl.
    + intros [= <-]. case_decide; [simpl in *; lia | done].
    + destruct (int_of_char b) as [y|] eqn:Hb; [|done]. simpl.
      destruct (ints_of_string t2) as [ds2|] eqn:H2; [|done]. simpl.
      intros [= <-]. rewrite (IH t2 ds1 ds2) by done.
      repeat case_decide; simpl in *; (done || lia).
Qed.

Lemma add_ternary_digits_witness :
  add_ternary "12" "214"
  = if decide (length [1; 2] ≤ length [2; 1; 4])%nat
    then Some (join_digits (zip_with (λ a b, (a + b) mod 3) [1; 2] [2; 1; 4]))
    else None.
Proof.
  apply (add_ternary_digits "12" "214" [1; 2] [2; 1; 4]); reflexivity.
Defined.

End CycleClasses.

(** ** Two bits per ternary digit *)
Module Codec.
Import Cycles CyclesFacts Ternary.

Lemma digit_le_3 c d :
  int_of_char c = Some d → d ≤ 3 →
  (c = "0"%char ∧ d = 0) ∨ (c = "1"%char ∧ d = 1)
  ∨ (c = "2"%char ∧ d = 2) ∨ (c = "3"%char ∧ d = 3).
Proof.
  destruct c as [[] [] [] [] [] [] [] []]; unfold int_of_char; simpl;
    intros H Hle; try discriminate H; injection H as <-; try lia; tauto.
Qed.

Lemma app_String c s t : String c s +:+ t = String c (s +:+ t).
Proof. reflexivity. Qed.

Lemma app_empty t : "" +:+ t = t.
Proof. reflexivity. Qed.

Lemma binary_to_ternary_pair a a' rest d :
  int_base2 [a; a'] = Some d →
  binary_to_ternary (String a (String a' rest))
  = (r ← binary_to_ternary rest; Some (String (str_of_digit d) r)).
Proof. intros H. cbn [binary_to_ternary]. by rewrite H. Qed.

(** X3.  [binary_to_ternary] undoes [ternary_to_binary] on every string of
    digits up to 3, the ternary strings among them, and
    [ternary_to_binary] gives two characters per digit. *)
Theorem ternary_binary_round_trip (t : string) (ds : list Z) :
  ints_of_string t = Some ds → Forall (λ d, d ≤ 3) ds →
  ∃ b, ternary_to_binary t = Some b
       ∧ String.length b = (2 * String.length t)%nat
       ∧ binary_to_ternary b = Some t.
Proof.
  revert ds. induction t as [|c t IH]; intros ds Hds Hle.
  - by exists "".
  - simpl in Hds. destruct (int_of_char c) as [d|] eqn:Hc; [|done].
    destruct (ints_of_string t) as [ds'|] eqn:Ht; [|done].
    injection Hds as <-.
    apply list.Forall_cons in Hle as [Hd Hle].
    destruct (IH ds' eq_refl Hle) as (b & Hb & Hlen & Hback).
    cbn [ternary_to_binary]. rewrite Hc, Hb. cbn [mbind option_bind].
    exists (format_02b d +:+ b).
    assert (∀ x y r, String x (String y "") +:+ r = String x (String y r))
      as Happ by done.
    destruct (digit_le_3 c d Hc Hd)
      as [[-> ->] | [[-> ->] | [[-> ->] | [-> ->]]]].
    + change (format_02b 0) with "00". rewrite Happ.
      split_and!; [done | simpl; lia |].
      rewrite (binary_to_ternary_pair _ _ _ 0) by reflexivity. by rewrite Hback.
    + change (format_02b 1) with "01". rewrite Happ.
      split_and!; [done | simpl; lia |].
      rewrite (binary_to_ternary_pair _ _ _ 1) by reflexivity. by by rewrite Hback.
    + change (format_02b 2) with "10". rewrite Happ.
      split_and!; [done | simpl; lia |].
      rewrite (binary_to_ternary_pair _ _ _ 2) by reflexivity. by by rewrite Hback.
    + change (format_02b 3) with "11". rewrite Happ.
      split_and!; [done | simpl; lia |].
      rewrite (binary_to_ternary_pair _ _ _ 3) by reflexivity. by rewrite Hback.
Qed.

Lemma ternary_binary_round_trip_witness :
  ∃ b, ternary_to_binary "2013" = Some b
       ∧ String.length b = (2 * String.length "2013")%nat
       ∧ binary_to_ternary b = Some "2013".
Proof.
  apply (ternary_binary_round_trip "2013" [2; 0; 1; 3]); [reflexivity|].
  repeat first [apply Forall_nil_2 | apply Forall_cons_2]; lia.
Defined.

(** X4.  [ternary_to_binary] undoes [binary_to_ternary] on every string of
    bits of even length, and [binary_to_ternary] gives one digit per two
    bits. *)
Theorem binary_ternary_round_trip (m : nat) (b : string) (ds : list Z) :
  String.length b = (2 * m)%nat →
  ints_of_string b = Some ds → Forall (λ d, d ≤ 1) ds →
  ∃ t, binary_to_ternary b = Some t
       ∧ String.length t = m
       ∧ ternary_to_binary t = Some b.
Proof.
  revert b ds. induction m as [|m IH]; intros b ds Hlen Hds Hle.
  - destruct b; [|done]. by exists "".
  - destruct b as [|a [|a' b]]; [done| simpl in Hlen; lia |].
    simpl in Hds.
    destruct (int_of_char a) as [d|] eqn:Ha; [|done].
    destruct (int_of_char a') as [d'|] eqn:Ha'; [|done].
    destruct (ints_of_string b) as [ds'|] eqn:Hb; [|done].
    injection Hds as <-.
    apply list.Forall_cons in Hle as [Hd Hle].
    apply list.Forall_cons in Hle as [Hd' Hle].
    destruct (IH b ds') as (t & Ht & Htl & Hback);
      [simpl in Hlen; lia | done | done |].
    assert (∀ x y r, String x (String y "") +:+ r = String x (String y r))
      as Happ by done.
    destruct (digit_le_3 a d Ha ltac:(lia))
      as [[-> ->] | [[-> ->] | [[-> ->] | [-> ->]]]]; try lia;
      destruct (digit_le_3 a' d' Ha' ltac:(lia))
        as [[-> ->] | [[-> ->] | [[-> ->] | [-> ->]]]]; try lia.
    + rewrite (binary_to_ternary_pair _ _ _ 0) by reflexivity. rewrite Ht.
      exists (String "0" t). split_and!; [done | simpl; by rewrite Htl |].
      cbn [ternary_to_binary]. rewrite Hback.
      change (int_of_char "0") with (Some 0). cbn [mbind option_bind].
      change (format_02b 0) with "00". by rewrite Happ.
    + rewrite (binary_to_ternary_pair _ _ _ 1) by reflexivity. rewrite Ht.
      exists (String "1" t). split_and!; [done | simpl; by rewrite Htl |].
      cbn [ternary_to_binary]. rewrite Hback.
      change (int_of_char "1") with (Some 1). cbn [mbind option_bind].
      change (format_02b 1) with "01". by rewrite Happ.
    + rewrite (binary_to_ternary_pair _ _ _ 2) by reflexivity. rewrite Ht.
      exists (String "2" t). split_and!; [done | simpl; by rewrite Htl |].
      cbn [ternary_to_binary]. rewrite Hback.
      change (int_of_char "2") with (Some 2). cbn [mbind option_bind].
      change (format_02b 2) with "10". by rewrite Happ.
    + rewrite (binary_to_ternary_pair _ _ _ 3) by reflexivity. rewrite Ht.
      exists (String "3" t). split_and!; [done | simpl; by rewrite Htl |].
      cbn [ternary_to_binary]. rewrite Hback.
      change (int_of_char "3") with (Some 3). cbn [mbind option_bind].
      change (format_02b 3) with "11". by rewrite Happ.
Qed.

Lemma binary_ternary_round_trip_witness :
  ∃ t, binary_to_ternary "011011" = Some t
       ∧ String.length t = 3%nat
       ∧ ternary_to_binary t = Some "011011".
Proof.
  apply (binary_ternary_round_trip 3 "011011" [0; 1; 1; 0; 1; 1]);
    [reflexivity | reflexivity |].
  repeat first [apply Forall_nil_2 | apply Forall_cons_2]; lia.
Defined.

(** X5.  [ternary_to_qubits] accepts exactly the ternary strings, one pair
    per digit, and the pairs it returns spell the two bits per digit that
    [ternary_to_binary] gives. *)
Theorem ternary_to_qubits_spec (t : string) :
  (is_ternary t = true →
   ∃ qubit_pairs,
     OracleCheck.ternary_to_qubits t = Some qubit_pairs
     ∧ length qubit_pairs = String.length t
     ∧ ternary_to_binary t
       = Some (join_digits (flat_map (λ '(q1, q0), [q1; q0]) qubit_pairs)))
  ∧ (is_ternary t = false → OracleCheck.ternary_to_qubits t = None).
Proof.
  induction t as [|c t [IHt IHf]].
  - split; [|done]. intros _. by exists [].
  - cbn [is_ternary OracleCheck.ternary_to_qubits ternary_to_binary]. split.
    + intros [Hc Ht]%andb_true_iff.
      destruct (IHt Ht) as (ps & Hps & Hlen & Hbin).
      rewrite Hps, Hbin.
      apply ternary_char_cases in Hc as [-> | [-> | ->]]; cbn;
        (eexists; split; [done|]; split; [simpl; by rewrite Hlen|]);
        cbn; by rewrite ?app_String, ?app_empty.
    + intros [Hc|Ht]%andb_false_iff.
      * unfold ternary_char in Hc.
        rewrite !orb_false_iff, !bool_decide_eq_false in Hc.
        destruct Hc as [[H0 H1] H2].
        by rewrite !decide_False by done.
      * rewrite (IHf Ht). by repeat case_decide.
Qed.

End Codec.

(** ** The reduced rows are combinations of the rows of the input *)
Module RowSpace.
Import ModArith RowReduction MatrixFacts TernaryFacts Bridge Ternary.

Lemma rowspan_step_back p n m X X' r c pr u :
  gauss_step p n m X X' r c pr u → rowspan p n m X' X.
Proof.
  intros [[Hrpr Hprn] Hu Hrow Hoth].
  exists (λ i q, if decide (i = r) then u * delta q pr
                 else delta q (swapidx r pr i)
                      + (- (X (swapidx r pr i) c * u)) * delta q pr).
  intros i j Hi Hj. cbn beta.
  destruct (decide (i = r)) as [->|Hne].
  - rewrite (sumn_ext n _ (λ q, u * (delta q pr * X q j)))
      by (intros; lia).
    rewrite sumn_scale_l, sumn_delta_lt by lia. by apply Hrow.
  - assert (swapidx r pr i < n)%nat as Hs
      by (unfold swapidx; repeat case_decide; lia).
    rewrite sumn_two_deltas by lia.
    rewrite (Hoth i j) by done. rewrite (Hrow j) by done.
    apply cong_of_eq. lia.
Qed.

Lemma rowspan_kernel p n m A B (x : nat → Z) :
  rowspan p n m A B →
  (∀ t, (t < n)%nat → cong p (sumn m (λ j, B t j * x j)) 0) →
  ∀ i, (i < n)%nat → cong p (sumn m (λ j, A i j * x j)) 0.
Proof.
  intros [F HF] HB i Hi.
  rewrite (sumn_cong p m _ (λ j, sumn n (λ t, F i t * (B t j * x j)))).
  - rewrite sumn_swap.
    rewrite (sumn_cong p n _ (λ t, F i t * 0)).
    + apply cong_of_eq. apply sumn_zero. intros; lia.
    + intros t Ht. cbn beta. rewrite sumn_scale_l. by rewrite (HB t Ht).
  - intros j Hj. cbn beta. rewrite (HF i j Hi Hj), <-sumn_scale_r.
    apply cong_of_eq, sumn_ext. intros t Ht. lia.
Qed.

Lemma rref_loop_back len : ∀ c M r P M' P',
  well_formed M → reduced M → (c + len = cols M)%nat →
  rref_loop (seq c len) M r P = Some (M', P') →
  rowspan 3 (rows M) (cols M) (ent M') (ent M).
Proof.
  induction len as [|len IH]; intros c M r P M' P' Hwf Hred Hc Hrun.
  - simpl in Hrun. injection Hrun as <- <-. apply rowspan_refl.
  - cbn [seq rref_loop] in Hrun.
    destruct (find_pivot_row M c r) as [pr|] eqn:Hfind.
    + apply find_pivot_row_Some in Hfind as (Hpr & Hnz & _).
      destruct (pivot_step_spec M r c pr Hwf Hred Hpr ltac:(lia) Hnz)
        as (M1 & u & HM1 & [Hwf1 Hr1 Hc1] & Hred1 & Hstep).
      rewrite HM1 in Hrun. cbn [mbind option_bind] in Hrun.
      pose proof (rowspan_step_back 3 (rows M) (cols M) (ent M) (ent M1)
                    r c pr u Hstep) as Hback.
      case_decide as Hfull.
      * by injection Hrun as <- <-.
      * apply (rowspan_trans 3 _ _ _ (ent M1)); [|done].
        rewrite <-Hr1, <-Hc1. apply (IH (S c) M1 (S r) (P ++ [c]) M' P');
          [done | done | lia | done].
    + by apply (IH (S c) M r P M' P'); [| | lia |].
Qed.

Lemma rref_mod3_back M R P :
  well_formed M → rref_mod3 M = Some (R, P) →
  rowspan 3 (rows M) (cols M) (ent R) (ent M).
Proof.
  intros Hwf Hrun. unfold rref_mod3 in Hrun.
  apply (rowspan_trans 3 _ _ _ (ent (applyfunc mod3 M))).
  - apply (rref_loop_back (cols M) 0 (applyfunc mod3 M) 0 [] R P);
      [by apply well_formed_applyfunc | apply reduced_applyfunc_mod3
      | done | done].
  - apply rowspan_of_cong. intros i j _ _.
    pose proof (entry_applyfunc mod3 0 M i j) as H.
    change (mod3 0) with 0 in H. rewrite H. apply cong_mod3.
Qed.

(** The rows of a matrix are orthogonal to [x] modulo [p]. *)
Lemma rows_dot (A : Matrix Z) (x : list Z) p :
  well_formed A →
  (Forall (λ row, dot row x mod p = 0) (mat A)
   ↔ ∀ i, (i < rows A)%nat →
       cong p (sumn (cols A) (λ j, ent A i j * nth j x 0)) 0).
Proof.
  intros Hwf.
  assert (∀ i, (i < rows A)%nat →
            dot (map (λ j, ent A i j) (seq 0 (cols A))) x
            = sumn (cols A) (λ j, ent A i j * nth j x 0)) as Hdot.
  { intros i Hi. rewrite dot_sumn, length_map, length_seq.
    apply sumn_ext. intros j Hj. by rewrite nth_map_seq by done. }
  rewrite list.Forall_lookup. split.
  - intros H i Hi. specialize (H i _ (row_lookup A i Hwf Hi)).
    cbn beta in H. rewrite Hdot in H by done.
    rewrite cong_iff. by rewrite H, Zmod_0_l.
  - intros H i row Hrow.
    assert (i < rows A)%nat as Hi.
    { destruct Hwf as [Hr _]. rewrite <-Hr. by eapply lookup_lt_Some. }
    rewrite (row_lookup A i Hwf Hi) in Hrow. injection Hrow as <-.
    cbn beta. rewrite Hdot by done. specialize (H i Hi).
    rewrite cong_iff in H. by rewrite H, Zmod_0_l.
Qed.

(** *** What the reduction returns *)

(** X6.  [rref_mod3] succeeds on every matrix and returns a matrix in reduced
    row echelon form over the integers modulo 3: the shape of the input,
    entries 0, 1 or 2, pivot columns that increase from row to row, a 1 at
    each pivot with zeros in the rest of its column and to its left in its
    row, and only zeros in the rows after the last pivot row. *)
Theorem rref_mod3_reduced_form (M : Matrix Z) :
  well_formed M →
  ∃ R P,
    rref_mod3 M = Some (R, P)
    ∧ well_formed R ∧ rows R = rows M ∧ cols R = cols M
    ∧ (∀ i j, 0 ≤ entry 0 R i j < 3)
    ∧ (length P ≤ rows M)%nat
    ∧ (∀ i j pi pj,
         P !! i = Some pi → P !! j = Some pj → (i < j)%nat → (pi < pj)%nat)
    ∧ (∀ i pi, P !! i = Some pi →
         (pi < cols M)%nat
         ∧ entry 0 R i pi = 1
         ∧ (∀ j, j ≠ i → entry 0 R j pi = 0)
         ∧ (∀ c, (c < pi)%nat → entry 0 R i c = 0))
    ∧ (∀ j c, (length P ≤ j)%nat → entry 0 R j c = 0).
Proof.
  intros Hwf.
  destruct (rref_mod3_spec M Hwf)
    as (R & P & c' & HR & [HwfR HrR HcR] & Hred & Hech & Hc' & Hfin & _).
  destruct Hech as [H1 H2 H3 H4 H5 H6 H7].
  exists R, P. split_and!; try done.
  - intros i pi Hi. split_and!.
    + specialize (H3 i pi Hi). lia.
    + apply reduced_cong_eq; [done | lia | by apply (H4 i)].
    + intros j Hj. destruct (decide (j < rows M)%nat) as [Hlt|Hge].
      * apply reduced_cong_eq; [done | lia | by apply (H5 i)].
      * apply entry_ge_rows; [done | lia].
    + intros c Hc. apply reduced_cong_eq; [done | lia | by apply (H7 i pi)].
  - intros j c Hj. destruct (decide (j < rows M)%nat) as [Hlt|Hge].
    + destruct (decide (c < cols M)%nat) as [Hc|Hc].
      * apply reduced_cong_eq; [done | lia |]. apply H6; [done | done | lia].
      * apply entry_ge_cols; [done | lia].
    + apply entry_ge_rows; [done | lia].
Qed.

Lemma rref_mod3_reduced_form_witness :
  ∃ R P,
    rref_mod3 (mk_Matrix 2 3 [[2; 1; 4]; [1; 5; 0]]) = Some (R, P)
    ∧ well_formed R ∧ rows R = 2%nat ∧ cols R = 3%nat
    ∧ (∀ i j, 0 ≤ entry 0 R i j < 3)
    ∧ (length P ≤ 2)%nat
    ∧ (∀ i j pi pj,
         P !! i = Some pi → P !! j = Some pj → (i < j)%nat → (pi < pj)%nat)
    ∧ (∀ i pi, P !! i = Some pi →
         (pi < 3)%nat
         ∧ entry 0 R i pi = 1
         ∧ (∀ j, j ≠ i → entry 0 R j pi = 0)
         ∧ (∀ c, (c < pi)%nat → entry 0 R i c = 0))
    ∧ (∀ j c, (length P ≤ j)%nat → entry 0 R j c = 0).
Proof.
  apply (rref_mod3_reduced_form (mk_Matrix 2 3 [[2; 1; 4]; [1; 5; 0]])).
  split; [reflexivity|].
  repeat first [apply Forall_nil_2 | apply Forall_cons_2]; reflexivity.
Defined.

(** X7.  [rref_mod3] keeps the solutions of the homogeneous system: a vector
    is orthogonal modulo 3 to every row of the input exactly when it is
    orthogonal modulo 3 to every row of the reduced matrix. *)
Theorem rref_mod3_kernel (M : Matrix Z) (x : list Z) :
  well_formed M →
  ∃ R P,
    rref_mod3 M = Some (R, P)
    ∧ (Forall (λ row, dot row x mod 3 = 0) (mat M)
       ↔ Forall (λ row, dot row x mod 3 = 0) (mat R)).
Proof.
  intros Hwf.
  destruct (rref_mod3_spec M Hwf)
    as (R & P & c' & HR & [HwfR HrR HcR] & _ & _ & _ & _ & Hspan).
  pose proof (rref_mod3_back M R P Hwf HR) as Hback.
  exists R, P. split; [done|].
  rewrite (rows_dot M x 3 Hwf), (rows_dot R x 3 HwfR), HrR, HcR.
  split; intros H.
  - by apply (rowspan_kernel 3 _ _ (ent R) (ent M) (λ j, nth j x 0)).
  - by apply (rowspan_kernel 3 _ _ (ent M) (ent R) (λ j, nth j x 0)).
Qed.

Lemma rref_mod3_kernel_witness :
  ∃ R P,
    rref_mod3 (mk_Matrix 2 3 [[2; 1; 4]; [1; 5; 0]]) = Some (R, P)
    ∧ (Forall (λ row, dot row [1; 1; 0] mod 3 = 0)
         (mat (mk_Matrix 2 3 [[2; 1; 4]; [1; 5; 0]]))
       ↔ Forall (λ row, dot row [1; 1; 0] mod 3 = 0) (mat R)).
Proof.
  apply (rref_mod3_kernel (mk_Matrix 2 3 [[2; 1; 4]; [1; 5; 0]]) [1; 1; 0]).
  split; [reflexivity|].
  repeat first [apply Forall_nil_2 | apply Forall_cons_2]; reflexivity.
Defined.

End RowSpace.

(** ** The answer is orthogonal to the equations *)
Module Soundness.
Import ModArith RowReduction MatrixFacts TernaryFacts Bridge Solution RowSpace.

Lemma zeros_join n : zeros n = join_digits (replicate n 0).
Proof. induction n as [|n IH]; simpl; [done|]. by rewrite IH. Qed.

Lemma dot_replicate_0 (v : list Z) n : dot v (replicate n 0) = 0.
Proof.
  rewrite dot_sumn. apply sumn_zero. intros t _.
  assert (nth t (replicate n 0) 0 = 0) as ->; [|lia].
  rewrite nth_lookup. destruct (replicate n 0 !! t) as [z|] eqn:Hz; [|done].
  by apply lookup_replicate in Hz as [-> _].
Qed.

Lemma find_lookup {A} (f : A → bool) (l : list A) x :
  find f l = Some x → ∃ i, l !! i = Some x ∧ f x = true.
Proof.
  induction l as [|a l IH]; simpl; [done|].
  destruct (f a) eqn:Hfa.
  - intros [= <-]. by exists 0%nat.
  - intros H. destruct (IH H) as (i & Hi & Hx). by exists (S i).
Qed.

Lemma forallb_map_seq_inv (g : Z → bool) (f : nat → Z) k j :
  forallb g (map f (seq 0 k)) = true → (j < k)%nat → g (f j) = true.
Proof.
  intros Hall Hj. rewrite forallb_forall in Hall. apply Hall.
  apply in_map_iff. exists j. split; [done|]. apply in_seq. lia.
Qed.

(** A row of the reduced augmented matrix whose left block vanishes holds,
    in its right block, a vector orthogonal to the equations. *)
Section NullRow.
Variable p : Z.
Variables n k : nat.
Variable eqs : list (list Z).
Hypothesis Hk : length eqs = k.
Hypothesis Hlen : Forall (λ v, length v = n) eqs.
Variable A : Matrix Z.
Hypothesis HwfA : well_formed A.
Hypothesis HrA : rows A = k.
Hypothesis HcA : cols A = n.
Hypothesis HeA : ∀ j t, (j < k)%nat → (t < n)%nat →
  cong p (ent A j t) (nth t (nth j eqs []) 0).
Variable F : matfun.
Hypothesis Hback :
  rowspan p n (k + n) F (ent (hstack_eye (transpose A))).

Lemma null_row i :
  (i < n)%nat →
  (∀ j, (j < k)%nat → cong p (F i j) 0) →
  Forall (λ v, dot v (map (λ w, F i (k + w)%nat) (seq 0 n)) mod p = 0) eqs.
Proof.
  intros Hi Hleft. destruct Hback as [T HT].
  destruct (augmented_spec A HwfA) as (_ & _ & _ & HL & HR).
  rewrite HrA, HcA in *.
  assert (∀ w, (w < n)%nat → cong p (F i (k + w)%nat) (T i w)) as Hright.
  { intros w Hw. rewrite (HT i (k + w)%nat) by lia.
    rewrite (sumn_ext n _ (λ t, delta t w * T i t)).
    - by rewrite sumn_delta_lt.
    - intros t Ht. rewrite HR by done. lia. }
  rewrite list.Forall_lookup. intros j v Hv.
  pose proof (lookup_lt_Some _ _ _ Hv) as Hj. rewrite Hk in Hj.
  assert (length v = n) as Hvn.
  { rewrite list.Forall_lookup in Hlen. by apply (Hlen j). }
  assert (nth j eqs [] = v) as Hnth by (by rewrite nth_lookup, Hv).
  cbn beta. rewrite dot_sumn, Hvn.
  assert (cong p (sumn n (λ t, nth t v 0
            * nth t (map (λ w, F i (k + w)%nat) (seq 0 n)) 0)) 0) as Hz.
  { rewrite <-(Hleft j Hj), (HT i j) by lia.
    apply sumn_cong. intros t Ht. cbn beta.
    rewrite nth_map_seq by done. simpl.
    rewrite (Hright t Ht), HL, HeA, Hnth by done.
    apply cong_of_eq. lia. }
  rewrite cong_iff in Hz. by rewrite Hz, Zmod_0_l.
Qed.

End NullRow.

Lemma solve_3d_sound (n : nat) (eqs : list (list Z)) :
  eqs ≠ [] →
  Forall (λ v, length v = n) eqs →
  ∃ y,
    Ternary.solve_3d n eqs = Some (Ternary.Str (join_digits y))
    ∧ length y = n
    ∧ Forall (λ d, 0 ≤ d < 3) y
    ∧ Forall (λ v, dot v y mod 3 = 0) eqs.
Proof.
  intros Hne Hlen.
  destruct (Matrix_of_rows_spec eqs n Hne Hlen)
    as (A0 & HA & HwfA0 & HrA0 & HcA0 & HmA).
  set (k := length eqs) in *.
  rewrite solve_3d_nonempty by done.
  rewrite HA. cbn [mbind option_bind].
  set (A := applyfunc Ternary.mod3 A0).
  assert (well_formed A) as HwfA by (by apply well_formed_applyfunc).
  assert (rows A = k) as HrA by done.
  assert (cols A = n) as HcA by done.
  assert (∀ j t, (j < k)%nat → (t < n)%nat →
            cong 3 (ent A j t) (nth t (nth j eqs []) 0)) as HeA.
  { intros j t _ _. pose proof (entry_applyfunc Ternary.mod3 0 A0 j t) as H.
    change (Ternary.mod3 0) with 0 in H. fold A in H.
    by rewrite H, cong_mod3, entry_nth, HmA. }
  destruct (augmented_spec A HwfA) as (HwfX & HrX & HcX & _ & _).
  set (X0 := hstack_eye (transpose A)) in *.
  destruct (rref_mod3_spec X0 HwfX)
    as (R & P & c' & HR & [HwfR HrR HcR] & Hred & _).
  pose proof (rref_mod3_back X0 R P HwfX HR) as Hback.
  rewrite HR. cbn [mbind option_bind fst].
  rewrite HrX, HcA in *. rewrite HcX, HrA in *.
  change (λ x : Z, x mod 3) with Ternary.mod3.
  rewrite (applyfunc_mod3_reduced R HwfR Hred).
  change (cols (transpose A)) with (rows A). rewrite HrA.
  rewrite scan_rows_first by done.
  destruct (find _ (mat R)) as [row|] eqn:Hfind.
  - apply find_lookup in Hfind as (i & Hrow & Hzero).
    assert (i < n)%nat as Hi.
    { destruct HwfR as [Hl _]. rewrite <-HrR, <-Hl.
      by eapply lookup_lt_Some. }
    rewrite (row_lookup R i HwfR) in Hrow by lia.
    injection Hrow as <-. rewrite HcR in *.
    rewrite take_row in Hzero. rewrite drop_row.
    exists (map (λ w, ent R i (k + w)) (seq 0 n)).
    split_and!; [done | by rewrite length_map, length_seq | |].
    + apply list.Forall_forall. intros d (w & -> & _)%list_elem_of_fmap.
      apply Hred.
    + apply (null_row 3 n k eqs eq_refl Hlen A HwfA HrA HcA HeA (ent R) Hback
               i Hi).
      intros j Hj.
      pose proof (forallb_map_seq_inv _ _ k j Hzero Hj) as Hz.
      unfold Ternary.is_zero_mod3 in Hz. apply bool_decide_eq_true in Hz.
      rewrite <-(cong_mod3 (ent R i j)). fold (Ternary.mod3 (ent R i j)).
      by rewrite Hz.
  - exists (replicate n 0). rewrite <-zeros_join.
    split_and!; [done | by rewrite length_replicate | |].
    + apply list.Forall_forall. intros d Hd. apply list_elem_of_lookup_1 in Hd as [t Ht]. apply lookup_replicate in Ht as [-> _]. lia.
    + apply list.Forall_forall. intros v _. by rewrite dot_replicate_0.
Qed.

(** X8.  Whatever outcomes are measured, when they give at least one
    equation and all equations have [n] digits, [recover_secret_string_3d]
    returns a string of [n] digits 0, 1 or 2 whose vector is orthogonal
    modulo 3 to every equation. *)
Theorem recover_secret_string_3d_sound
    (n : nat) (results : dict) (eqs : list (list Z)) :
  Ternary.collect_equations n results = Some eqs →
  eqs ≠ [] →
  Forall (λ v, length v = n) eqs →
  ∃ y,
    Ternary.recover_secret_string_3d n results
    = Some (Ternary.Str (join_digits y))
    ∧ length y = n
    ∧ Forall (λ d, 0 ≤ d < 3) y
    ∧ Forall (λ v, dot v y mod 3 = 0) eqs.
Proof.
  intros Hcollect Hne Hlen.
  unfold Ternary.recover_secret_string_3d. rewrite Hcollect.
  cbn [mbind option_bind]. by apply solve_3d_sound.
Qed.

Lemma recover_secret_string_3d_sound_witness :
  ∃ y,
    Ternary.recover_secret_string_3d 2 [("0110", 3); ("0000", 1)]
    = Some (Ternary.Str (join_digits y))
    ∧ length y = 2%nat
    ∧ Forall (λ d, 0 ≤ d < 3) y
    ∧ Forall (λ v, dot v y mod 3 = 0) [[1; 2]].
Proof.
  apply (recover_secret_string_3d_sound 2 [("0110", 3); ("0000", 1)] [[1; 2]]).
  - reflexivity.
  - discriminate.
  - repeat first [apply Forall_nil_2 | apply Forall_cons_2]; reflexivity.
Defined.

End Soundness.

(** ** The shot loop of the ternary checks *)
Module CheckFacts.
Import Digits Solution TernaryCheck.

Lemma rotated_string_digits (secret_string : string) (s : list Z) :
  ints_of_string secret_string = Some s →
  rotated_string secret_string
  = Some (join_digits (map (λ d, (d + d) mod 3) s)).
Proof.
  revert s. induction secret_string as [|c r IH]; intros s; simpl.
  - by intros [= <-].
  - destruct (int_of_char c) as [d|]; [|done]. simpl.
    destruct (ints_of_string r) as [ds|]; [|done]. simpl.
    intros [= <-]. by rewrite (IH ds).
Qed.






Lemma double_double (s : list Z) :
  Forall (λ d, 0 ≤ d < 3) s →
  map (λ d, (d + d) mod 3) (map (λ d, (d + d) mod 3) s) = s.
Proof.
  intros Hs. rewrite <-list_fmap_compose. rewrite <-(list_fmap_id s) at 2.
  apply list.Forall_fmap_ext_1. eapply list.Forall_impl; [exact Hs|].
  intros d Hd. simpl in *.
  assert (d = 0 ∨ d = 1 ∨ d = 2) as [-> | [-> | ->]] by lia; reflexivity.
Qed.

Lemma ints_of_join_digits (s : list Z) :
  Forall (λ d, 0 ≤ d < 3) s → ints_of_string (join_digits s) = Some s.
Proof.
  induction 1 as [|d s Hd _ IH]; [done|].
  cbn [join_digits ints_of_string]. rewrite IH.
  assert (d = 0 ∨ d = 1 ∨ d = 2) as [-> | [-> | ->]] by lia; reflexivity.
Qed.

(** X11.  The check cannot tell a ternary secret from its double: doubling
    twice gives the secret back, and a prediction is accepted for the
    secret exactly when it is accepted for the double. *)
Theorem check_prediction_double
    (secret_string prediction : string) (s : list Z) :
  ints_of_string secret_string = Some s →
  Forall (λ d, 0 ≤ d < 3) s →
  ∃ rotated,
    rotated_string secret_string = Some rotated
    ∧ rotated_string rotated = Some secret_string
    ∧ check_prediction (Ternary.Str prediction) rotated
      = check_prediction (Ternary.Str prediction) secret_string.
Proof.
  intros Hsecret Hdig.
  set (r := map (λ d, (d + d) mod 3) s).
  assert (Forall (λ d, 0 ≤ d < 3) r) as Hr.
  { apply list.Forall_fmap. eapply list.Forall_impl; [exact Hdig|].
    intros d _. simpl. apply Z.mod_pos_bound. lia. }
  pose proof (rotated_string_digits secret_string s Hsecret) as H1.
  pose proof (rotated_string_digits (join_digits r) r
                (ints_of_join_digits r Hr)) as H2.
  unfold r in H2 at 2. rewrite double_double in H2 by done.
  rewrite (join_digits_ints_of_string secret_string s Hsecret) in H2.
  exists (join_digits r). split_and!; [done | done |].
  unfold check_prediction. rewrite H1, H2. cbn [mbind option_bind].
  f_equal. apply bool_decide_ext.
  rewrite !elem_of_union, !elem_of_singleton, !elem_of_empty. tauto.
Qed.

Lemma check_prediction_double_witness :
  ∃ rotated,
    rotated_string "120" = Some rotated
    ∧ rotated_string rotated = Some "120"
    ∧ check_prediction (Ternary.Str "210") rotated
      = check_prediction (Ternary.Str "210") "120".
Proof.
  apply (check_prediction_double "120" "210" [1; 2; 0]); [reflexivity|].
  repeat first [apply Forall_nil_2 | apply Forall_cons_2]; lia.
Defined.

End CheckFacts.

(** ** One empty bucket in the two-secret variant *)
Module BucketEdges.
Import MultiSimon Buckets.

Lemma bucket_skip (tagged : bool) (keys : list string) (d : dict) :
  Forall (λ item, ∀ c tail, item = String c tail →
                            bool_decide (c = "1"%char) ≠ tagged) keys →
  bucket tagged keys d = d.
Proof.
  revert d. induction keys as [|item keys IH]; intros d Hkeys; [done|].
  apply list.Forall_cons in Hkeys as [Hitem Hkeys].
  rewrite bucket_cons, IH by done.
  destruct item as [|c tail]; [done|]. simpl.
  by rewrite decide_False by (by apply (Hitem c tail)).
Qed.

(** X12.  When no measured outcome starts with 1, the second prediction of
    the two-secret [run_and_analyze] is the all-zero string, and when every
    outcome starts with 1 the first prediction is: the empty bucket gives
    no equation. *)
Theorem run_and_analyze_empty_bucket (n : nat) (counts : dict) :
  Forall (λ item, item ≠ "") (map fst counts) →
  ((∀ tail, String "1" tail ∉ map fst counts) →
   run_and_analyze n counts
   = (prediction1 ←
        recover_secret_string n (bucket false (map fst counts) []);
      Some (prediction1, zeros n)))
  ∧ ((∀ item, item ∈ map fst counts → ∃ tail, item = String "1" tail) →
     run_and_analyze n counts
     = (prediction2 ←
          recover_secret_string n (bucket true (map fst counts) []);
        Some (zeros n, prediction2))).
Proof.
  intros Hne. unfold run_and_analyze.
  rewrite (split_counts_bucket _ [] [] Hne). cbn [mbind option_bind].
  split.
  - intros Hno. rewrite (bucket_skip true); [done|].
    apply list.Forall_forall. intros item Hitem c tail -> Hc.
    apply bool_decide_eq_true in Hc. subst c. by apply (Hno tail).
  - intros Hall. rewrite (bucket_skip false); [done|].
    apply list.Forall_forall. intros item Hitem c tail -> Hc.
    apply bool_decide_eq_false in Hc.
    destruct (Hall _ Hitem) as [tail' [= -> _]]. by apply Hc.
Qed.

Lemma run_and_analyze_empty_bucket_witness :
  run_and_analyze 2 [("010", 1); ("011", 1)]
  = (prediction1 ←
       recover_secret_string 2
         (bucket false (map fst [("010", 1); ("011", 1)]) []);
     Some (prediction1, zeros 2)).
Proof.
  refine (proj1 (run_and_analyze_empty_bucket 2 [("010", 1); ("011", 1)] _) _).
  - repeat first [apply Forall_nil_2 | apply Forall_cons_2]; discriminate.
  - intros tail Hin. simpl in Hin.
    rewrite !elem_of_cons, elem_of_nil in Hin.
    destruct Hin as [Heq | [Heq | []]]; inversion Heq.
Defined.

End BucketEdges.

(** ** Splicing the oracle into the circuit text *)
Module OraclePlug.
Import Utils Codec.

Lemma prefix_app (sub s : string) :
  String.prefix sub s = true ↔ ∃ post, s = sub +:+ post.
Proof.
  revert s. induction sub as [|a sub IH]; intros s.
  - split; [intros _; by exists s | by destruct s].
  - destruct s as [|b s]; simpl.
    + split; [done | by intros [post H]].
    + destruct (ascii_dec a b) as [->|Hab].
      * rewrite IH. split; intros [post H]; exists post.
        -- by rewrite app_String, <-H.
        -- rewrite app_String in H. by injection H.
      * split; [done|]. intros [post H]. rewrite app_String in H.
        injection H as H _. by destruct Hab.
Qed.

Lemma str_drop_app (pre s : string) : str_drop (String.length pre) (pre +:+ s) = s.
Proof. induction pre as [|c pre IH]; [by destruct s | done]. Qed.

Lemma str_take_app (pre s : string) : str_take (String.length pre) (pre +:+ s) = pre.
Proof.
  induction pre as [|c pre IH]; [by destruct s|].
  rewrite app_String. simpl. by rewrite IH.
Qed.

Lemma str_find_spec (sub s : string) :
  match str_find s sub with
  | Some i =>
      ∃ pre post,
        s = pre +:+ sub +:+ post ∧ String.length pre = i
        ∧ ∀ pre' post', s = pre' +:+ sub +:+ post' →
                        (i ≤ String.length pre')%nat
  | None => ∀ pre post, s ≠ pre +:+ sub +:+ post
  end.
Proof.
  induction s as [|c r IH].
  - cbn [str_find]. destruct (String.prefix sub "") eqn:Hp.
    + apply (proj1 (prefix_app _ _)) in Hp as [post Hp]. exists "", post.
      split_and!; [done | done | intros; lia].
    + intros pre post H. destruct pre as [|a pre]; [|done].
      rewrite app_empty in H.
      assert (String.prefix sub "" = true) as Hp'
        by (apply prefix_app; by exists post).
      congruence.
  - cbn [str_find]. destruct (String.prefix sub (String c r)) eqn:Hp.
    + apply (proj1 (prefix_app _ _)) in Hp as [post Hp]. exists "", post.
      split_and!; [done | done | intros; lia].
    + assert (∀ pre post, String c r = pre +:+ sub +:+ post →
              ∃ pre0, pre = String c pre0 ∧ r = pre0 +:+ sub +:+ post) as Hcons.
      { intros pre post H. destruct pre as [|a pre].
        - rewrite app_empty in H.
          assert (String.prefix sub (String c r) = true) as Hp'
            by (apply prefix_app; by exists post).
          congruence.
        - rewrite app_String in H. injection H as -> ->. by exists pre. }
      destruct (str_find r sub) as [i|]; simpl.
      * destruct IH as (pre & post & -> & <- & Hmin).
        exists (String c pre), post. split_and!; [done | done |].
        intros pre' post' H. apply Hcons in H as (pre0 & -> & H).
        simpl. specialize (Hmin pre0 post' H). lia.
      * intros pre post H. apply Hcons in H as (pre0 & -> & H).
        by apply (IH pre0 post).
Qed.

(** X13.  [plug_in_oracle] replaces the first occurrence of the include
    statement by the oracle definition and leaves the text before and after
    it as it is; it raises [ValueError] exactly when the statement does not
    occur in the circuit text. *)
Theorem plug_in_oracle_spec (qasm_code oracle_def : string) :
  match plug_in_oracle qasm_code oracle_def with
  | Some full_qasm =>
      ∃ pre post,
        qasm_code = pre +:+ oracle_include +:+ post
        ∧ full_qasm = pre +:+ oracle_def +:+ post
        ∧ ∀ pre' post', qasm_code = pre' +:+ oracle_include +:+ post' →
                        (String.length pre ≤ String.length pre')%nat
  | None => ∀ pre post, qasm_code ≠ pre +:+ oracle_include +:+ post
  end.
Proof.
  unfold plug_in_oracle.
  pose proof (str_find_spec oracle_include qasm_code) as H.
  destruct (str_find qasm_code oracle_include) as [i|]; [|done].
  destruct H as (pre & post & -> & <- & Hmin).
  exists pre, post. split_and!; [done | | done].
  rewrite str_take_app. f_equal. f_equal.
  replace (String.length pre + String.length oracle_include)%nat
    with (String.length (pre +:+ oracle_include)).
  - assert (pre +:+ oracle_include +:+ post
            = (pre +:+ oracle_include) +:+ post) as ->.
    { clear Hmin. induction pre as [|c pre IH]; [done|].
      rewrite !app_String. by rewrite IH. }
    apply str_drop_app.
  - clear Hmin. induction pre as [|c pre IH]; [done|].
    rewrite app_String. simpl. by rewrite IH.
Qed.

End OraclePlug.
